(** * ChatGPT chat exporter: a shallow embedding of the conversion and
      segmentation pipeline

    The repository ships three bookmarklet scripts that share most of their
    code: the Markdown exporter ([exporter-markdown.js]), the Markdown
    exporter that inlines images as base64 (the variant with the
    [reliable] flag and reply labels), and the HTML exporter
    ([exporter-html.js]).  Where the three differ, each variant gets a
    definition of its own, named [_md], [_b64] and [_html].

    JavaScript strings are sequences of UTF-16 code units; they are modelled
    as [list N], one number per code unit, so that [length] is the
    JavaScript [length]. *)

From Stdlib Require Import ZArith NArith Lia Bool Ascii String DecimalString.
From stdpp Require Import base option list gmap strings.

Set Warnings "-register-all".

Abbreviation jsstring := (list N).

(** [js "abc"] is the JavaScript string literal ['abc'] (ASCII only). *)
Definition js (s : string) : jsstring :=
  map Ascii.N_of_ascii (String.list_ascii_of_string s).

(** ** JavaScript string primitives *)
Module JS.

Definition NL : N := 10%N.
Definition SP : N := 32%N.

(** [a === b] on strings. *)
Fixpoint str_eqb (a b : jsstring) : bool :=
  match a, b with
  | [], [] => true
  | x :: a', y :: b' => (x =? y)%N && str_eqb a' b'
  | _, _ => false
  end.

(** [x || d] on strings: the empty string is falsy. *)
Definition or_else (x d : jsstring) : jsstring :=
  match x with [] => d | _ => x end.

Definition truthy (x : jsstring) : bool :=
  match x with [] => false | _ => true end.

(** [s.length] as a JavaScript number. *)
Definition strlen (s : jsstring) : Z := Z.of_nat (length s).

Fixpoint startsWith (s pat : jsstring) {struct pat} : bool :=
  match pat, s with
  | [], _ => true
  | p :: pat', c :: s' => (c =? p)%N && startsWith s' pat'
  | _ :: _, [] => false
  end.

Fixpoint includes (s pat : jsstring) : bool :=
  startsWith s pat ||
  match s with
  | [] => false
  | _ :: s' => includes s' pat
  end.

(** ECMAScript [LineTerminator]: LF, CR, LS, PS. *)
Definition isLineTerminator (c : N) : bool :=
  ((c =? 10) || (c =? 13) || (c =? 8232) || (c =? 8233))%N.

(** ECMAScript [WhiteSpace] and [LineTerminator], the set removed by [trim]
    and matched by [\s]. *)
Definition isWhiteSpace (c : N) : bool :=
  ((c =? 9) || (c =? 10) || (c =? 11) || (c =? 12) || (c =? 13) ||
   (c =? 32) || (c =? 160) || (c =? 5760) ||
   ((8192 <=? c) && (c <=? 8202)) ||
   (c =? 8232) || (c =? 8233) || (c =? 8239) || (c =? 8287) ||
   (c =? 12288) || (c =? 65279))%N.

Fixpoint takeWhile (p : N -> bool) (s : jsstring) : jsstring :=
  match s with
  | c :: r => if p c then c :: takeWhile p r else []
  | [] => []
  end.

Fixpoint dropWhile (p : N -> bool) (s : jsstring) : jsstring :=
  match s with
  | c :: r => if p c then dropWhile p r else s
  | [] => []
  end.

Definition trimStart (s : jsstring) : jsstring := dropWhile isWhiteSpace s.
Definition trimEnd (s : jsstring) : jsstring :=
  rev (dropWhile isWhiteSpace (rev s)).
Definition trim (s : jsstring) : jsstring := trimEnd (trimStart s).

(** [s.substring(0, n)]. *)
Definition substring0 (n : nat) (s : jsstring) : jsstring := take n s.

(** [parts.join(sep)]. *)
Fixpoint join (sep : jsstring) (parts : list jsstring) : jsstring :=
  match parts with
  | [] => []
  | [p] => p
  | p :: rest => p ++ sep ++ join sep rest
  end.

(** [s.repeat(n)]. *)
Fixpoint repeat_str (s : jsstring) (n : nat) : jsstring :=
  match n with
  | O => []
  | S n' => s ++ repeat_str s n'
  end.

(** ASCII part of [toLowerCase].  The exporters only compare the lowered
    string against ASCII literals that contain neither [k] nor a letter
    produced by a multi-unit lowering, so code units outside [A-Z] are left
    as they are. *)
Definition lower_unit (c : N) : N :=
  if ((65 <=? c) && (c <=? 90))%N then (c + 32)%N else c.
Definition toLowerCase (s : jsstring) : jsstring := map lower_unit s.

(** *** Global regular-expression replacement

    [s.replace(/re/g, rep)] scans from left to right; at each position the
    pattern is tried, a match is replaced by [rep] and scanning resumes
    after the matched text, otherwise one code unit is copied.  A matcher
    receives the code unit before the current position ([None] at index 0,
    needed for [^]) and the remaining input, and answers the length of the
    match that starts here.  None of the patterns used by the exporters
    matches the empty string. *)
Definition matcher := option N -> jsstring -> option nat.

Fixpoint replace_from (m : matcher) (rep : jsstring) (skip : nat)
    (prev : option N) (s : jsstring) : jsstring :=
  match s with
  | [] => []
  | c :: r =>
      match skip with
      | S k => replace_from m rep k (Some c) r
      | O =>
          match m prev s with
          | Some (S k) => rep ++ replace_from m rep k (Some c) r
          | _ => c :: replace_from m rep 0 (Some c) r
          end
      end
  end.

Definition replace_all (m : matcher) (rep : jsstring) (s : jsstring) : jsstring :=
  replace_from m rep 0 None s.

(** A literal pattern such as [/&lt;/]. *)
Definition m_lit (pat : jsstring) : matcher :=
  fun _ s => if startsWith s pat then Some (length pat) else None.

(** A greedy run [c{min,}] of code units satisfying [p]. *)
Definition m_run (p : N -> bool) (min : nat) : matcher :=
  fun _ s =>
    let k := length (takeWhile p s) in
    if (min <=? k)%nat then Some k else None.

Definition is_nl (c : N) : bool := (c =? NL)%N.
Definition is_hspace (c : N) : bool := ((c =? 32) || (c =? 9))%N.

(** [^] under the [m] flag. *)
Definition line_start (prev : option N) : bool :=
  match prev with
  | None => true
  | Some c => isLineTerminator c
  end.

Definition fence : jsstring := [96; 96; 96]%N.

(** [[ \t]+(?!```)]: the greedy run backtracks one unit at a time until the
    text after it does not start with the fence. *)
Fixpoint backtrack (j : nat) (s : jsstring) : option nat :=
  match j with
  | O => None
  | S j' => if startsWith (drop j s) fence then backtrack j' s else Some j
  end.

(** [/^[ \t]+(?!```)/gm]. *)
Definition m_indent : matcher :=
  fun prev s =>
    if line_start prev then backtrack (length (takeWhile is_hspace s)) s
    else None.

End JS.
Import JS.

(** ** Text clean-up shared by the Markdown exporters *)

Definition cleanMarkdown (text : jsstring) : jsstring :=
  let t1 := replace_all (m_run is_nl 3) [NL; NL] text in
  let t2 := replace_all (m_lit (js "&lt;")) (js "<") t1 in
  let t3 := replace_all (m_lit (js "&gt;")) (js ">") t2 in
  let t4 := replace_all (m_lit (js "&amp;")) (js "&") t3 in
  let t5 := replace_all (m_lit (js "&nbsp;")) (js " ") t4 in
  let t6 := replace_all (m_lit (js "&quot;")) [34%N] t5 in
  let t7 := replace_all m_indent [] t6 in
  trim t7.

Definition escapeMarkdownText (text : jsstring) : jsstring :=
  let t1 := replace_all (m_lit [92%N]) [92; 92]%N text in
  let t2 := replace_all (m_lit [91%N]) [92; 91]%N t1 in
  replace_all (m_lit [93%N]) [92; 93]%N t2.

(** ** Numbers as the list converter uses them

    [parseInt] yields an integer or [NaN]; integers are kept exact, which
    agrees with the JavaScript doubles for magnitudes below [2^53]. *)
Module JSNum.

Inductive num : Type :=
| NaN
| Int (z : Z).

Definition is_digit (c : N) : bool := ((48 <=? c) && (c <=? 57))%N.

Definition digits_value (ds : jsstring) : Z :=
  fold_left (fun acc c => (acc * 10 + (Z.of_N c - 48))%Z) ds 0%Z.

(** [parseInt(s, 10)]: leading white space is skipped, an optional sign is
    read, then the longest run of decimal digits; no digit gives [NaN]. *)
Definition parseInt (s : jsstring) : num :=
  let t := trimStart s in
  let '(neg, body) :=
    match t with
    | 45%N :: r => (true, r)
    | 43%N :: r => (false, r)
    | _ => (false, t)
    end in
  match takeWhile is_digit body with
  | [] => NaN
  | ds => Int (if neg then - digits_value ds else digits_value ds)
  end.

(** [itemNum++]. *)
Definition incr (n : num) : num :=
  match n with
  | NaN => NaN
  | Int z => Int (z + 1)
  end.

(** [n + k] for a count [k]. *)
Definition add_nat (n : num) (k : nat) : num :=
  match n with
  | NaN => NaN
  | Int z => Int (z + Z.of_nat k)
  end.

(** [`${n}`]. *)
Definition to_string (n : num) : jsstring :=
  match n with
  | NaN => js "NaN"
  | Int z => js (DecimalString.NilZero.string_of_int (Z.to_int z))
  end.

End JSNum.

(** ** The document tree

    An element carries its lower-cased tag name, its attributes in source
    order and, for images, the [width] the browser reports. *)
Inductive Node : Type :=
| TextNode (data : jsstring)
| OtherNode
| Element (tagName : jsstring) (attributes : list (jsstring * jsstring))
    (width : Z) (childNodes : list Node).

Module Dom.

Definition tagOf (n : Node) : jsstring :=
  match n with
  | Element t _ _ _ => t
  | _ => []
  end.

Definition childrenOf (n : Node) : list Node :=
  match n with
  | Element _ _ _ cs => cs
  | _ => []
  end.

Definition widthOf (n : Node) : Z :=
  match n with
  | Element _ _ w _ => w
  | _ => 0%Z
  end.

Definition isElement (n : Node) : bool :=
  match n with
  | Element _ _ _ _ => true
  | _ => false
  end.

Definition tag_is (n : Node) (t : string) : bool := str_eqb (tagOf n) (js t).

Definition tag_in (n : Node) (ts : list string) : bool :=
  existsb (tag_is n) ts.

Fixpoint lookup_attr (name : jsstring) (attrs : list (jsstring * jsstring))
    : option jsstring :=
  match attrs with
  | [] => None
  | (k, v) :: rest => if str_eqb k name then Some v else lookup_attr name rest
  end.

(** [element.getAttribute(name)], [None] for [null]. *)
Definition getAttribute (n : Node) (name : string) : option jsstring :=
  match n with
  | Element _ attrs _ _ => lookup_attr (js name) attrs
  | _ => None
  end.

(** [element.getAttribute(name) || ''] *)
Definition attr_or_empty (n : Node) (name : string) : jsstring :=
  match getAttribute n name with
  | Some v => v
  | None => []
  end.

(** [element.className || ''] *)
Definition className (n : Node) : jsstring := attr_or_empty n "class".

(** [node.textContent] *)
Fixpoint textContent (n : Node) : jsstring :=
  match n with
  | TextNode d => d
  | OtherNode => []
  | Element _ _ _ cs => flat_map textContent cs
  end.

(** Every element below [n] in document order, each with the tag names of
    its ancestors, nearest first; [anc] are the ancestors of [n] itself. *)
Fixpoint descendants (anc : list jsstring) (n : Node)
    : list (list jsstring * Node) :=
  match n with
  | Element t _ _ cs =>
      flat_map (fun c =>
        match c with
        | Element _ _ _ _ => (t :: anc, c) :: descendants (t :: anc) c
        | _ => []
        end) cs
  | _ => []
  end.

(** Every node strictly below [n]. *)
Fixpoint subnodes (n : Node) : list Node :=
  match n with
  | Element _ _ _ cs => flat_map (fun c => c :: subnodes c) cs
  | _ => []
  end.

Fixpoint height (n : Node) : nat :=
  match n with
  | Element _ _ _ cs => S (foldr (fun c m => Nat.max (height c) m) 0 cs)
  | _ => 0
  end.

(** [element.querySelectorAll(sel)] and [element.querySelector(sel)] for a
    selector given as a test on a descendant and its ancestors. *)
Definition querySelectorAll (sel : list jsstring -> Node -> bool)
    (anc : list jsstring) (n : Node) : list (list jsstring * Node) :=
  List.filter (fun d => sel (fst d) (snd d)) (descendants anc n).

Definition querySelector (sel : list jsstring -> Node -> bool)
    (anc : list jsstring) (n : Node) : option (list jsstring * Node) :=
  head (querySelectorAll sel anc n).

(** Selectors used by the exporters. *)
Definition sel_tag (t : string) : list jsstring -> Node -> bool :=
  fun _ d => tag_is d t.
Definition sel_tags (ts : list string) : list jsstring -> Node -> bool :=
  fun _ d => tag_in d ts.
(** [anc tag]: a [tag] element with an [anc] ancestor anywhere above it. *)
Definition sel_under (a t : string) : list jsstring -> Node -> bool :=
  fun anc d => tag_is d t && existsb (fun x => str_eqb x (js a)) anc.

(** [:scope > tag] *)
Definition scope_children (t : string) (n : Node) : list Node :=
  List.filter (fun c => isElement c && tag_is c t) (childrenOf n).

(** ASCII white space separating class tokens. *)
Definition is_class_sep (c : N) : bool :=
  ((c =? 9) || (c =? 10) || (c =? 12) || (c =? 13) || (c =? 32))%N.

Fixpoint split_tokens (cur : jsstring) (s : jsstring) : list jsstring :=
  match s with
  | [] => match cur with [] => [] | _ => [cur] end
  | c :: r =>
      if is_class_sep c
      then match cur with
           | [] => split_tokens [] r
           | _ => cur :: split_tokens [] r
           end
      else split_tokens (cur ++ [c]) r
  end.

(** [element.classList.contains(token)] *)
Definition classList_contains (n : Node) (token : string) : bool :=
  existsb (fun t => str_eqb t (js token)) (split_tokens [] (className n)).

End Dom.
Import Dom.

(** ** The structured transducer: [convertElementToMarkdown] and its helpers

    The two Markdown exporters differ only in the image rule: the base64
    variant first looks for a pre-computed [data-base64] attribute. *)
Inductive Variant : Type :=
| PlainMarkdown
| Base64Markdown.

Definition nl2 : jsstring := [NL; NL].

(** [/language-([a-zA-Z0-9]+)/]: first position where the literal is followed
    by at least one alphanumeric unit; the capture is the greedy run. *)
Definition is_alnum (c : N) : bool :=
  (((97 <=? c) && (c <=? 122)) || ((65 <=? c) && (c <=? 90)) ||
   ((48 <=? c) && (c <=? 57)))%N.

Fixpoint language_match (s : jsstring) : option jsstring :=
  match s with
  | [] => None
  | _ :: r =>
      if startsWith s (js "language-")
      then match takeWhile is_alnum (drop 9 s) with
           | [] => language_match r
           | run => Some run
           end
      else language_match r
  end.

(** The class-name signal that marks interactive chrome. *)
Definition suppressed_class (cls : jsstring) : bool :=
  includes cls (js "copy") || includes cls (js "edit") ||
  includes cls (js "regenerate") || includes cls (js "citation-pill").

(** Link rule helpers. *)
Definition unsafe_href (href : jsstring) : bool :=
  let lowerHref := toLowerCase href in
  negb (truthy href) || startsWith lowerHref (js "javascript:") ||
  startsWith lowerHref (js "data:") || startsWith lowerHref (js "vbscript:") ||
  startsWith href (js "#").

Definition safeHref (href : jsstring) : jsstring :=
  replace_all (m_lit [41%N]) (js "%29")
    (replace_all (m_lit [92%N]) (js "%5C") href).

(** Image rule (the [case 'img'] of the switch). *)
Definition convertImage (v : Variant) (cls : jsstring) (element : Node) : jsstring :=
  let src := attr_or_empty element "src" in
  let alt := attr_or_empty element "alt" in
  if includes src (js "favicon") || includes src (js "avatar") ||
     includes cls (js "icon") ||
     (negb (widthOf element =? 0)%Z && (widthOf element <? 48)%Z)
  then []
  else
    let imgAlt :=
      if truthy alt && negb (startsWith alt (js "http")) then alt
      else js "Image" in
    let base64Data :=
      match v with
      | Base64Markdown => attr_or_empty element "data-base64"
      | PlainMarkdown => []
      end in
    if truthy base64Data
    then nl2 ++ js "![" ++ imgAlt ++ js "](" ++ base64Data ++ js ")" ++ nl2
    else
      let imgSrc := if startsWith src (js "blob:") then drop 5 src else src in
      nl2 ++ js "![" ++ imgAlt ++ js "](" ++ imgSrc ++ js ")" ++ nl2.

Section ConverterBody.

(** The recursive calls: [rec anc n] is [convertElementToMarkdown(n)] for a
    node whose ancestors carry the tags [anc]; [recList anc l indent] is
    [convertListToMarkdown(l, indent)]. *)
Variable v : Variant.
Variable rec : list jsstring -> Node -> jsstring.
Variable recList : list jsstring -> Node -> nat -> jsstring.

Definition processChildNodes_body (anc : list jsstring) (element : Node)
    : jsstring :=
  fold_left (fun result child => result ++ rec (tagOf element :: anc) child)
    (childrenOf element) [].

Definition getTextContent_body (anc : list jsstring) (element : Node)
    : jsstring :=
  trim (replace_all (m_run is_nl 1) [SP] (processChildNodes_body anc element)).

(** The text of one table cell. *)
Definition cell_text (cell : list jsstring * Node) : jsstring :=
  trim (replace_all (m_lit [NL]) [SP] (rec (fst cell) (snd cell))).

Definition table_row (cells : list jsstring) : jsstring :=
  js "| " ++ join (js " | ") cells ++ js " |".

Definition convertTableToMarkdown_body (anc : list jsstring) (table : Node)
    : jsstring :=
  let headerRow := querySelector (sel_under "thead" "tr") anc table in
  let bodyRows := querySelectorAll (sel_under "tbody" "tr") anc table in
  let rows0 :=
    match headerRow with
    | Some (hanc, hrow) =>
        let headers :=
          fold_left (fun headers th => headers ++ [cell_text th])
            (querySelectorAll (sel_tag "th") hanc hrow) [] in
        if (0 <? length headers)%nat
        then [table_row headers;
              table_row (map (fun _ => js "---") headers)]
        else []
    | None => []
    end in
  let rows :=
    fold_left (fun rows tr =>
      let cells :=
        fold_left (fun cells cell => cells ++ [cell_text cell])
          (querySelectorAll (sel_tags ["td"; "th"]) (fst tr) (snd tr)) [] in
      if (0 <? length cells)%nat then rows ++ [table_row cells] else rows)
      bodyRows rows0 in
  if (0 <? length rows)%nat then nl2 ++ join [NL] rows ++ nl2 else [].

(** One pass over the child nodes of a list item: the accumulated inline
    text and the accumulated nested-list text. *)
Definition li_child_step (anc : list jsstring) (indent : nat)
    (acc : jsstring * jsstring) (child : Node) : jsstring * jsstring :=
  let '(textContent, nestedLists) := acc in
  match child with
  | Element _ _ _ _ =>
      if tag_is child "ul" || tag_is child "ol"
      then (textContent, nestedLists ++ recList anc child (indent + 1))
      else (textContent ++ rec anc child, nestedLists)
  | TextNode d => (textContent ++ d, nestedLists)
  | OtherNode => (textContent, nestedLists)
  end.

(** One iteration of the [forEach] over the direct items: the state is the
    running item number and the lines pushed so far. *)
Definition li_step (anc : list jsstring) (isOrdered : bool) (indent : nat)
    (st : JSNum.num * list jsstring) (li : Node)
    : JSNum.num * list jsstring :=
  let '(itemNum, items) := st in
  let prefix := if isOrdered then JSNum.to_string itemNum ++ js "." else js "-" in
  let itemNum' := JSNum.incr itemNum in
  let '(textContent, nestedLists) :=
    fold_left (li_child_step (tagOf li :: anc) indent) (childrenOf li) ([], []) in
  let cleanText := trim (replace_all (m_lit [NL]) [SP] textContent) in
  let items1 :=
    if truthy cleanText
    then items ++ [repeat_str (js "  ") indent ++ prefix ++ [SP] ++ cleanText]
    else items in
  let items2 :=
    if truthy nestedLists then items1 ++ [trimEnd nestedLists] else items1 in
  (itemNum', items2).

Definition convertListToMarkdown_body (anc : list jsstring) (list : Node)
    (indent : nat) : jsstring :=
  let isOrdered := tag_is list "ol" in
  let startNum :=
    JSNum.parseInt (or_else (attr_or_empty list "start") (js "1")) in
  let '(_, items) :=
    fold_left (li_step (tagOf list :: anc) isOrdered indent)
      (scope_children "li" list) (startNum, []) in
  join [NL] items.

(** The link rule (the [case 'a'] of the switch). *)
Definition convertAnchor (anc : list jsstring) (element : Node) : jsstring :=
  let href := trim (attr_or_empty element "href") in
  if unsafe_href href
  then processChildNodes_body anc element
  else
    let text := or_else (getTextContent_body anc element) href in
    js "[" ++ escapeMarkdownText text ++ js "](" ++ safeHref href ++ js ")".

Definition heading (level : nat) (anc : list jsstring) (element : Node)
    : jsstring :=
  nl2 ++ repeat_str (js "#") level ++ [SP] ++
  getTextContent_body anc element ++ nl2.

(** The [switch (tagName)] of [convertElementToMarkdown]. *)
Definition dispatch (anc : list jsstring) (element : Node) : jsstring :=
  let cls := className element in
  if tag_is element "h1" then heading 1 anc element
  else if tag_is element "h2" then heading 2 anc element
  else if tag_is element "h3" then heading 3 anc element
  else if tag_is element "h4" then heading 4 anc element
  else if tag_is element "h5" then heading 5 anc element
  else if tag_is element "h6" then heading 6 anc element
  else if tag_is element "p"
    then nl2 ++ processChildNodes_body anc element ++ nl2
  else if tag_in element ["strong"; "b"]
    then js "**" ++ processChildNodes_body anc element ++ js "**"
  else if tag_in element ["em"; "i"]
    then js "*" ++ processChildNodes_body anc element ++ js "*"
  else if tag_is element "code"
    then match anc with
         | parent :: _ =>
             if str_eqb parent (js "pre") then textContent element
             else js "`" ++ textContent element ++ js "`"
         | [] => js "`" ++ textContent element ++ js "`"
         end
  else if tag_is element "pre"
    then
      let codeEl := querySelector (sel_tag "code") anc element in
      let code := textContent element in
      let lang :=
        match codeEl with
        | Some (_, c) =>
            match language_match (className c) with
            | Some l => l
            | None => []
            end
        | None => []
        end in
      nl2 ++ js "```" ++ lang ++ [NL] ++ trim code ++ [NL] ++ js "```" ++ nl2
  else if tag_in element ["ul"; "ol"]
    then nl2 ++ recList anc element 0 ++ nl2
  else if tag_is element "table" then convertTableToMarkdown_body anc element
  else if tag_is element "img" then convertImage v cls element
  else if tag_is element "canvas" then nl2 ++ js "[Canvas Image]" ++ nl2
  else if tag_is element "br" then [NL]
  else if tag_is element "hr" then nl2 ++ js "---" ++ nl2
  else if tag_is element "a" then convertAnchor anc element
  else if tag_is element "blockquote"
    then nl2 ++ js "> " ++
         replace_all (m_lit [NL]) (NL :: js "> ")
           (processChildNodes_body anc element) ++ nl2
  else if tag_in element ["span"; "div"; "article"; "section"; "main";
                          "header"; "footer"; "aside"; "nav"]
    then processChildNodes_body anc element
  else if tag_is element "template" then []
  else processChildNodes_body anc element.

Definition convertElementToMarkdown_body (anc : list jsstring)
    (element : Node) : jsstring :=
  match element with
  | TextNode d => d
  | OtherNode => []
  | Element _ _ _ _ =>
      if tag_is element "button"
      then match querySelector (sel_tag "img") anc element with
           | Some (ianc, img) => rec ianc img
           | None => []
           end
      else if tag_in element ["svg"; "script"; "style"; "noscript"] then []
      else if suppressed_class (className element) then []
      else dispatch anc element
  end.

End ConverterBody.

(** Tying the knot.  The recursion of the source follows the tree, but
    through [querySelector] results, so it is driven by a fuel that the
    entry points set from the height of the tree. *)
Fixpoint convertList_fuel (rec : list jsstring -> Node -> jsstring)
    (fuel : nat) (anc : list jsstring) (list : Node) (indent : nat)
    : jsstring :=
  match fuel with
  | O => []
  | S f => convertListToMarkdown_body rec (convertList_fuel rec f) anc list indent
  end.

Fixpoint convert_fuel (v : Variant) (fuel : nat) (anc : list jsstring)
    (element : Node) : jsstring :=
  match fuel with
  | O => []
  | S f =>
      convertElementToMarkdown_body v (convert_fuel v f)
        (convertList_fuel (convert_fuel v f) (S f)) anc element
  end.

Definition convertElementToMarkdown (v : Variant) (anc : list jsstring)
    (element : Node) : jsstring :=
  convert_fuel v (S (height element)) anc element.

Definition convertListToMarkdown (v : Variant) (anc : list jsstring)
    (list : Node) (indent : nat) : jsstring :=
  convertList_fuel (convertElementToMarkdown v) (S (height list)) anc list indent.

Definition processChildNodes (v : Variant) :=
  processChildNodes_body (convertElementToMarkdown v).
Definition getTextContent (v : Variant) :=
  getTextContent_body (convertElementToMarkdown v).
Definition convertTableToMarkdown (v : Variant) :=
  convertTableToMarkdown_body (convertElementToMarkdown v).

(** ** The message locator: [findMessages]

    The selector engine is external: it hands over, for each selector of
    the cascade, the matching elements in document order.  An element is
    named by its path of child indices from the document root, so that
    identity ([!==]), [Set] membership and [contains] are those of the DOM. *)
Module Locator.

Fixpoint node_at (doc : Node) (p : list nat) : option Node :=
  match p with
  | [] => Some doc
  | i :: p' =>
      match childrenOf doc !! i with
      | Some c => node_at c p'
      | None => None
      end
  end.

(** [other.contains(msg)]: inclusive ancestor. *)
Fixpoint contains (other msg : list nat) : bool :=
  match other, msg with
  | [], _ => true
  | i :: other', j :: msg' => (i =? j)%nat && contains other' msg'
  | _ :: _, [] => false
  end.

Definition same_element (a b : list nat) : bool := bool_decide (a = b).

(** First selector with a non-empty result wins; otherwise the children of
    the conversation container, when there is one. *)
Fixpoint first_nonempty (results : list (list (list nat))) : list (list nat) :=
  match results with
  | [] => []
  | r :: rest => if (0 <? length r)%nat then r else first_nonempty rest
  end.

Definition candidates (results : list (list (list nat)))
    (fallback : option (list (list nat))) : list (list nat) :=
  let messages := first_nonempty results in
  if (length messages =? 0)%nat
  then match fallback with
       | Some l => l
       | None => []
       end
  else messages.

(** [input[type="text"], textarea] *)
Definition sel_text_control : list jsstring -> Node -> bool :=
  fun _ d =>
    (tag_is d "input" &&
     match getAttribute d "type" with
     | Some t => str_eqb (toLowerCase t) (js "text")
     | None => false
     end) || tag_is d "textarea".

Definition has_text_control (msg : Node) : bool :=
  match querySelector sel_text_control [] msg with
  | Some _ => true
  | None => false
  end.

Definition status_class (msg : Node) : bool :=
  classList_contains msg "typing" || classList_contains msg "loading".

(** The filter of the HTML exporter and of the base64 Markdown exporter. *)
Definition valid_b64 (msg : Node) : bool :=
  let text := trim (textContent msg) in
  if (strlen text <? 5)%Z then false
  else if (100000 <? strlen text)%Z then false
  else if has_text_control msg then false
  else if status_class msg then false
  else true.

Definition valid_html : Node -> bool := valid_b64.

(** [s.split(' ').length] *)
Definition split_space_count (s : jsstring) : Z :=
  Z.of_nat (S (length (List.filter (fun c => (c =? SP)%N) s))).

(** The filter of the plain Markdown exporter. *)
Definition valid_md (msg : Node) : bool :=
  let text := trim (textContent msg) in
  if (strlen text <? 30)%Z then false
  else if (100000 <? strlen text)%Z then false
  else if has_text_control msg then false
  else if status_class msg then false
  else
    let meaningfulText := trim (replace_all (m_run isWhiteSpace 1) [SP] text) in
    if (split_space_count meaningfulText <? 5)%Z then false
    else true.

Definition valid_at (valid : Node -> bool) (doc : Node) (p : list nat) : bool :=
  match node_at doc p with
  | Some msg => valid msg
  | None => false
  end.

(** One iteration of the nested-message removal; the state is
    [consolidatedMessages] and [usedElements]. *)
Definition consolidate_step (validMessages : list (list nat))
    (st : list (list nat) * gset (list nat)) (msg : list nat)
    : list (list nat) * gset (list nat) :=
  let '(consolidatedMessages, usedElements) := st in
  if bool_decide (msg ∈ usedElements) then st
  else
    let isNested :=
      existsb (fun other =>
        negb (same_element other msg) && contains other msg &&
        negb (bool_decide (other ∈ usedElements))) validMessages in
    if isNested then st
    else (consolidatedMessages ++ [msg], {[msg]} ∪ usedElements).

Definition consolidate (validMessages : list (list nat)) : list (list nat) :=
  fst (fold_left (consolidate_step validMessages) validMessages ([], ∅)).

Definition findMessages (valid : Node -> bool) (doc : Node)
    (results : list (list (list nat))) (fallback : option (list (list nat)))
    : list (list nat) :=
  consolidate (List.filter (valid_at valid doc) (candidates results fallback)).

Definition findMessages_md := findMessages valid_md.
Definition findMessages_b64 := findMessages valid_b64.
Definition findMessages_html := findMessages valid_html.

End Locator.

(** ** Attribution records, duplicate removal and the correction pass *)
Inductive Sender : Type :=
| You
| ChatGPT.

Definition sender_eqb (a b : Sender) : bool :=
  match a, b with
  | You, You | ChatGPT, ChatGPT => true
  | _, _ => false
  end.

(** What the main loop has computed for one located message element before
    it decides whether to keep it: the attributed sender, the converted
    content, and the raw text of the source element. *)
Record Located : Type := mkLocated {
  l_sender : Sender;
  l_reliable : bool;
  l_replyLabel : option jsstring;
  l_content : jsstring;
  l_textContent : jsstring
}.

(** A record of [processedMessages] in the base64 Markdown exporter. *)
Record Message : Type := mkMessage {
  sender : Sender;
  reliable : bool;
  replyLabel : option jsstring;
  content : jsstring;
  originalIndex : nat
}.

(** A record of [processedMessages] in the plain Markdown exporter and in the
    HTML exporter, which keep no reliability flag. *)
Record PlainMessage : Type := mkPlain {
  p_sender : Sender;
  p_content : jsstring;
  p_originalIndex : nat
}.

Module Assembler.

(** [s.substring(0, 100).replace(/\s+/g, ' ').trim()] *)
Definition contentHash (s : jsstring) : jsstring :=
  trim (replace_all (m_run isWhiteSpace 1) [SP] (substring0 100 s)).

(** [!content || content.trim().length < n] *)
Definition too_short (n : Z) (content : jsstring) : bool :=
  negb (truthy content) || (strlen (trim content) <? n)%Z.

(** Loop body of the base64 Markdown exporter. *)
Definition step_b64 (st : list Message * gset (list N)) (im : nat * Located)
    : list Message * gset (list N) :=
  let '(processedMessages, seenContent) := st in
  let '(index, m) := im in
  if too_short 5 (l_content m) then st
  else
    let hash := contentHash (l_content m) in
    if bool_decide (hash ∈ seenContent) then st
    else (processedMessages ++
            [mkMessage (l_sender m) (l_reliable m) (l_replyLabel m)
               (l_content m) index],
          {[hash]} ∪ seenContent).

Definition dedup_b64 (messages : list Located) : list Message :=
  fst (fold_left step_b64 (imap (fun i m => (i, m)) messages) ([], ∅)).

(** Loop body of the plain Markdown exporter. *)
Definition step_md (st : list PlainMessage * gset (list N)) (im : nat * Located)
    : list PlainMessage * gset (list N) :=
  let '(processedMessages, seenContent) := st in
  let '(index, m) := im in
  if too_short 30 (l_content m) then st
  else
    let hash := contentHash (l_content m) in
    if bool_decide (hash ∈ seenContent) then st
    else (processedMessages ++ [mkPlain (l_sender m) (l_content m) index],
          {[hash]} ∪ seenContent).

Definition dedup_md (messages : list Located) : list PlainMessage :=
  fst (fold_left step_md (imap (fun i m => (i, m)) messages) ([], ∅)).

(** Loop body of the HTML exporter: length test and fingerprint are taken
    from the trimmed raw text of the source element. *)
Definition step_html (st : list PlainMessage * gset (list N)) (im : nat * Located)
    : list PlainMessage * gset (list N) :=
  let '(processedMessages, seenContent) := st in
  let '(index, m) := im in
  let textContent := trim (l_textContent m) in
  if negb (truthy textContent) || (strlen textContent <? 5)%Z then st
  else
    let hash := contentHash textContent in
    if bool_decide (hash ∈ seenContent) then st
    else (processedMessages ++ [mkPlain (l_sender m) (l_content m) index],
          {[hash]} ∪ seenContent).

Definition dedup_html (messages : list Located) : list PlainMessage :=
  fst (fold_left step_html (imap (fun i m => (i, m)) messages) ([], ∅)).

End Assembler.

Module Correction.

Definition flip (s : Sender) : Sender :=
  match s with
  | You => ChatGPT
  | ChatGPT => You
  end.

Definition set_sender (s : Sender) (m : Message) : Message :=
  mkMessage s (reliable m) (replyLabel m) (content m) (originalIndex m).

(** Body of the [for] loop of the base64 Markdown exporter at index [i]. *)
Definition step (processedMessages : list Message) (i : nat) : list Message :=
  match processedMessages !! i, processedMessages !! (i - 1) with
  | Some current, Some previous =>
      if reliable current || reliable previous then processedMessages
      else if sender_eqb (sender current) (sender previous) then
        let currentLength := strlen (content current) in
        let previousLength := strlen (content previous) in
        if (previousLength * 2 <? currentLength)%Z && (500 <? currentLength)%Z
        then <[i := set_sender ChatGPT current]> processedMessages
        else if (currentLength * 2 <? previousLength)%Z &&
                (500 <? previousLength)%Z
        then <[i := set_sender You current]>
               (<[i - 1 := set_sender ChatGPT previous]> processedMessages)
        else <[i := set_sender (flip (sender current)) current]>
               processedMessages
      else processedMessages
  | _, _ => processedMessages
  end.

(** [for (let i = 1; i < processedMessages.length; i++)] *)
Definition pass_from (i : nat) (processedMessages : list Message) : list Message :=
  fold_left step (seq i (length processedMessages - i)) processedMessages.

Definition pass (processedMessages : list Message) : list Message :=
  pass_from 1 processedMessages.

(** The array when the loop reaches index [i]. *)
Definition state_before (i : nat) (processedMessages : list Message)
    : list Message :=
  fold_left step (seq 1 (i - 1)) processedMessages.

(** The same loop in the plain Markdown and HTML exporters: no guard. *)
Definition set_sender_plain (s : Sender) (m : PlainMessage) : PlainMessage :=
  mkPlain s (p_content m) (p_originalIndex m).

Definition step_plain (processedMessages : list PlainMessage) (i : nat)
    : list PlainMessage :=
  match processedMessages !! i, processedMessages !! (i - 1) with
  | Some current, Some previous =>
      if sender_eqb (p_sender current) (p_sender previous) then
        let currentLength := strlen (p_content current) in
        let previousLength := strlen (p_content previous) in
        if (previousLength * 2 <? currentLength)%Z && (500 <? currentLength)%Z
        then <[i := set_sender_plain ChatGPT current]> processedMessages
        else if (currentLength * 2 <? previousLength)%Z &&
                (500 <? previousLength)%Z
        then <[i := set_sender_plain You current]>
               (<[i - 1 := set_sender_plain ChatGPT previous]> processedMessages)
        else <[i := set_sender_plain (flip (p_sender current)) current]>
               processedMessages
      else processedMessages
  | _, _ => processedMessages
  end.

Definition pass_plain (processedMessages : list PlainMessage)
    : list PlainMessage :=
  fold_left step_plain (seq 1 (length processedMessages - 1)) processedMessages.

Definition state_before_plain (i : nat) (processedMessages : list PlainMessage)
    : list PlainMessage :=
  fold_left step_plain (seq 1 (i - 1)) processedMessages.

(** A flagless record seen as an unreliable record, and back. *)
Definition lift (m : PlainMessage) : Message :=
  mkMessage (p_sender m) false None (p_content m) (p_originalIndex m).

Definition forget (m : Message) : PlainMessage :=
  mkPlain (sender m) (content m) (originalIndex m).

End Correction.

(** ** The image embedder: [imageToBase64] and [drawImageToBase64]

    Rasterising is the browser's work; a picture records what the browser
    answers.  The asynchronous part is modelled by the order in which the
    event loop runs the callbacks registered by the promise executor. *)
Module ImageEmbedder.

Record Picture : Type := mkPicture {
  naturalWidth : N;
  naturalHeight : N;
  layoutWidth : N;
  layoutHeight : N;
  draw_throws : bool;              (* getContext / drawImage raises *)
  encoded : option jsstring        (* toDataURL result, None when it raises *)
}.

Record ImgElement : Type := mkImg {
  src_attr : option jsstring;
  complete : bool;
  picture : Picture
}.

(** Completion of a synchronous computation. *)
Inductive Completion (A : Type) : Type :=
| Normal (a : A)
| Throw.
Arguments Normal {A} a.
Arguments Throw {A}.

Definition bind {A B} (c : Completion A) (k : A -> Completion B) : Completion B :=
  match c with
  | Normal a => k a
  | Throw => Throw
  end.

Definition try_catch {A} (body handler : Completion A) : Completion A :=
  match body with
  | Normal a => Normal a
  | Throw => handler
  end.

(** [a || b] on numbers. *)
Definition nz_or (a b : N) : N := if (a =? 0)%N then b else a.

Definition drawImage (img : Picture) : Completion unit :=
  if draw_throws img then Throw else Normal tt.

Definition toDataURL (img : Picture) : Completion jsstring :=
  match encoded img with
  | Some url => Normal url
  | None => Throw
  end.

Definition drawImageToBase64 (img : Picture) : Completion (option jsstring) :=
  try_catch
    (let canvas_width := nz_or (naturalWidth img) (layoutWidth img) in
     let canvas_height := nz_or (naturalHeight img) (layoutHeight img) in
     if (canvas_width =? 0)%N || (canvas_height =? 0)%N then Normal None
     else
       bind (drawImage img) (fun _ =>
       bind (toDataURL img) (fun url => Normal (Some url))))
    (Normal None).

(** State of the promise returned to the caller. *)
Inductive Promise : Type :=
| Pending
| Fulfilled (v : option jsstring)
| Rejected.

(** [resolve(v)]: only the first call settles the promise. *)
Definition resolve (v : option jsstring) (p : Promise) : Promise :=
  match p with
  | Pending => Fulfilled v
  | _ => p
  end.

(** An [async] function that returns or throws. *)
Definition settle (c : Completion (option jsstring)) : Promise :=
  match c with
  | Normal v => Fulfilled v
  | Throw => Rejected
  end.

Inductive Event : Type :=
| LoadDone (loaded : Picture)  (* img.onload *)
| LoadError                    (* img.onerror *)
| TimerFired.                  (* the setTimeout callback *)

Inductive Effect : Type :=
| StartLoad (src : jsstring)   (* img.src = src *)
| SetTimeout (ms : Z).

Definition run_event (p : Promise) (e : Event) : Promise :=
  match e with
  | LoadDone img =>
      match drawImageToBase64 img with
      | Normal v => resolve v p
      | Throw => p
      end
  | LoadError => resolve None p
  | TimerFired => resolve None p
  end.

Definition src_of (imgElement : ImgElement) : jsstring :=
  match src_attr imgElement with
  | Some s => s
  | None => []
  end.

Definition is_ui_image (src : jsstring) : bool :=
  includes src (js "favicon") || includes src (js "avatar").

Definition imageToBase64 (imgElement : ImgElement) (schedule : list Event)
    : list Effect * Promise :=
  let src := src_of imgElement in
  if is_ui_image src then ([], Fulfilled None)
  else if startsWith src (js "blob:") || complete imgElement
  then ([], settle (try_catch (drawImageToBase64 (picture imgElement))
                      (Normal None)))
  else ([StartLoad src; SetTimeout 5000],
        fold_left run_event schedule Pending).

(** The ways in which rasterising a picture yields nothing. *)
Definition zero_area (img : Picture) : Prop :=
  nz_or (naturalWidth img) (layoutWidth img) = 0%N \/
  nz_or (naturalHeight img) (layoutHeight img) = 0%N.

Definition raster_fails (img : Picture) : Prop :=
  zero_area img \/ draw_throws img = true \/ encoded img = None.

End ImageEmbedder.

(** ** The list rule in the words of the specification

    Item [k] (counting from 0) of a list carries the marker [start + k] for
    an ordered list and [-] otherwise; its direct [ul]/[ol] children are
    converted one level deeper and form a block of their own after the
    bullet line, everything else is the inline text of the bullet line. *)
Module ListSpec.

Section Spec.
Variable rec : list jsstring -> Node -> jsstring.
Variable recList : list jsstring -> Node -> nat -> jsstring.

Definition is_nested_list (c : Node) : bool :=
  isElement c && (tag_is c "ul" || tag_is c "ol").

Definition inline_of (anc : list jsstring) (c : Node) : jsstring :=
  match c with
  | Element _ _ _ _ => rec anc c
  | TextNode d => d
  | OtherNode => []
  end.

Definition marker (isOrdered : bool) (start : JSNum.num) (k : nat) : jsstring :=
  if isOrdered then JSNum.to_string (JSNum.add_nat start k) ++ js "."
  else js "-".

Definition indentation (indent : nat) : jsstring :=
  replicate (2 * indent) SP.

Definition item_lines (anc : list jsstring) (isOrdered : bool)
    (start : JSNum.num) (indent : nat) (k : nat) (li : Node)
    : list jsstring :=
  let anc' := tagOf li :: anc in
  let text :=
    trim (replace_all (m_lit [NL]) [SP]
      (concat (map (inline_of anc')
         (List.filter (fun c => negb (is_nested_list c)) (childrenOf li))))) in
  let nested :=
    concat (map (fun c => recList anc' c (indent + 1))
      (List.filter is_nested_list (childrenOf li))) in
  (if truthy text
   then [indentation indent ++ marker isOrdered start k ++ [SP] ++ text]
   else []) ++
  (if truthy nested then [trimEnd nested] else []).

Definition start_number (lst : Node) : JSNum.num :=
  match getAttribute lst "start" with
  | Some (c :: s) => JSNum.parseInt (c :: s)
  | _ => JSNum.Int 1
  end.

Definition list_lines (anc : list jsstring) (lst : Node) (indent : nat)
    : list jsstring :=
  concat (imap (item_lines (tagOf lst :: anc) (tag_is lst "ol")
                  (start_number lst) indent)
            (scope_children "li" lst)).

Definition render (anc : list jsstring) (lst : Node) (indent : nat)
    : jsstring :=
  join [NL] (list_lines anc lst indent).

End Spec.

End ListSpec.

(** ** Notions used to reason about the text clean-up *)
Module Cleanup.

(** The pattern matches nowhere in [s]; [prev] is the unit before [s]. *)
Fixpoint never (m : matcher) (prev : option N) (s : jsstring) : Prop :=
  match s with
  | [] => True
  | c :: r => (m prev s = None \/ m prev s = Some 0) /\ never m (Some c) r
  end.

(** [cap j s]: copy [s], dropping every newline that has at least two
    newlines right before it; [j] counts the newlines just before [s]. *)
Fixpoint cap (j : nat) (s : jsstring) : jsstring :=
  match s with
  | [] => []
  | c :: r =>
      if is_nl c
      then if (j <? 2)%nat then c :: cap (S j) r else cap (S j) r
      else c :: cap 0 r
  end.

(** Length of the run of newlines at the head of [s]. *)
Definition nlrun (s : jsstring) : nat := length (takeWhile is_nl s).

(** No run of newlines in [s] is longer than two, counting [j] newlines
    right before [s]. *)
Fixpoint runs_le2 (j : nat) (s : jsstring) : Prop :=
  match s with
  | [] => True
  | c :: r => if is_nl c then j < 2 /\ runs_le2 (S j) r else runs_le2 0 r
  end.

(** Length of the run of spaces and tabs at the head of [s]. *)
Definition hrun (s : jsstring) : nat := length (takeWhile is_hspace s).

(** No line of [s] consists of spaces and tabs only and is ended by a
    newline. *)
Fixpoint no_blank_line (prev : option N) (s : jsstring) : Prop :=
  match s with
  | [] => True
  | c :: r =>
      (line_start prev = true -> is_hspace c = true ->
       startsWith (dropWhile is_hspace r) [NL] = false) /\
      no_blank_line (Some c) r
  end.

(** The removal of leading blanks, [replace(/^[ \t]+(?!```)/gm, '')], started
    after the unit [prev]. *)
Definition strip (prev : option N) (s : jsstring) : jsstring :=
  replace_from m_indent [] 0 prev s.

End Cleanup.

(** ** The link rule, unit by unit *)

(** A backslash before every backslash and square bracket. *)
Definition escape_unit (x : N) : jsstring :=
  if ((x =? 92) || (x =? 91) || (x =? 93))%N then [92%N; x] else [x].

(** Percent-encoding of backslash and closing parenthesis. *)
Definition percent_unit (x : N) : jsstring :=
  if (x =? 92)%N then js "%5C" else if (x =? 41)%N then js "%29" else [x].

(** ** The common shape of the three duplicate-removal loops *)
Module DedupLoop.

Section Shape.
Context {R : Type}.
Variable body : list R * gset (list N) -> nat * Located -> list R * gset (list N).
Variable fp : Located -> jsstring.
Variable ix : R -> nat.

(** The loop over the messages [l], the first of which has index [k]. *)
Definition run (k : nat) (l : list Located) (st : list R * gset (list N))
    : list R * gset (list N) :=
  fold_left body (imap (fun i m => (k + i, m)) l) st.

(** Every record kept so far stems from an earlier message whose
    fingerprint has been recorded. *)
Definition recorded (msgs : list Located) (k : nat)
    (st : list R * gset (list N)) : Prop :=
  Forall (fun r => ix r < k /\
    exists m, msgs !! ix r = Some m /\ fp m ∈ snd st) (fst st).

Definition dedup (msgs : list Located) : list R :=
  fst (fold_left body (imap (fun i m => (i, m)) msgs) ([], ∅)).

End Shape.

End DedupLoop.

(** ** Sample inputs *)
Module Samples.

Definition el (t : string) (attrs : list (string * string)) (cs : list Node)
    : Node :=
  Element (js t) (map (fun kv => (js (fst kv), js (snd kv))) attrs) 0 cs.

Definition txt (s : string) : Node := TextNode (js s).

(** An assistant turn matched twice, once inside the other. *)
Definition nested_doc : Node :=
  el "main" []
    [el "div" [("data-message-author-role", "assistant")]
       [txt "Here is the outer part of the assistant answer. ";
        el "div" [("data-message-author-role", "assistant")]
          [txt "And this is the inner part of the same answer."]]].

Definition short_message : Node := el "div" [] [txt "hello world"].

(** A record whose content is [n] letters. *)
Definition sample (s : Sender) (r : bool) (n : nat) (ix : nat) : Message :=
  mkMessage s r None (replicate n 97%N) ix.

Definition plain_sample : jsstring :=
  js "a" ++ [NL; NL; NL; NL] ++ js "  - b" ++ [NL] ++ js "  ```  ".

Definition copy_button : Node :=
  el "button" [("class", "copy")]
    [el "span" [] [el "img" [("src", "pic.png"); ("alt", "cat")] []]].

Definition regenerate_div : Node :=
  el "div" [("class", "btn regenerate-response")] [txt "Regenerate"].

Definition edit_link : Node :=
  el "a" [("href", "https://example.org/"); ("class", "edit-link")]
    [txt "click"].

Definition script_link : Node :=
  el "a" [("href", " JavaScript:alert(1)")] [txt "click "; el "b" [] [txt "me"]].

Definition numbered_list : Node :=
  el "ol" [("start", "3")]
    [el "li" [] [txt "one"; el "ul" [] [el "li" [] [txt "sub"]]];
     el "li" [] [txt "two"]].

Definition bare_nested_list : Node :=
  el "ul" [] [el "li" [] [el "ol" [] [el "li" [] [txt "only"]]]].

Definition located (c t : string) : Located :=
  mkLocated You false None (js c) (js t).

(** Two turns that differ only in the label of a button, which the
    conversion removes. *)
Definition twin_turns : list Located :=
  [located "Hello world" "Hello worldCopy";
   located "Hello world" "Hello worldEdit"].

Definition broken_picture : ImageEmbedder.Picture :=
  ImageEmbedder.mkPicture 0 0 0 0 false (Some (js "data:,")).

Definition remote_image : ImageEmbedder.ImgElement :=
  ImageEmbedder.mkImg (Some (js "https://example.org/a.png")) false
    broken_picture.

End Samples.

(** ** Sender attribution and conversation title

    [identifySender] is written three times, once per exporter; the base64
    Markdown exporter returns the sender together with the [reliable]
    flag, the other two the sender alone.  The browser supplies
    [String.prototype.toLowerCase] and the [src] property of an image (the
    attribute resolved against the document URL); both are parameters. *)
Record Attribution : Type := mkAttribution {
  a_sender : Sender;
  a_reliable : bool
}.

Module Attributor.

(** The alternatives of [/^(i understand|i can help|...)/]. *)
Definition assistant_openers : list string :=
  ["i understand"; "i can help"; "here's"; "i'll"; "let me"; "i'd be happy";
   "certainly"; "of course"].

(** The alternatives of [/^(can you|please help|...)/]. *)
Definition user_openers : list string :=
  ["can you"; "please help"; "how do i"; "i need"; "i want"; "help me";
   "could you"].

(** [textStart.match(/^(a|b|...)/)] is not [null]. *)
Definition opens_with (alternatives : list string) (textStart : jsstring)
    : bool :=
  existsb (fun a => startsWith textStart (js a)) alternatives.

(** Titles that [extractConversationTitle] passes over. *)
Definition generic_titles : list string :=
  ["chatgpt"; "new chat"; "untitled"; "chat"].

Section Browser.
Variable lowerCase : jsstring -> jsstring.
Variable srcProperty : Node -> jsstring.

(** Body of the loop over the avatar images. *)
Definition avatar_signal (avatar : Node) : option Sender :=
  let alt := or_else (lowerCase (attr_or_empty avatar "alt")) [] in
  let src := or_else (lowerCase (srcProperty avatar)) [] in
  let classes := or_else (lowerCase (className avatar)) [] in
  if includes alt (js "user") || includes src (js "user") ||
     includes classes (js "user")
  then Some You
  else if includes alt (js "chatgpt") || includes alt (js "assistant") ||
          includes alt (js "gpt") || includes src (js "assistant") ||
          includes src (js "chatgpt") || includes classes (js "assistant")
  then Some ChatGPT
  else None.

Fixpoint first_signal (avatars : list Node) : option Sender :=
  match avatars with
  | [] => None
  | avatar :: rest =>
      match avatar_signal avatar with
      | Some s => Some s
      | None => first_signal rest
      end
  end.

(** [identifySender] of [exporter-markdown.js]; the one of
    [exporter-html.js] is the same function. *)
Definition identifySender_md (messageElement : Node) (index : nat)
    (allMessages : list Node) : Sender :=
  let authorRole := attr_or_empty messageElement "data-message-author-role" in
  if truthy authorRole
  then if str_eqb authorRole (js "user") then You else ChatGPT
  else
    match first_signal
            (map snd (querySelectorAll (sel_tag "img") [] messageElement)) with
    | Some s => s
    | None =>
        let text := lowerCase (textContent messageElement) in
        let textStart := substring0 200 text in
        if opens_with assistant_openers textStart then ChatGPT
        else if opens_with user_openers textStart then You
        else
          let hasCodeBlocks :=
            (0 <? length (querySelectorAll (sel_tags ["pre"; "code"]) []
                            messageElement))%nat in
          let hasLongText := (200 <? strlen (textContent messageElement))%Z in
          let hasLists :=
            (0 <? length (querySelectorAll (sel_tags ["ul"; "ol"; "li"]) []
                            messageElement))%nat in
          if hasCodeBlocks && hasLongText && hasLists then ChatGPT
          else
            let byLength :=
              match index, allMessages !! (index - 1) with
              | S _, Some previous =>
                  let prevText := textContent previous in
                  let currentText := textContent messageElement in
                  if (strlen prevText <? 100)%Z && (300 <? strlen currentText)%Z
                  then Some ChatGPT
                  else if (300 <? strlen prevText)%Z &&
                          (strlen currentText <? 100)%Z
                  then Some You
                  else None
              | _, _ => None
              end in
            match byLength with
            | Some s => s
            | None => if Nat.even index then You else ChatGPT
            end
    end.

Definition identifySender_html := identifySender_md.

(** [identifySender] of the base64 Markdown exporter. *)
Definition identifySender_b64 (messageElement : Node) (index : nat)
    (allMessages : list Node) : Attribution :=
  let authorRole := attr_or_empty messageElement "data-message-author-role" in
  if truthy authorRole
  then mkAttribution (if str_eqb authorRole (js "user") then You else ChatGPT)
         true
  else
    match first_signal
            (map snd (querySelectorAll (sel_tag "img") [] messageElement)) with
    | Some You => mkAttribution You false
    | Some ChatGPT => mkAttribution ChatGPT false
    | None =>
        let text := lowerCase (textContent messageElement) in
        let textStart := substring0 200 text in
        if opens_with assistant_openers textStart
        then mkAttribution ChatGPT false
        else if opens_with user_openers textStart
        then mkAttribution You false
        else
          let hasCodeBlocks :=
            (0 <? length (querySelectorAll (sel_tags ["pre"; "code"]) []
                            messageElement))%nat in
          let hasLongText := (200 <? strlen (textContent messageElement))%Z in
          let hasLists :=
            (0 <? length (querySelectorAll (sel_tags ["ul"; "ol"; "li"]) []
                            messageElement))%nat in
          if hasCodeBlocks && hasLongText && hasLists
          then mkAttribution ChatGPT false
          else
            match index, allMessages !! (index - 1) with
            | S _, Some previous =>
                let prevText := textContent previous in
                let currentText := textContent messageElement in
                if (strlen prevText <? 100)%Z && (300 <? strlen currentText)%Z
                then mkAttribution ChatGPT false
                else if (300 <? strlen prevText)%Z &&
                        (strlen currentText <? 100)%Z
                then mkAttribution You false
                else mkAttribution (if Nat.even index then You else ChatGPT)
                       false
            | _, _ =>
                mkAttribution (if Nat.even index then You else ChatGPT) false
            end
    end.

(** The loop of [extractConversationTitle] over what [document.querySelector]
    finds for each title selector, in order. *)
Fixpoint first_title (found : list (option Node)) (fallback : jsstring)
    : jsstring :=
  match found with
  | [] => fallback
  | element :: rest =>
      match element with
      | Some el =>
          if truthy (trim (textContent el))
          then
            let title := trim (textContent el) in
            if negb (existsb (fun g => str_eqb (lowerCase title) (js g))
                       generic_titles)
            then title
            else first_title rest fallback
          else first_title rest fallback
      | None => first_title rest fallback
      end
  end.

Definition extractConversationTitle_md (found : list (option Node))
    : jsstring :=
  first_title found (js "Conversation with ChatGPT").

Definition extractConversationTitle_b64 (found : list (option Node))
    : jsstring :=
  first_title found (js "Conversation with ChatGPT").

Definition extractConversationTitle_html (found : list (option Node))
    : jsstring :=
  first_title found (js "ChatGPT Conversation").

End Browser.

End Attributor.

(** ** The main loop of the base64 Markdown exporter

    [findReplyLabel] and the awaited [processMessageContent] are
    parameters: what is recorded for [messages[index]], whatever they
    answer. *)
Module MainLoop.

Section Loop.
Variable lowerCase : jsstring -> jsstring.
Variable srcProperty : Node -> jsstring.
Variable findReplyLabel : Node -> option jsstring.
Variable processMessageContent : nat -> Node -> jsstring.

Definition located_b64 (messages : list Node) : list Located :=
  imap (fun index messageElement =>
    let a := Attributor.identifySender_b64 lowerCase srcProperty
               messageElement index messages in
    mkLocated (a_sender a) (a_reliable a) (findReplyLabel messageElement)
      (processMessageContent index messageElement)
      (textContent messageElement)) messages.

(** [processedMessages] when the output is generated. *)
Definition processedMessages_b64 (messages : list Node) : list Message :=
  Correction.pass (Assembler.dedup_b64 (located_b64 messages)).

End Loop.

End MainLoop.

(** ** Output: the Markdown document and the name of the download *)
Module Output.

(** A character class, which matches one code unit. *)
Definition m_class (p : N -> bool) : matcher :=
  fun _ s =>
    match s with
    | c :: _ => if p c then Some 1 else None
    | [] => None
    end.

(** The class of the first replacement of [safeTitle]: less-than,
    greater-than, colon, double quote, slash, backslash, bar, question mark
    and asterisk. *)
Definition is_reserved (c : N) : bool :=
  ((c =? 60) || (c =? 62) || (c =? 58) || (c =? 34) || (c =? 47) ||
   (c =? 92) || (c =? 124) || (c =? 63) || (c =? 42))%N.

(** [document.title] without the reserved characters, white space
    collapsed and trimmed. *)
Definition safeTitle (documentTitle : jsstring) : jsstring :=
  trim (replace_all (m_run isWhiteSpace 1) [SP]
          (replace_all (m_class is_reserved) [] documentTitle)).

(** [a.download] *)
Definition download (extension : string) (documentTitle date : jsstring)
    : jsstring :=
  let safeTitle := safeTitle documentTitle in
  if truthy safeTitle
  then safeTitle ++ js " (" ++ date ++ js ")" ++ js extension
  else js "ChatGPT_Conversation_" ++ date ++ js extension.

Definition download_md := download ".md".
Definition download_html := download ".html".

Definition sender_name (s : Sender) : jsstring :=
  match s with
  | You => js "You"
  | ChatGPT => js "ChatGPT"
  end.

(** The four lines pushed before the messages. *)
Definition header (title date url : jsstring) : list jsstring :=
  [js "# " ++ title ++ [NL];
   js "**Date:** " ++ date;
   js "**Source:** [chat.openai.com](" ++ url ++ js ")" ++ [NL];
   js "---" ++ [NL]].

(** Body of the final [forEach] of [exporter-markdown.js]. *)
Definition push_md (lines : list jsstring) (m : PlainMessage)
    : list jsstring :=
  let lines1 :=
    lines ++ [js "### **" ++ sender_name (p_sender m) ++ js "**" ++ [NL]] in
  let lines2 := lines1 ++ [p_content m] in
  lines2 ++ [[NL] ++ js "---" ++ [NL]].

Definition markdownContent_md (title date url : jsstring)
    (processedMessages : list PlainMessage) : jsstring :=
  join [NL] (fold_left push_md processedMessages (header title date url)).

(** Body of the final [forEach] of the base64 Markdown exporter. *)
Definition push_b64 (lines : list jsstring) (m : Message) : list jsstring :=
  let label :=
    match replyLabel m with
    | Some l => if truthy l then js " (" ++ l ++ js ")" else []
    | None => []
    end in
  let lines1 :=
    lines ++ [js "### **" ++ sender_name (sender m) ++ js "**" ++ label ++ [NL]] in
  let lines2 := lines1 ++ [content m] in
  lines2 ++ [[NL] ++ js "---" ++ [NL]].

Definition markdownContent_b64 (title date url : jsstring)
    (processedMessages : list Message) : jsstring :=
  join [NL] (fold_left push_b64 processedMessages (header title date url)).

End Output.

(** ** Notions used to state what the string normalisations achieve *)
Module Shape.

(** [squeeze p rep inrun s]: copy [s], writing [rep] for every maximal run
    of units that satisfy [p]; [inrun] tells whether the unit before [s]
    belongs to such a run. *)
Fixpoint squeeze (p : N -> bool) (rep : jsstring) (inrun : bool)
    (s : jsstring) : jsstring :=
  match s with
  | [] => []
  | c :: r =>
      if p c
      then if inrun then squeeze p rep true r else rep ++ squeeze p rep true r
      else c :: squeeze p rep false r
  end.

(** Every white-space unit of [s] is a space, and no two of them are
    adjacent; [afterWhite] tells whether the unit before [s] is white
    space. *)
Fixpoint single_spaced (afterWhite : bool) (s : jsstring) : Prop :=
  match s with
  | [] => True
  | c :: r =>
      if isWhiteSpace c
      then c = SP /\ afterWhite = false /\ single_spaced true r
      else single_spaced false r
  end.

(** [s] neither begins nor ends with white space. *)
Definition trimmed (s : jsstring) : Prop :=
  match s with
  | [] => True
  | c :: _ => isWhiteSpace c = false
  end /\
  match last s with
  | None => True
  | Some c => isWhiteSpace c = false
  end.

(** The block that one exported message contributes to the document. *)
Definition block (heading content : jsstring) : jsstring :=
  [NL] ++ js "### **" ++ heading ++ [NL] ++ [NL] ++ content ++ [NL] ++
  [NL] ++ js "---" ++ [NL].

(** No element of the list is, or lies above, one listed before it: the
    order in which [querySelectorAll] lists elements. *)
Fixpoint ancestors_first (l : list (list nat)) : Prop :=
  match l with
  | [] => True
  | a :: r => Forall (fun b => Locator.contains b a = false) r /\
              ancestors_first r
  end.

(** The tags that the switch of [convertElementToMarkdown] treats on their
    own, and the tags skipped before it. *)
Definition handled_tags : list string :=
  ["button"; "svg"; "script"; "style"; "noscript";
   "h1"; "h2"; "h3"; "h4"; "h5"; "h6"; "p"; "strong"; "b"; "em"; "i";
   "code"; "pre"; "ul"; "ol"; "table"; "img"; "canvas"; "br"; "hr"; "a";
   "blockquote"; "template"].

End Shape.

(** ** More sample inputs *)
Module Fixtures.
Import Samples.

Definition dated : jsstring := js "2024-05-17".

Definition alternating : list Message :=
  [sample You false 10 0; sample ChatGPT false 700 1; sample You false 3 2].

Definition alternating_plain : list PlainMessage :=
  [mkPlain You (js "question") 0; mkPlain ChatGPT (js "answer") 1].

Definition underlined : Node := el "u" [] [txt "a"; el "b" [] [txt "c"]].

Definition picture_ok : ImageEmbedder.Picture :=
  ImageEmbedder.mkPicture 2 2 0 0 false (Some (js "data:image/png;base64,AA")).

End Fixtures.

(** * Proofs *)

Module JSFacts.
Import Cleanup.

(** *** Replacement leaves a string alone when the pattern never matches *)

Lemma replace_never (m : matcher) (rep : list N) (s : list N) : forall prev,
  never m prev s -> replace_from m rep 0 prev s = s.
Proof.
  induction s as [|c r IH]; intros prev Hn; simpl; [done|].
  destruct Hn as [[-> | ->] Hr]; by rewrite IH.
Qed.

Lemma startsWith_head (s pat : list N) (p : N) :
  startsWith s (p :: pat) = true -> exists r, s = p :: r.
Proof.
  destruct s as [|c r]; simpl; [done|].
  intros H. apply andb_prop in H as [H _]. apply N.eqb_eq in H. subst. eauto.
Qed.

Lemma never_lit_absent (p : N) (pat : list N) (s : list N) : forall prev,
  p ∉ s -> never (m_lit (p :: pat)) prev s.
Proof.
  induction s as [|c r IH]; intros prev Hp; simpl; [done|].
  split.
  - left. unfold m_lit.
    destruct (startsWith (c :: r) (p :: pat)) eqn:Hs; [|done].
    apply startsWith_head in Hs as [r' Heq]. injection Heq as -> _.
    exfalso. apply Hp. left.
  - apply IH. intros Hin. apply Hp. by right.
Qed.

Lemma replace_lit_absent (p : N) (pat rep s : list N) :
  p ∉ s -> replace_all (m_lit (p :: pat)) rep s = s.
Proof. intros H. apply replace_never. by apply never_lit_absent. Qed.

(** *** The newline collapse as a counter *)

Lemma is_nl_eq c : is_nl c = true -> c = NL.
Proof. unfold is_nl. by intros H%N.eqb_eq. Qed.

Lemma nlrun_cons (c : N) (r : list N) :
  nlrun (c :: r) = if is_nl c then S (nlrun r) else 0.
Proof. unfold nlrun. simpl. by destruct (is_nl c). Qed.

Lemma cap_saturated (s : list N) : forall j j',
  2 <= j -> 2 <= j' -> cap j s = cap j' s.
Proof.
  induction s as [|c r IH]; intros j j' Hj Hj'; simpl; [done|].
  destruct (is_nl c); [|done].
  destruct (Nat.ltb_spec j 2), (Nat.ltb_spec j' 2); try lia.
  apply IH; lia.
Qed.

Lemma m_run_nl3 (prev : option N) (s : list N) :
  m_run is_nl 3 prev s = if (3 <=? nlrun s)%nat then Some (nlrun s) else None.
Proof. done. Qed.

Lemma collapse_cap (s : list N) : forall skip prev j,
  (skip = 0 -> j = 0 \/ j + nlrun s <= 2 \/ nlrun s = 0) ->
  (0 < skip -> skip = nlrun s /\ 2 <= j) ->
  replace_from (m_run is_nl 3) [NL; NL] skip prev s = cap j s.
Proof.
  induction s as [|c r IH]; intros skip prev j H0 Hs; [done|].
  rewrite nlrun_cons in H0, Hs.
  destruct skip as [|k].
  - specialize (H0 eq_refl). clear Hs.
    cbn [replace_from cap]. rewrite m_run_nl3, nlrun_cons.
    destruct (is_nl c) eqn:Hc.
    + destruct (Nat.leb_spec 3 (S (nlrun r))) as [Hlong|Hshort].
      * assert (j = 0) as -> by lia. cbn [Nat.ltb Nat.leb].
        destruct (nlrun r) as [|n] eqn:Hn; [lia|]. rewrite <- Hn in *.
        destruct r as [|c' r']; [done|].
        rewrite nlrun_cons in Hlong.
        destruct (is_nl c') eqn:Hc'; [|lia].
        pose proof (is_nl_eq _ Hc) as ->. pose proof (is_nl_eq _ Hc') as ->.
        rewrite (IH (nlrun (NL :: r')) (Some NL) 2).
        -- cbn [cap app]. rewrite Hc'. cbn [Nat.ltb Nat.leb].
           f_equal. f_equal. apply cap_saturated; lia.
        -- rewrite nlrun_cons, Hc'. lia.
        -- intros _. split; [done|lia].
      * destruct (Nat.ltb_spec j 2); [|lia].
        f_equal. apply IH; [intros _; lia|lia].
    + f_equal. apply IH; [intros _; lia|lia].
  - destruct (Hs ltac:(lia)) as [Hk Hj]. clear H0 Hs.
    cbn [replace_from cap].
    destruct (is_nl c) eqn:Hc; [|done].
    destruct (Nat.ltb_spec j 2); [lia|].
    apply IH.
    + intros ->. right. right. lia.
    + intros Hpos. split; lia.
Qed.

Lemma collapse_is_cap (s : list N) :
  replace_all (m_run is_nl 3) [NL; NL] s = cap 0 s.
Proof. apply collapse_cap; [intros _; by left|lia]. Qed.


(** *** Runs of at most two newlines *)

Lemma runs_le2_cap (s : list N) : forall j, runs_le2 (Nat.min j 2) (cap j s).
Proof.
  induction s as [|c r IH]; intros j; simpl; [done|].
  destruct (is_nl c) eqn:Hc.
  - destruct (Nat.ltb_spec j 2).
    + simpl. rewrite Hc. split; [lia|].
      replace (S (Nat.min j 2)) with (Nat.min (S j) 2) by lia. apply IH.
    + replace (Nat.min j 2) with (Nat.min (S j) 2) by lia. apply IH.
  - simpl. rewrite Hc. apply (IH 0).
Qed.

Lemma runs_le2_mono (s : list N) : forall j j',
  j' <= j -> runs_le2 j s -> runs_le2 j' s.
Proof.
  destruct s as [|c r]; intros j j' Hle; simpl; [done|].
  destruct (is_nl c); [|done]. intros [Hj Hr]. split; [lia|].
  revert Hr. generalize (S j) (S j') (le_n_S _ _ Hle). clear.
  induction r as [|c r IH]; intros j j' Hle; simpl; [done|].
  destruct (is_nl c); [|done]. intros [Hj Hr]. split; [lia|].
  eapply IH; [|exact Hr]. lia.
Qed.

Lemma runs_le2_tail (c : N) (r : list N) (j : nat) :
  runs_le2 j (c :: r) -> runs_le2 0 r.
Proof.
  simpl. destruct (is_nl c); [|done]. intros [_ H].
  eapply runs_le2_mono; [|exact H]. lia.
Qed.

Lemma runs_le2_nlrun (s : list N) : forall j,
  runs_le2 j s -> nlrun s = 0 \/ j + nlrun s <= 2.
Proof.
  induction s as [|c r IH]; intros j; rewrite ?nlrun_cons; simpl.
  { intros _. by left. }
  destruct (is_nl c); [|intros _; by left].
  intros [Hj Hr]. right. apply IH in Hr as [->|Hr]; lia.
Qed.

Lemma never_collapse (s : list N) : forall j prev,
  runs_le2 j s -> never (m_run is_nl 3) prev s.
Proof.
  induction s as [|c r IH]; intros j prev Hr; [done|].
  split.
  - left. rewrite m_run_nl3.
    apply runs_le2_nlrun in Hr as Hn.
    destruct (Nat.leb_spec 3 (nlrun (c :: r))); [lia|done].
  - apply (IH 0). by eapply runs_le2_tail.
Qed.

Lemma runs_le2_dropWhile (p : N -> bool) (s : list N) : forall j,
  runs_le2 j s -> runs_le2 0 (dropWhile p s).
Proof.
  induction s as [|c r IH]; intros j Hr; [done|].
  cbn [dropWhile]. destruct (p c).
  - apply (IH 0). by eapply runs_le2_tail.
  - eapply runs_le2_mono; [|exact Hr]. lia.
Qed.

Lemma runs_le2_prefix (a b : list N) : forall j,
  runs_le2 j (a ++ b) -> runs_le2 j a.
Proof.
  induction a as [|c r IH]; intros j; simpl; [done|].
  destruct (is_nl c); [|apply IH]. intros [Hj Hr]. split; [done|]. by apply IH.
Qed.

(** *** Facts about [trim] *)

Lemma dropWhile_idem (p : N -> bool) (s : list N) :
  dropWhile p (dropWhile p s) = dropWhile p s.
Proof.
  induction s as [|c r IH]; [done|]. cbn [dropWhile].
  destruct (p c) eqn:Hc; [done|]. cbn [dropWhile]. by rewrite Hc.
Qed.

Lemma dropWhile_suffix (p : N -> bool) (s : list N) :
  exists w, s = w ++ dropWhile p s.
Proof.
  induction s as [|c r [w IH]]; [by exists []|]. cbn [dropWhile].
  destruct (p c); [|by exists []]. exists (c :: w). simpl. by f_equal.
Qed.

Lemma dropWhile_snoc (p : N -> bool) (l : list N) (c : N) :
  p c = false -> dropWhile p (l ++ [c]) = dropWhile p l ++ [c].
Proof.
  intros Hc. induction l as [|x l IH]; simpl; [by rewrite Hc|].
  by destruct (p x).
Qed.

Lemma trimEnd_prefix (s : list N) : exists w, s = trimEnd s ++ w.
Proof.
  unfold trimEnd. destruct (dropWhile_suffix isWhiteSpace (rev s)) as [w Hw].
  exists (rev w). rewrite <- rev_app_distr, <- Hw. by rewrite rev_involutive.
Qed.

Lemma trimEnd_cons (c : N) (r : list N) :
  isWhiteSpace c = false -> trimEnd (c :: r) = c :: trimEnd r.
Proof.
  intros Hc. unfold trimEnd. simpl.
  rewrite dropWhile_snoc by done. by rewrite rev_app_distr.
Qed.

Lemma trimEnd_idem (s : list N) : trimEnd (trimEnd s) = trimEnd s.
Proof. unfold trimEnd. by rewrite rev_involutive, dropWhile_idem. Qed.

Lemma trimStart_head (s : list N) :
  trimStart s = [] \/
  exists c r, trimStart s = c :: r /\ isWhiteSpace c = false.
Proof.
  unfold trimStart. induction s as [|c r IH]; [by left|]. cbn [dropWhile].
  destruct (isWhiteSpace c) eqn:Hc; [done|]. right. by exists c, r.
Qed.

Lemma trim_idem (s : list N) : trim (trim s) = trim s.
Proof.
  unfold trim. destruct (trimStart_head s) as [->|(c & r & -> & Hc)]; [done|].
  rewrite trimEnd_cons by done. unfold trimStart at 1. cbn [dropWhile].
  rewrite Hc. by rewrite <- trimEnd_cons, trimEnd_idem.
Qed.

Lemma elem_of_dropWhile (p : N -> bool) (x : N) (s : list N) :
  x ∈ dropWhile p s -> x ∈ s.
Proof.
  destruct (dropWhile_suffix p s) as [w Hw]. intros H.
  rewrite Hw. apply elem_of_app. by right.
Qed.

Lemma elem_of_rev (x : N) (l : list N) : x ∈ rev l <-> x ∈ l.
Proof. by rewrite !list_elem_of_In, <- in_rev. Qed.

Lemma elem_of_trim (x : N) (s : list N) : x ∈ trim s -> x ∈ s.
Proof.
  unfold trim, trimEnd. intros H.
  rewrite elem_of_rev in H. apply elem_of_dropWhile in H.
  rewrite elem_of_rev in H. by apply elem_of_dropWhile in H.
Qed.

Lemma elem_of_cap (x : N) (s : list N) : forall j, x ∈ cap j s -> x ∈ s.
Proof.
  induction s as [|c r IH]; intros j; simpl; [done|].
  destruct (is_nl c); [destruct (j <? 2)%nat|]; rewrite ?elem_of_cons;
    intros H; try destruct H as [->|H]; eauto.
Qed.

Lemma runs_le2_trim (s : list N) (j : nat) : runs_le2 j s -> runs_le2 0 (trim s).
Proof.
  intros H. unfold trim.
  destruct (trimEnd_prefix (trimStart s)) as [w Hw].
  apply (runs_le2_prefix _ w). rewrite <- Hw.
  by eapply runs_le2_dropWhile.
Qed.

End JSFacts.

Module StripFacts.
Import Cleanup JSFacts.

(** *** Skipping a matched text *)

Lemma replace_skip (m : matcher) (rep : list N) (a b : list N) : forall prev,
  replace_from m rep (length a) prev (a ++ b)
  = replace_from m rep 0 (match last a with Some x => Some x | None => prev end) b.
Proof.
  induction a as [|x a IH]; intros prev; [done|].
  cbn [length app replace_from]. rewrite IH.
  rewrite last_cons. by destruct (last a).
Qed.

Lemma hspace_not_terminator (h : N) :
  is_hspace h = true -> isLineTerminator h = false.
Proof.
  unfold is_hspace. intros [H|H]%orb_prop; apply N.eqb_eq in H; by subst.
Qed.

Lemma hspace_not_fence (h : N) (r : list N) :
  is_hspace h = true -> startsWith (h :: r) fence = false.
Proof.
  unfold is_hspace. intros [H|H]%orb_prop; apply N.eqb_eq in H; by subst.
Qed.

Lemma hspace_not_nl (h : N) : is_hspace h = true -> is_nl h = false.
Proof.
  unfold is_hspace. intros [H|H]%orb_prop; apply N.eqb_eq in H; by subst.
Qed.

Lemma hrun_cons (c : N) (r : list N) :
  hrun (c :: r) = if is_hspace c then S (hrun r) else 0.
Proof. unfold hrun. simpl. by destruct (is_hspace c). Qed.

Lemma hrun_app (a rest : list N) :
  Forall (fun x => is_hspace x = true) a -> hrun rest = 0 ->
  hrun (a ++ rest) = length a.
Proof.
  intros Ha Hr. induction Ha as [|x a Hx Ha IH]; [done|].
  simpl. rewrite hrun_cons, Hx. by rewrite IH.
Qed.

(** A string that begins with a blank is a run of blanks, its last blank,
    and a rest that does not begin with a blank. *)
Lemma blank_run_split (c : N) (r : list N) :
  is_hspace c = true ->
  exists a h rest,
    c :: r = a ++ h :: rest /\
    Forall (fun x => is_hspace x = true) (a ++ [h]) /\
    hrun rest = 0 /\ rest = dropWhile is_hspace r.
Proof.
  revert c. induction r as [|x r IH]; intros c Hc.
  { exists [], c, []. repeat split; try done. by constructor. }
  destruct (is_hspace x) eqn:Hx.
  - destruct (IH x Hx) as (a & h & rest & Heq & Hall & Hrun & Hrest).
    exists (c :: a), h, rest.
    split; [by rewrite Heq|]. split; [by constructor|]. split; [done|].
    cbn [dropWhile]. by rewrite Hx.
  - exists [], c, (x :: r).
    split; [done|]. split; [by repeat constructor|].
    split; [by rewrite hrun_cons, Hx|].
    cbn [dropWhile]. by rewrite Hx.
Qed.

(** *** What the backtracking finds *)

Lemma backtrack_plain (a : list N) (h : N) (rest : list N) :
  startsWith rest fence = false ->
  backtrack (length (a ++ [h])) (a ++ h :: rest) = Some (length (a ++ [h])).
Proof.
  intros Hf. rewrite length_app. cbn [length]. rewrite Nat.add_1_r.
  cbn [backtrack].
  replace (drop (S (length a)) (a ++ h :: rest)) with rest; [by rewrite Hf|].
  replace (a ++ h :: rest) with ((a ++ [h]) ++ rest) by (by rewrite <- app_assoc).
  rewrite drop_app_length'; [done|]. rewrite length_app. simpl. lia.
Qed.

Lemma backtrack_fenced (a : list N) (h : N) (rest : list N) :
  is_hspace h = true -> startsWith rest fence = true ->
  backtrack (length (a ++ [h])) (a ++ h :: rest)
  = match a with [] => None | _ :: _ => Some (length a) end.
Proof.
  intros Hh Hf. rewrite length_app. cbn [length]. rewrite Nat.add_1_r.
  cbn [backtrack].
  replace (drop (S (length a)) (a ++ h :: rest)) with rest.
  2:{ replace (a ++ h :: rest) with ((a ++ [h]) ++ rest)
        by (by rewrite <- app_assoc).
      rewrite drop_app_length'; [done|]. rewrite length_app. simpl. lia. }
  rewrite Hf. destruct a as [|x a']; [done|].
  cbn [length backtrack].
  replace (drop (S (length a')) ((x :: a') ++ h :: rest)) with (h :: rest).
  2:{ by rewrite drop_app_length'. }
  by rewrite hspace_not_fence.
Qed.

(** *** How [strip] proceeds *)

Lemma strip_copy (prev : option N) (c : N) (r : list N) :
  line_start prev = false \/ is_hspace c = false ->
  strip prev (c :: r) = c :: strip (Some c) r.
Proof.
  intros H. unfold strip. cbn [replace_from]. unfold m_indent.
  destruct (line_start prev); [|done].
  destruct H as [H|H]; [done|]. fold (hrun (c :: r)).
  by rewrite hrun_cons, H.
Qed.

Lemma strip_run (prev : option N) (a : list N) (h : N) (rest : list N) :
  line_start prev = true ->
  Forall (fun x => is_hspace x = true) (a ++ [h]) -> hrun rest = 0 ->
  strip prev (a ++ h :: rest)
  = (if startsWith rest fence then [h] else []) ++ strip (Some h) rest.
Proof.
  intros Hls Hall Hrest.
  assert (Hh : is_hspace h = true).
  { rewrite Forall_app in Hall. destruct Hall as [_ Hh]. by inversion Hh. }
  assert (Hrun : hrun (a ++ h :: rest) = length (a ++ [h])).
  { replace (a ++ h :: rest) with ((a ++ [h]) ++ rest)
      by (by rewrite <- app_assoc). by apply hrun_app. }
  unfold strip.
  destruct a as [|c a'].
  - cbn [app replace_from]. unfold m_indent. rewrite Hls.
    fold (hrun (h :: rest)). cbn [app] in Hrun. rewrite Hrun.
    destruct (startsWith rest fence) eqn:Hf.
    + pose proof (backtrack_fenced [] h rest Hh Hf) as Hb.
      cbn [app] in Hb. rewrite Hb. done.
    + pose proof (backtrack_plain [] h rest Hf) as Hb.
      cbn [app] in Hb. rewrite Hb. done.
  - cbn [app replace_from]. unfold m_indent at 1. rewrite Hls.
    fold (hrun (c :: a' ++ h :: rest)).
    change (c :: a' ++ h :: rest) with ((c :: a') ++ h :: rest).
    rewrite Hrun.
    destruct (startsWith rest fence) eqn:Hf.
    + rewrite (backtrack_fenced (c :: a') h rest Hh Hf). cbn [length app].
      rewrite (replace_skip m_indent [] a' (h :: rest)).
      set (p := match last a' with Some x => Some x | None => Some c end).
      assert (Hp : line_start p = false).
      { subst p. rewrite Forall_app in Hall. destruct Hall as [Hall _].
        inversion Hall as [|? ? Hc Ha']; subst.
        destruct (last a') as [x|] eqn:Hl; simpl.
        - apply hspace_not_terminator. rewrite Forall_forall in Ha'.
          apply Ha'. apply last_Some in Hl as [l' ->].
          apply elem_of_app. right. left.
        - by apply hspace_not_terminator. }
      cbn [replace_from]. unfold m_indent at 1. by rewrite Hp.
    + rewrite (backtrack_plain (c :: a') h rest Hf).
      rewrite length_app. cbn [length]. rewrite Nat.add_1_r. cbn [app].
      replace (a' ++ h :: rest) with ((a' ++ [h]) ++ rest)
        by (by rewrite <- app_assoc).
      replace (S (length a')) with (length (a' ++ [h]))
        by (rewrite length_app; simpl; lia).
      rewrite replace_skip. by rewrite last_snoc.
Qed.


(** Reasoning by cases on what [strip] does at the head of its input. *)
Lemma strip_cases (P : option N -> list N -> list N -> Prop) :
  (forall prev, P prev [] []) ->
  (forall prev c r,
     line_start prev = false \/ is_hspace c = false ->
     P (Some c) r (strip (Some c) r) ->
     P prev (c :: r) (c :: strip (Some c) r)) ->
  (forall prev a h rest,
     line_start prev = true ->
     Forall (fun x => is_hspace x = true) (a ++ [h]) -> hrun rest = 0 ->
     P (Some h) rest (strip (Some h) rest) ->
     P prev (a ++ h :: rest)
       ((if startsWith rest fence then [h] else []) ++ strip (Some h) rest)) ->
  forall prev s, P prev s (strip prev s).
Proof.
  intros Hnil Hcopy Hrun prev s.
  remember (length s) as n eqn:Hn. revert prev s Hn.
  induction n as [n IH] using lt_wf_ind. intros prev s Hn.
  destruct s as [|c r]; [apply Hnil|].
  destruct (line_start prev) eqn:Hls; [destruct (is_hspace c) eqn:Hc|].
  - destruct (blank_run_split c r Hc) as (a & h & rest & Heq & Hall & Hr & _).
    rewrite Heq, strip_run by done. apply Hrun; try done.
    apply (IH (length rest)); [|done].
    subst n. rewrite Heq, length_app. simpl. lia.
  - rewrite strip_copy by (by right). apply Hcopy; [by right|].
    apply (IH (length r)); [subst n; simpl; lia|done].
  - rewrite strip_copy by (by left). apply Hcopy; [by left|].
    apply (IH (length r)); [subst n; simpl; lia|done].
Qed.

Lemma elem_of_strip (x : N) (prev : option N) (s : list N) :
  x ∈ strip prev s -> x ∈ s.
Proof.
  revert prev s. apply (strip_cases (fun _ s out => x ∈ out -> x ∈ s)).
  - done.
  - intros prev c r _ IH [->|H]%elem_of_cons; [left|right; auto].
  - intros prev a h rest _ _ _ IH H. apply elem_of_app. right.
    apply elem_of_app in H as [H|H].
    + destruct (startsWith rest fence); [|by apply elem_of_nil in H].
      apply list_elem_of_singleton in H as ->. left.
    + right. auto.
Qed.

(** *** [strip] makes no new run of newlines when no line is blank *)

Lemma runs_le2_blanks (a : list N) (rest : list N) (j : nat) :
  Forall (fun x => is_hspace x = true) a -> a <> [] ->
  runs_le2 j (a ++ rest) <-> runs_le2 0 rest.
Proof.
  intros Ha. revert j. induction Ha as [|x a Hx Ha IH]; intros j Hne; [done|].
  simpl. rewrite (hspace_not_nl x Hx).
  destruct a as [|y a']; [done|]. by apply IH.
Qed.

Lemma runs_le2_reset (u : list N) (j : nat) :
  startsWith u [NL] = false -> runs_le2 0 u -> runs_le2 j u.
Proof.
  destruct u as [|x u]; [done|]. simpl. rewrite andb_true_r.
  unfold is_nl. by intros ->.
Qed.

Lemma strip_head (p : option N) (rest : list N) :
  hrun rest = 0 ->
  startsWith (strip p rest) [NL] = startsWith rest [NL].
Proof.
  destruct rest as [|x r]; [done|]. rewrite hrun_cons.
  destruct (is_hspace x) eqn:Hx; [done|]. intros _.
  by rewrite strip_copy by (by right).
Qed.

Lemma no_blank_line_drop (a b : list N) : forall prev,
  no_blank_line prev (a ++ b) ->
  no_blank_line (match last a with Some x => Some x | None => prev end) b.
Proof.
  induction a as [|x a IH]; intros prev H; [done|].
  destruct H as [_ H]. apply IH in H. rewrite last_cons. by destruct (last a).
Qed.

Lemma dropWhile_blanks (a rest : list N) :
  Forall (fun x => is_hspace x = true) a -> hrun rest = 0 ->
  dropWhile is_hspace (a ++ rest) = rest.
Proof.
  intros Ha Hr. induction Ha as [|x a Hx Ha IH]; simpl.
  - destruct rest as [|y r]; [done|]. rewrite hrun_cons in Hr. simpl.
    by destruct (is_hspace y).
  - by rewrite Hx.
Qed.

Lemma runs_le2_strip (prev : option N) (s : list N) :
  forall j, runs_le2 j s -> no_blank_line prev s -> runs_le2 j (strip prev s).
Proof.
  revert prev s.
  apply (strip_cases (fun prev s out =>
    forall j, runs_le2 j s -> no_blank_line prev s -> runs_le2 j out)).
  - done.
  - intros prev c r _ IH j Hr [_ Hb]. simpl in *.
    destruct (is_nl c); [destruct Hr; split|]; auto.
  - intros prev a h rest Hls Hall Hrest IH j Hr Hb.
    assert (Hh : is_hspace h = true).
    { rewrite Forall_app in Hall. destruct Hall as [_ Hh]. by inversion Hh. }
    replace (a ++ h :: rest) with ((a ++ [h]) ++ rest) in Hr, Hb
      by (by rewrite <- app_assoc).
    apply runs_le2_blanks in Hr; [|done|by destruct a].
    assert (Hb' := no_blank_line_drop _ _ _ Hb). rewrite last_snoc in Hb'.
    specialize (IH 0 Hr Hb').
    destruct (startsWith rest fence) eqn:Hf.
    + simpl. by rewrite (hspace_not_nl h Hh).
    + simpl. apply runs_le2_reset; [|done]. rewrite strip_head by done.
      destruct a as [|c a'].
      * destruct Hb as [Hb _]. specialize (Hb Hls Hh).
        rewrite (dropWhile_blanks [] rest) in Hb by done. done.
      * destruct Hb as [Hb _]. rewrite Forall_app in Hall.
        destruct Hall as [Hall _]. inversion Hall as [|? ? Hc Ha']; subst.
        specialize (Hb Hls Hc).
        replace (a' ++ [h] ++ rest) with ((a' ++ [h]) ++ rest) in Hb
          by (by rewrite <- app_assoc).
        rewrite dropWhile_blanks in Hb; try done.
        apply Forall_app. split; [done|by repeat constructor].
Qed.

(** *** What [strip] leaves is left alone by [strip] *)

Lemma never_indent_head (p p' : option N) (u : list N) :
  hrun u = 0 -> never m_indent p u -> never m_indent p' u.
Proof.
  destruct u as [|x u]; [done|]. rewrite hrun_cons.
  destruct (is_hspace x) eqn:Hx; [done|]. intros _ [_ H]. split; [|done].
  left. unfold m_indent. destruct (line_start p'); [|done].
  fold (hrun (x :: u)). by rewrite hrun_cons, Hx.
Qed.

Lemma strip_hrun (p : option N) (rest : list N) :
  hrun rest = 0 -> hrun (strip p rest) = 0.
Proof.
  destruct rest as [|x r]; [done|]. rewrite hrun_cons.
  destruct (is_hspace x) eqn:Hx; [done|]. intros _.
  rewrite strip_copy by (by right). by rewrite hrun_cons, Hx.
Qed.

Lemma strip_fence (p : option N) (rest : list N) :
  startsWith rest fence = true -> startsWith (strip p rest) fence = true.
Proof.
  unfold fence. destruct rest as [|x1 [|x2 [|x3 r]]]; simpl;
    rewrite ?andb_false_r; try done.
  intros H. apply andb_prop in H as [H1 H]. apply andb_prop in H as [H2 H].
  apply andb_prop in H as [H3 _].
  apply N.eqb_eq in H1, H2, H3. subst.
  rewrite !strip_copy by (by right). done.
Qed.

Lemma never_indent_strip (prev : option N) (s : list N) :
  never m_indent prev (strip prev s).
Proof.
  revert prev s. apply (strip_cases (fun prev _ out => never m_indent prev out)).
  - done.
  - intros prev c r Hc IH. split; [|done]. left. unfold m_indent.
    destruct (line_start prev); [|done]. destruct Hc as [Hc|Hc]; [done|].
    fold (hrun (c :: strip (Some c) r)). by rewrite hrun_cons, Hc.
  - intros prev a h rest Hls Hall Hrest IH.
    assert (Hh : is_hspace h = true).
    { rewrite Forall_app in Hall. destruct Hall as [_ Hh]. by inversion Hh. }
    destruct (startsWith rest fence) eqn:Hf.
    + cbn [app]. split; [|done]. left. unfold m_indent. rewrite Hls.
      fold (hrun (h :: strip (Some h) rest)).
      rewrite hrun_cons, Hh, strip_hrun by done. cbn [backtrack skipn].
      rewrite drop_0. by rewrite strip_fence.
    + cbn [app]. eapply never_indent_head; [|exact IH]. by apply strip_hrun.
Qed.

(** *** The newline collapse keeps lines non-blank *)

Lemma cap_blank_head (r : list N) :
  startsWith (dropWhile is_hspace (cap 0 r)) [NL]
  = startsWith (dropWhile is_hspace r) [NL].
Proof.
  induction r as [|x r IH]; [done|]. cbn [cap].
  destruct (is_nl x) eqn:Hnl.
  - cbn [Nat.ltb Nat.leb dropWhile]. apply is_nl_eq in Hnl as ->. done.
  - cbn [dropWhile]. by destruct (is_hspace x).
Qed.

Lemma no_blank_line_cap (s : list N) : forall j prev prev',
  (line_start prev' = true -> line_start prev = true) ->
  no_blank_line prev s -> no_blank_line prev' (cap j s).
Proof.
  induction s as [|c r IH]; intros j prev prev' Hp H; [done|].
  destruct H as [Hc Hr]. cbn [cap].
  destruct (is_nl c) eqn:Hnl; [destruct (j <? 2)%nat|].
  - split; [|by apply (IH _ (Some c))]. intros _ Hh.
    apply is_nl_eq in Hnl as ->. done.
  - apply (IH _ (Some c)); [|done]. intros _.
    apply is_nl_eq in Hnl as ->. done.
  - split; [|by apply (IH _ (Some c))]. intros Hls Hh.
    rewrite cap_blank_head. auto.
Qed.

(** *** Trimming keeps a text that [strip] leaves alone *)

Lemma never_indent_dropWhile (s : list N) : forall prev prev',
  never m_indent prev s -> never m_indent prev' (dropWhile isWhiteSpace s).
Proof.
  induction s as [|c r IH]; intros prev prev' H; [done|].
  destruct H as [_ Hr]. cbn [dropWhile].
  destruct (isWhiteSpace c) eqn:Hw; [by eapply IH|].
  split; [|done]. left. unfold m_indent. destruct (line_start prev'); [|done].
  fold (hrun (c :: r)). rewrite hrun_cons.
  assert (is_hspace c = false) as ->; [|done].
  unfold isWhiteSpace, is_hspace in *.
  repeat (apply orb_false_elim in Hw as [Hw ?]).
  by apply orb_false_intro.
Qed.

Lemma backtrack_none (k : nat) (s : list N) :
  backtrack k s = None <->
  forall j, 1 <= j <= k -> startsWith (drop j s) fence = true.
Proof.
  induction k as [|k IH]; cbn [backtrack].
  - split; [intros _ j Hj; lia|done].
  - destruct (startsWith (drop (S k) s) fence) eqn:Hf.
    + rewrite IH. split; intros H j Hj.
      * destruct (decide (j = S k)) as [->|]; [done|]. apply H. lia.
      * apply H. lia.
    + split; [done|]. intros H. rewrite H in Hf by lia. done.
Qed.

Lemma backtrack_positive (k : nat) (s : list N) : backtrack k s <> Some 0.
Proof.
  induction k as [|k IH]; cbn [backtrack]; [done|].
  by destruct (startsWith _ _).
Qed.

Lemma startsWith_cons (c p : N) (s pat : list N) :
  startsWith (c :: s) (p :: pat) = (c =? p)%N && startsWith s pat.
Proof. done. Qed.

Lemma startsWith_white (w pat : list N) :
  Forall (fun c => isWhiteSpace c = true) w ->
  startsWith w (96%N :: pat) = false.
Proof.
  intros Hall. destruct w as [|c w']; [done|]. rewrite startsWith_cons.
  inversion Hall as [|? ? Hc _]; subst.
  by destruct (N.eqb_spec c 96) as [->|].
Qed.

Lemma startsWith_fence_white (x w : list N) :
  Forall (fun c => isWhiteSpace c = true) w ->
  startsWith (x ++ w) fence = true -> startsWith x fence = true.
Proof.
  intros Hw. unfold fence.
  destruct x as [|x1 [|x2 [|x3 x]]]; cbn [app]; rewrite ?startsWith_cons.
  - by rewrite startsWith_white.
  - rewrite startsWith_white by done. by rewrite andb_false_r.
  - rewrite startsWith_white by done. by rewrite !andb_false_r.
  - done.
Qed.

Lemma hrun_prefix (a w : list N) : hrun a <= hrun (a ++ w).
Proof.
  induction a as [|x a IH]; [simpl; unfold hrun at 1; simpl; lia|].
  cbn [app]. rewrite !hrun_cons. destruct (is_hspace x); lia.
Qed.

Lemma hrun_le_length (a : list N) : hrun a <= length a.
Proof.
  induction a as [|x a IH]; [done|]. rewrite hrun_cons. simpl.
  destruct (is_hspace x); lia.
Qed.

Lemma never_indent_prefix (a w : list N) : forall prev,
  Forall (fun c => isWhiteSpace c = true) w ->
  never m_indent prev (a ++ w) -> never m_indent prev a.
Proof.
  induction a as [|c a IH]; intros prev Hw H; [done|].
  cbn [app] in H. destruct H as [Hm Hr]. split; [|by apply IH].
  left. unfold m_indent in *. destruct (line_start prev); [|done].
  fold (hrun (c :: a ++ w)) in Hm. fold (hrun (c :: a)).
  destruct Hm as [Hm|Hm]; [|by apply backtrack_positive in Hm].
  rewrite backtrack_none in Hm. apply backtrack_none. intros j Hj.
  pose proof (hrun_prefix (c :: a) w). pose proof (hrun_le_length (c :: a)).
  apply (startsWith_fence_white _ w Hw).
  rewrite <- drop_app_le by lia. apply Hm. cbn [app] in *. lia.
Qed.

Lemma dropWhile_all (p : N -> bool) (s : list N) :
  exists w, s = w ++ dropWhile p s /\ Forall (fun c => p c = true) w.
Proof.
  induction s as [|c r (w & IH & Hw)]; [by exists []|]. cbn [dropWhile].
  destruct (p c) eqn:Hc; [|by exists []].
  exists (c :: w). split; [simpl; by f_equal|by constructor].
Qed.

Lemma trimEnd_white (s : list N) :
  exists w, s = trimEnd s ++ w /\ Forall (fun c => isWhiteSpace c = true) w.
Proof.
  unfold trimEnd. destruct (dropWhile_all isWhiteSpace (rev s)) as (w & Hw & Hall).
  exists (rev w). split.
  - rewrite <- rev_app_distr, <- Hw. by rewrite rev_involutive.
  - apply Forall_forall. intros x Hx. rewrite elem_of_rev in Hx.
    rewrite Forall_forall in Hall. by apply Hall.
Qed.

Lemma never_indent_trim (s : list N) (prev : option N) :
  never m_indent prev s -> never m_indent None (trim s).
Proof.
  intros H. unfold trim.
  destruct (trimEnd_white (trimStart s)) as (w & Hw & Hall).
  apply (never_indent_prefix _ w); [done|]. rewrite <- Hw.
  by eapply never_indent_dropWhile.
Qed.

End StripFacts.

Module CleanupTheorems.
Import Cleanup JSFacts StripFacts Samples.

Lemma entities_absent (u : list N) :
  38%N ∉ u ->
  replace_all (m_lit (js "&quot;")) [34%N]
    (replace_all (m_lit (js "&nbsp;")) (js " ")
      (replace_all (m_lit (js "&amp;")) (js "&")
        (replace_all (m_lit (js "&gt;")) (js ">")
          (replace_all (m_lit (js "&lt;")) (js "<") u)))) = u.
Proof.
  intros H.
  change (js "&lt;") with (38%N :: js "lt;").
  change (js "&gt;") with (38%N :: js "gt;").
  change (js "&amp;") with (38%N :: js "amp;").
  change (js "&nbsp;") with (38%N :: js "nbsp;").
  change (js "&quot;") with (38%N :: js "quot;").
  rewrite (replace_lit_absent 38 (js "lt;") _ u) by done.
  rewrite (replace_lit_absent 38 (js "gt;") _ u) by done.
  rewrite (replace_lit_absent 38 (js "amp;") _ u) by done.
  rewrite (replace_lit_absent 38 (js "nbsp;") _ u) by done.
  by rewrite (replace_lit_absent 38 (js "quot;") _ u).
Qed.

(** Without ampersands the clean-up is the newline collapse, the removal
    of leading blanks and the trim. *)
Lemma cleanMarkdown_without_entities (s : list N) :
  38%N ∉ s -> cleanMarkdown s = trim (strip None (cap 0 s)).
Proof.
  intros Hamp. unfold cleanMarkdown.
  rewrite collapse_is_cap.
  by rewrite entities_absent by (intros H; by apply elem_of_cap in H).
Qed.

Lemma cap_fixed (u : list N) : runs_le2 0 u -> cap 0 u = u.
Proof.
  intros H. rewrite <- collapse_is_cap. apply replace_never.
  by eapply never_collapse.
Qed.

Lemma strip_fixed (u : list N) : never m_indent None u -> strip None u = u.
Proof. apply replace_never. Qed.

(** C3, as amended.  On a text that contains no ampersand and no line made
    of spaces and tabs only, cleaning twice gives what cleaning once
    gives. *)
Theorem cleanMarkdown_idempotent_on_plain_text (s : list N) :
  38%N ∉ s -> no_blank_line None s ->
  cleanMarkdown (cleanMarkdown s) = cleanMarkdown s.
Proof.
  intros Hamp Hblank.
  rewrite (cleanMarkdown_without_entities s) by done.
  set (u := strip None (cap 0 s)).
  assert (Hruns : runs_le2 0 (trim u)).
  { eapply runs_le2_trim. apply runs_le2_strip.
    - apply (runs_le2_cap s 0).
    - by apply (no_blank_line_cap s 0 None None). }
  assert (Hstable : never m_indent None (trim u)).
  { eapply never_indent_trim. apply never_indent_strip. }
  rewrite cleanMarkdown_without_entities.
  - rewrite cap_fixed, strip_fixed by done. apply trim_idem.
  - intros H. by apply elem_of_trim, elem_of_strip, elem_of_cap in H.
Qed.

Lemma cleanMarkdown_idempotent_on_plain_text_witness :
  (38%N ∉ plain_sample) /\ no_blank_line None plain_sample /\
  cleanMarkdown (cleanMarkdown plain_sample) = cleanMarkdown plain_sample.
Proof.
  assert (Ha : 38%N ∉ plain_sample).
  { intros H. vm_compute in H.
    repeat (apply elem_of_cons in H as [H|H]; [discriminate H|]).
    by apply elem_of_nil in H. }
  assert (Hi : no_blank_line None plain_sample).
  { vm_compute. repeat split; intros; try reflexivity; discriminate. }
  split; [exact Ha|]. split; [exact Hi|].
  exact (cleanMarkdown_idempotent_on_plain_text plain_sample Ha Hi).
Defined.

(** C3 as stated fails: un-escaping [&amp;] produces the beginning of a new
    entity, which only a second run un-escapes; and stripping a line of
    blanks joins two runs of newlines, which only a second run collapses. *)
Lemma cleanMarkdown_not_idempotent :
  cleanMarkdown (js "&amp;lt;") = js "&lt;" /\
  cleanMarkdown (cleanMarkdown (js "&amp;lt;")) = js "<" /\
  cleanMarkdown (js "a" ++ [NL; NL; SP; NL] ++ js "b")
    = js "a" ++ [NL; NL; NL] ++ js "b" /\
  cleanMarkdown (cleanMarkdown (js "a" ++ [NL; NL; SP; NL] ++ js "b"))
    = js "a" ++ [NL; NL] ++ js "b".
Proof. vm_compute. repeat split; reflexivity. Qed.

End CleanupTheorems.

Module TreeFacts.

Lemma Node_ind_forall (P : Node -> Prop) :
  (forall d, P (TextNode d)) -> P OtherNode ->
  (forall t a w cs, Forall P cs -> P (Element t a w cs)) ->
  forall n, P n.
Proof.
  intros Ht Ho He. fix IH 1. intros [d| |t a w cs]; [apply Ht|apply Ho|].
  apply He. induction cs as [|c cs IHcs]; constructor; [apply IH|apply IHcs].
Qed.

Lemma elem_of_flat_map {A B} (f : A -> list B) (l : list A) (y : B) :
  y ∈ flat_map f l <-> exists x, x ∈ l /\ y ∈ f x.
Proof.
  rewrite list_elem_of_In, in_flat_map. split; intros (x & H1 & H2); exists x.
  - by rewrite !list_elem_of_In.
  - by rewrite <- !list_elem_of_In.
Qed.

Lemma elem_of_filter_list {A} (p : A -> bool) (l : list A) (x : A) :
  x ∈ List.filter p l <-> x ∈ l /\ p x = true.
Proof. by rewrite !list_elem_of_In, filter_In. Qed.

Lemma child_subnode (n c : Node) : c ∈ childrenOf n -> c ∈ subnodes n.
Proof.
  destruct n as [| |t a w cs]; simpl; try (by intros H%elem_of_nil).
  intros H. apply elem_of_flat_map. exists c. split; [done|left].
Qed.

Lemma subnodes_inv (n d : Node) :
  d ∈ subnodes n -> exists c, c ∈ childrenOf n /\ (d = c \/ d ∈ subnodes c).
Proof.
  destruct n as [| |t a w cs]; simpl; try (by intros H%elem_of_nil).
  intros (c & Hc & Hd)%elem_of_flat_map. exists c. split; [done|].
  apply elem_of_cons in Hd as [->|Hd]; auto.
Qed.

Lemma subnodes_trans (n d x : Node) :
  d ∈ subnodes n -> x ∈ subnodes d -> x ∈ subnodes n.
Proof.
  revert d x. induction n as [dd| |t a w cs IH] using Node_ind_forall;
    intros d x Hd Hx; simpl in *; try (by apply elem_of_nil in Hd).
  apply elem_of_flat_map in Hd as (c & Hc & Hd).
  apply elem_of_flat_map. exists c. split; [done|].
  apply elem_of_cons in Hd as [->|Hd]; [by right|]. right.
  rewrite Forall_forall in IH. by apply (IH c Hc d x).
Qed.

Lemma descendants_subnodes (n : Node) : forall anc a d,
  (a, d) ∈ descendants anc n -> d ∈ subnodes n.
Proof.
  induction n as [dd| |t at_ w cs IH] using Node_ind_forall;
    intros anc a d Hd; simpl in *; try (by apply elem_of_nil in Hd).
  apply elem_of_flat_map in Hd as (c & Hc & Hd).
  apply elem_of_flat_map. exists c. split; [done|].
  destruct c as [| |t' a' w' cs']; try (by apply elem_of_nil in Hd).
  apply elem_of_cons in Hd as [Heq|Hd].
  - injection Heq as _ ->. left.
  - right. rewrite Forall_forall in IH. by apply (IH _ Hc (t :: anc) a d).
Qed.

Lemma querySelectorAll_subnodes sel anc n a d :
  (a, d) ∈ querySelectorAll sel anc n -> d ∈ subnodes n.
Proof.
  unfold querySelectorAll. intros [H _]%elem_of_filter_list.
  by eapply descendants_subnodes.
Qed.

Lemma querySelector_subnodes sel anc n a d :
  querySelector sel anc n = Some (a, d) -> d ∈ subnodes n.
Proof.
  unfold querySelector. intros H.
  apply (querySelectorAll_subnodes sel anc n a).
  destruct (querySelectorAll sel anc n) as [|x l]; [done|].
  injection H as ->. left.
Qed.

Lemma height_child (n c : Node) : c ∈ childrenOf n -> height c < height n.
Proof.
  destruct n as [| |t a w cs]; simpl; try (by intros H%elem_of_nil).
  induction cs as [|x cs IH]; [by intros H%elem_of_nil|].
  intros [->|H]%elem_of_cons; simpl; [lia|].
  specialize (IH H). lia.
Qed.

Lemma height_subnode (n : Node) : forall d,
  d ∈ subnodes n -> height d < height n.
Proof.
  induction n as [dd| |t a w cs IH] using Node_ind_forall; intros d Hd;
    try (by apply elem_of_nil in Hd).
  apply subnodes_inv in Hd as (c & Hc & [->|Hd]).
  - by apply height_child.
  - rewrite Forall_forall in IH. specialize (IH c Hc d Hd).
    apply height_child in Hc. lia.
Qed.

Lemma fold_left_ext_in {A B} (f g : A -> B -> A) (l : list B) : forall a,
  (forall acc x, x ∈ l -> f acc x = g acc x) ->
  fold_left f l a = fold_left g l a.
Proof.
  induction l as [|x l IH]; intros a H; simpl; [done|].
  rewrite (H a x) by left. apply IH. intros acc y Hy. apply H. by right.
Qed.

End TreeFacts.

Module ListFacts.
Import TreeFacts ListSpec.

Section Refinement.
Variable rec : list (list N) -> Node -> list N.
Variable recList : list (list N) -> Node -> nat -> list N.

(** The inner loop over the child nodes of an item splits them into the
    inline text and the nested lists, each in document order. *)
Lemma li_children_fold (anc : list (list N)) (indent : nat) (cs : list Node) :
  forall text nested,
  fold_left (li_child_step rec recList anc indent) cs (text, nested) =
  (text ++ concat (map (inline_of rec anc)
             (List.filter (fun c => negb (is_nested_list c)) cs)),
   nested ++ concat (map (fun c => recList anc c (indent + 1))
               (List.filter is_nested_list cs))).
Proof.
  induction cs as [|c cs IH]; intros text nested; simpl.
  { by rewrite !app_nil_r. }
  destruct c as [d| |t a w cs']; simpl.
  - rewrite IH. by rewrite <- app_assoc.
  - rewrite IH. done.
  - unfold is_nested_list. simpl.
    destruct (tag_is (Element t a w cs') "ul" || tag_is (Element t a w cs') "ol");
      simpl; rewrite IH; by rewrite <- app_assoc.
Qed.

Lemma indent_spaces (indent : nat) :
  repeat_str (js "  ") indent = indentation indent.
Proof.
  unfold indentation. induction indent as [|n IH]; [done|].
  simpl. rewrite IH. replace (n + S (n + 0)) with (S (2 * n)) by lia. done.
Qed.

Lemma add_nat_0 (n : JSNum.num) : JSNum.add_nat n 0 = n.
Proof. destruct n; simpl; [done|]. f_equal. lia. Qed.

Lemma add_nat_incr (n : JSNum.num) (k : nat) :
  JSNum.add_nat (JSNum.incr n) k = JSNum.add_nat n (S k).
Proof. destruct n; simpl; [done|]. f_equal. lia. Qed.

Lemma li_step_lines (anc : list (list N)) (isOrdered : bool) (indent : nat)
    (num : JSNum.num) (items : list (list N)) (li : Node) :
  li_step rec recList anc isOrdered indent (num, items) li =
  (JSNum.incr num,
   items ++ item_lines rec recList anc isOrdered num indent 0 li).
Proof.
  unfold li_step, item_lines. rewrite li_children_fold. simpl.
  unfold marker. rewrite add_nat_0, indent_spaces.
  repeat case_match; simpl; rewrite <- ?app_assoc, ?app_nil_r; done.
Qed.

Lemma li_fold_lines (anc : list (list N)) (isOrdered : bool) (indent : nat)
    (lis : list Node) : forall num items,
  fold_left (li_step rec recList anc isOrdered indent) lis (num, items) =
  (JSNum.add_nat num (length lis),
   items ++ concat (imap (item_lines rec recList anc isOrdered num indent) lis)).
Proof.
  induction lis as [|li lis IH]; intros num items; cbn [fold_left].
  { simpl. by rewrite add_nat_0, app_nil_r. }
  rewrite li_step_lines, IH, add_nat_incr, <- app_assoc.
  cbn [length imap concat]. do 4 f_equal.
  apply imap_ext. intros k x _. unfold item_lines, marker. simpl.
  by rewrite add_nat_incr.
Qed.

Lemma start_number_parse (lst : Node) :
  JSNum.parseInt (or_else (attr_or_empty lst "start") (js "1"))
  = start_number lst.
Proof.
  unfold start_number, attr_or_empty.
  destruct (getAttribute lst "start") as [[|c s]|]; done.
Qed.

Lemma list_body_render (anc : list (list N)) (lst : Node) (indent : nat) :
  convertListToMarkdown_body rec recList anc lst indent
  = render rec recList anc lst indent.
Proof.
  unfold convertListToMarkdown_body, render, list_lines.
  rewrite li_fold_lines, start_number_parse. done.
Qed.

End Refinement.

Lemma scope_child (t : string) (lst li : Node) :
  li ∈ scope_children t lst -> li ∈ childrenOf lst.
Proof. unfold scope_children. by intros [H _]%elem_of_filter_list. Qed.

Lemma map_ext_elem {A B} (f g : A -> B) (l : list A) :
  (forall x, x ∈ l -> f x = g x) -> map f l = map g l.
Proof.
  intros H. apply map_ext_in. intros x Hx. apply H. by apply list_elem_of_In.
Qed.

Lemma item_lines_ext rec1 rec2 recL1 recL2 anc isOrdered start indent k li :
  (forall a c, c ∈ childrenOf li -> rec1 a c = rec2 a c) ->
  (forall a c i, c ∈ childrenOf li -> recL1 a c i = recL2 a c i) ->
  item_lines rec1 recL1 anc isOrdered start indent k li
  = item_lines rec2 recL2 anc isOrdered start indent k li.
Proof.
  intros Hrec HrecL. unfold item_lines.
  rewrite (map_ext_elem (inline_of rec1 (tagOf li :: anc))
             (inline_of rec2 (tagOf li :: anc))).
  2:{ intros c [Hc _]%elem_of_filter_list. destruct c; simpl; auto. }
  rewrite (map_ext_elem (fun c => recL1 (tagOf li :: anc) c (indent + 1))
             (fun c => recL2 (tagOf li :: anc) c (indent + 1))).
  2:{ intros c [Hc _]%elem_of_filter_list. auto. }
  done.
Qed.

Lemma render_ext rec1 rec2 recL1 recL2 anc lst indent :
  (forall a d, d ∈ subnodes lst -> rec1 a d = rec2 a d) ->
  (forall a d i, d ∈ subnodes lst -> recL1 a d i = recL2 a d i) ->
  render rec1 recL1 anc lst indent = render rec2 recL2 anc lst indent.
Proof.
  intros Hrec HrecL. unfold render, list_lines. do 2 f_equal.
  apply imap_ext. intros k li Hli.
  apply list_elem_of_lookup_2, scope_child, child_subnode in Hli.
  apply item_lines_ext.
  - intros a c Hc. apply Hrec.
    eapply subnodes_trans; [exact Hli|by apply child_subnode].
  - intros a c i Hc. apply HrecL.
    eapply subnodes_trans; [exact Hli|by apply child_subnode].
Qed.

Lemma convertList_fuel_ext rec1 rec2 : forall f1 f2 anc lst k,
  height lst < f1 -> height lst < f2 ->
  (forall a d, d ∈ subnodes lst -> rec1 a d = rec2 a d) ->
  convertList_fuel rec1 f1 anc lst k = convertList_fuel rec2 f2 anc lst k.
Proof.
  induction f1 as [|f1 IH]; intros f2 anc lst k H1 H2 Hrec; [lia|].
  destruct f2 as [|f2]; [lia|]. simpl.
  rewrite !list_body_render. apply render_ext; [done|].
  intros a d i Hd. pose proof (height_subnode _ _ Hd).
  apply IH; [lia|lia|].
  intros a' x Hx. apply Hrec. by eapply subnodes_trans.
Qed.

End ListFacts.

Module ConverterFacts.
Import TreeFacts ListFacts.

Section BodyExt.
Variable v : Variant.
Variables rec1 rec2 : list (list N) -> Node -> list N.
Variables recL1 recL2 : list (list N) -> Node -> nat -> list N.
Variable element : Node.
Hypothesis Hrec : forall a d, d ∈ subnodes element -> rec1 a d = rec2 a d.
Hypothesis HrecL : forall a k, recL1 a element k = recL2 a element k.

Lemma processChildNodes_body_ext anc :
  processChildNodes_body rec1 anc element = processChildNodes_body rec2 anc element.
Proof.
  unfold processChildNodes_body. apply fold_left_ext_in.
  intros acc c Hc. f_equal. apply Hrec. by apply child_subnode.
Qed.

Lemma getTextContent_body_ext anc :
  getTextContent_body rec1 anc element = getTextContent_body rec2 anc element.
Proof. unfold getTextContent_body. by rewrite processChildNodes_body_ext. Qed.

Lemma cells_ext sel a row :
  row ∈ subnodes element ->
  fold_left (fun cells cell => cells ++ [cell_text rec1 cell])
    (querySelectorAll sel a row) []
  = fold_left (fun cells cell => cells ++ [cell_text rec2 cell])
      (querySelectorAll sel a row) [].
Proof.
  intros Hrow. apply fold_left_ext_in. intros acc [ca cell] Hc.
  unfold cell_text. simpl. rewrite (Hrec ca cell); [done|].
  eapply subnodes_trans; [exact Hrow|]. by eapply querySelectorAll_subnodes.
Qed.

Lemma rows_ext anc (rows0 : list (list N)) :
  fold_left (fun rows tr =>
      let cells :=
        fold_left (fun cells cell => cells ++ [cell_text rec1 cell])
          (querySelectorAll (sel_tags ["td"; "th"]) (fst tr) (snd tr)) [] in
      if (0 <? length cells)%nat then rows ++ [table_row cells] else rows)
    (querySelectorAll (sel_under "tbody" "tr") anc element) rows0
  = fold_left (fun rows tr =>
      let cells :=
        fold_left (fun cells cell => cells ++ [cell_text rec2 cell])
          (querySelectorAll (sel_tags ["td"; "th"]) (fst tr) (snd tr)) [] in
      if (0 <? length cells)%nat then rows ++ [table_row cells] else rows)
    (querySelectorAll (sel_under "tbody" "tr") anc element) rows0.
Proof.
  apply fold_left_ext_in. intros rows [ta tr] Htr. cbn [fst snd].
  rewrite (cells_ext _ ta tr) by (by eapply querySelectorAll_subnodes).
  done.
Qed.

Lemma convertTableToMarkdown_body_ext anc :
  convertTableToMarkdown_body rec1 anc element
  = convertTableToMarkdown_body rec2 anc element.
Proof.
  unfold convertTableToMarkdown_body.
  destruct (querySelector (sel_under "thead" "tr") anc element)
    as [[hanc hrow]|] eqn:Hh.
  - rewrite (cells_ext _ hanc hrow) by (by eapply querySelector_subnodes).
    cbv zeta. by rewrite rows_ext.
  - cbv zeta. by rewrite rows_ext.
Qed.

Lemma convertAnchor_ext anc :
  convertAnchor rec1 anc element = convertAnchor rec2 anc element.
Proof.
  unfold convertAnchor.
  by rewrite processChildNodes_body_ext, getTextContent_body_ext.
Qed.

Lemma heading_ext level anc :
  heading rec1 level anc element = heading rec2 level anc element.
Proof. unfold heading. by rewrite getTextContent_body_ext. Qed.

Lemma dispatch_ext anc :
  dispatch v rec1 recL1 anc element = dispatch v rec2 recL2 anc element.
Proof.
  unfold dispatch.
  rewrite !heading_ext, !processChildNodes_body_ext, convertAnchor_ext,
    convertTableToMarkdown_body_ext, HrecL.
  done.
Qed.

Lemma convertElementToMarkdown_body_ext anc :
  convertElementToMarkdown_body v rec1 recL1 anc element
  = convertElementToMarkdown_body v rec2 recL2 anc element.
Proof.
  unfold convertElementToMarkdown_body. rewrite dispatch_ext.
  destruct (querySelector (sel_tag "img") anc element) as [[ia img]|] eqn:Hq;
    [|done].
  by rewrite (Hrec ia img) by (by eapply querySelector_subnodes).
Qed.

End BodyExt.

Lemma convert_fuel_irrelevant (v : Variant) : forall f1 f2 anc n,
  height n < f1 -> height n < f2 ->
  convert_fuel v f1 anc n = convert_fuel v f2 anc n.
Proof.
  induction f1 as [|f1 IH]; intros f2 anc n H1 H2; [lia|].
  destruct f2 as [|f2]; [lia|]. cbn [convert_fuel].
  assert (Hsub : forall a d, d ∈ subnodes n ->
            convert_fuel v f1 a d = convert_fuel v f2 a d).
  { intros a d Hd. pose proof (height_subnode _ _ Hd). apply IH; lia. }
  apply convertElementToMarkdown_body_ext; [done|].
  intros a k. apply convertList_fuel_ext; [lia|lia|done].
Qed.

(** The entry points satisfy the recursive equations of the source. *)
Lemma convertElementToMarkdown_eq (v : Variant) anc element :
  convertElementToMarkdown v anc element
  = convertElementToMarkdown_body v (convertElementToMarkdown v)
      (convertListToMarkdown v) anc element.
Proof.
  unfold convertElementToMarkdown at 1. cbn [convert_fuel].
  assert (Hsub : forall a d, d ∈ subnodes element ->
            convert_fuel v (height element) a d = convertElementToMarkdown v a d).
  { intros a d Hd. pose proof (height_subnode _ _ Hd).
    unfold convertElementToMarkdown. apply convert_fuel_irrelevant; lia. }
  apply convertElementToMarkdown_body_ext; [done|].
  intros a k. unfold convertListToMarkdown.
  apply convertList_fuel_ext; [lia|lia|done].
Qed.


End ConverterFacts.

Module ConverterTheorems.
Import TreeFacts ListFacts ConverterFacts JSFacts Samples.

(** Evaluate the tag tests of an element whose tag is known. *)
Ltac tag_tests Htag :=
  repeat match goal with
  | |- context [tag_is ?e ?s] =>
      let b := eval vm_compute in (str_eqb (js "a") (js s)) in
      replace (tag_is e s) with b
        by (unfold tag_is; rewrite Htag; vm_compute; reflexivity)
  | |- context [tag_in ?e ?l] =>
      replace (tag_in e l) with false
        by (unfold tag_in, tag_is; rewrite Htag; vm_compute; reflexivity)
  end.

Lemma str_eqb_eq (a b : list N) : str_eqb a b = true <-> a = b.
Proof.
  revert b. induction a as [|x a IH]; intros [|y b]; simpl; try done.
  rewrite andb_true_iff, N.eqb_eq, IH. split; [intros [-> ->]|intros [= -> ->]]; done.
Qed.

Lemma dispatch_anchor v rec recL anc element :
  tag_is element "a" = true ->
  dispatch v rec recL anc element = convertAnchor rec anc element.
Proof.
  intros Htag. apply str_eqb_eq in Htag. unfold dispatch.
  tag_tests Htag. done.
Qed.

(** *** Single-unit replacements are a map over the code units *)

Lemma replace_unit (c : N) (rep s : list N) : forall prev,
  replace_from (m_lit [c]) rep 0 prev s
  = flat_map (fun x => if (x =? c)%N then rep else [x]) s.
Proof.
  induction s as [|x r IH]; intros prev; [done|].
  cbn [replace_from flat_map]. unfold m_lit at 1. cbn [startsWith length].
  rewrite andb_true_r. destruct (x =? c)%N; cbn [app]; by rewrite IH.
Qed.

Lemma flat_map_flat_map {A B C} (f : A -> list B) (g : B -> list C) (l : list A) :
  flat_map g (flat_map f l) = flat_map (fun x => flat_map g (f x)) l.
Proof.
  induction l as [|x l IH]; [done|]. simpl. by rewrite flat_map_app, IH.
Qed.

Lemma escapeMarkdownText_units (text : list N) :
  escapeMarkdownText text = flat_map escape_unit text.
Proof.
  unfold escapeMarkdownText, replace_all. rewrite !replace_unit.
  rewrite !flat_map_flat_map. apply flat_map_ext. intros x. unfold escape_unit.
  destruct (N.eqb_spec x 92) as [->|H92]; [done|].
  destruct (N.eqb_spec x 91) as [->|H91]; [done|].
  destruct (N.eqb_spec x 93) as [->|H93]; [done|].
  apply N.eqb_neq in H91, H93.
  cbn [flat_map app orb]. rewrite H91. cbn [flat_map app]. by rewrite H93.
Qed.

Lemma safeHref_units (href : list N) :
  safeHref href = flat_map percent_unit href.
Proof.
  unfold safeHref, replace_all. rewrite !replace_unit.
  rewrite !flat_map_flat_map. apply flat_map_ext. intros x. unfold percent_unit.
  destruct (N.eqb_spec x 92) as [->|H92]; [done|].
  simpl. rewrite app_nil_r. done.
Qed.

Lemma safeHref_clean (href : list N) :
  (92%N ∉ safeHref href) /\ (41%N ∉ safeHref href).
Proof.
  rewrite safeHref_units. split; intros (x & _ & Hx)%elem_of_flat_map;
    unfold percent_unit in Hx;
    destruct (N.eqb_spec x 92); try destruct (N.eqb_spec x 41);
    vm_compute in Hx;
    repeat (apply elem_of_cons in Hx as [Hx|Hx]; [try discriminate Hx; congruence|]);
    by apply elem_of_nil in Hx.
Qed.


(** C6 as stated fails for buttons: the button rule runs before the class
    test, so a button whose class contains [copy] and that wraps an image is
    converted to that image. *)
Lemma button_with_suppressed_class_keeps_image :
  includes (className copy_button) (js "copy") = true /\
  convertElementToMarkdown PlainMarkdown [] copy_button
    = nl2 ++ js "![cat](pic.png)" ++ nl2.
Proof. vm_compute. split; reflexivity. Qed.

(** C6, as amended.  An element other than a button whose class attribute
    contains [copy], [edit], [regenerate] or [citation-pill] is converted to
    the empty string, whatever its tag.  A button is handled before that
    test: it is converted to the conversion of the first image below it,
    and to the empty string when there is none, whatever its class. *)
Theorem class_suppression (v : Variant) (anc : list (list N)) (element : Node) :
  isElement element = true ->
  (tag_is element "button" = false ->
   includes (className element) (js "copy") = true \/
   includes (className element) (js "edit") = true \/
   includes (className element) (js "regenerate") = true \/
   includes (className element) (js "citation-pill") = true ->
   convertElementToMarkdown v anc element = []) /\
  (tag_is element "button" = true ->
   convertElementToMarkdown v anc element =
     match querySelector (sel_tag "img") anc element with
     | Some (ianc, img) => convertElementToMarkdown v ianc img
     | None => []
     end).
Proof.
  intros He. rewrite convertElementToMarkdown_eq.
  destruct element as [d| |t a w cs]; try discriminate He.
  unfold convertElementToMarkdown_body. split.
  - intros -> Hcls.
    assert (suppressed_class (className (Element t a w cs)) = true) as ->.
    { unfold suppressed_class.
      destruct Hcls as [-> | [-> | [-> | ->]]]; by rewrite ?orb_true_r. }
    by destruct (tag_in _ _).
  - by intros ->.
Qed.

Lemma class_suppression_witness :
  isElement regenerate_div = true /\
  tag_is regenerate_div "button" = false /\
  includes (className regenerate_div) (js "regenerate") = true /\
  convertElementToMarkdown PlainMarkdown [] regenerate_div = [].
Proof.
  split; [reflexivity|]. split; [reflexivity|]. split; [reflexivity|].
  destruct (class_suppression PlainMarkdown [] regenerate_div eq_refl)
    as [H _].
  apply H; [reflexivity|]. right. right. left. reflexivity.
Defined.

(** C7 as stated fails for anchors that carry a suppressed class: this
    anchor has a harmless target, and yet it is converted to the empty
    string instead of [[click](https://example.org/)]. *)
Lemma anchor_with_suppressed_class_is_elided :
  tag_is edit_link "a" = true /\
  unsafe_href (trim (attr_or_empty edit_link "href")) = false /\
  getTextContent PlainMarkdown [] edit_link = js "click" /\
  convertElementToMarkdown PlainMarkdown [] edit_link = [].
Proof. vm_compute. repeat split; reflexivity. Qed.

(** C7, as amended.  For an anchor whose class contains none of [copy],
    [edit], [regenerate], [citation-pill]: when the trimmed href is empty,
    starts in any letter case with [javascript:], [data:] or [vbscript:], or
    starts with [#], the output is exactly the conversion of the children;
    otherwise it is [[text](href)], where the text is the flattened inner
    text (the href when that is empty) with a backslash put before every
    backslash and square bracket, and the href has every backslash replaced
    by [%5C] and every closing parenthesis by [%29], so that neither
    occurs in the link target. *)
Theorem anchor_rule (v : Variant) (anc : list (list N)) (element : Node) :
  isElement element = true ->
  tag_is element "a" = true ->
  suppressed_class (className element) = false ->
  let href := trim (attr_or_empty element "href") in
  (href = [] \/
   startsWith (toLowerCase href) (js "javascript:") = true \/
   startsWith (toLowerCase href) (js "data:") = true \/
   startsWith (toLowerCase href) (js "vbscript:") = true \/
   startsWith href (js "#") = true ->
   convertElementToMarkdown v anc element = processChildNodes v anc element) /\
  (href <> [] ->
   startsWith (toLowerCase href) (js "javascript:") = false ->
   startsWith (toLowerCase href) (js "data:") = false ->
   startsWith (toLowerCase href) (js "vbscript:") = false ->
   startsWith href (js "#") = false ->
   convertElementToMarkdown v anc element =
     js "[" ++
     flat_map escape_unit (or_else (getTextContent v anc element) href) ++
     js "](" ++ flat_map percent_unit href ++ js ")" /\
   (92%N ∉ flat_map percent_unit href) /\
   (41%N ∉ flat_map percent_unit href)).
Proof.
  intros He Htag Hcls href. rewrite convertElementToMarkdown_eq.
  destruct element as [d| |t a w cs]; try discriminate He.
  unfold convertElementToMarkdown_body. rewrite Hcls.
  replace (tag_is (Element t a w cs) "button") with false.
  2:{ apply str_eqb_eq in Htag. unfold tag_is. rewrite Htag. reflexivity. }
  replace (tag_in (Element t a w cs) ["svg"; "script"; "style"; "noscript"])
    with false.
  2:{ apply str_eqb_eq in Htag. unfold tag_in, tag_is. rewrite Htag.
      reflexivity. }
  rewrite dispatch_anchor by done. unfold convertAnchor. fold href.
  unfold unsafe_href. split.
  - intros Hbad.
    assert (negb (truthy href)
            || startsWith (toLowerCase href) (js "javascript:")
            || startsWith (toLowerCase href) (js "data:")
            || startsWith (toLowerCase href) (js "vbscript:")
            || startsWith href (js "#") = true) as ->; [|done].
    destruct Hbad as [-> | [-> | [-> | [-> | ->]]]]; by rewrite ?orb_true_r.
  - intros Hne H1 H2 H3 H4. rewrite H1, H2, H3, H4.
    destruct href as [|c h] eqn:Hh; [done|]. cbn [truthy negb orb].
    rewrite escapeMarkdownText_units, safeHref_units. split; [done|].
    rewrite <- safeHref_units. apply safeHref_clean.
Qed.

Lemma anchor_rule_witness :
  isElement script_link = true /\
  tag_is script_link "a" = true /\
  suppressed_class (className script_link) = false /\
  startsWith (toLowerCase (trim (attr_or_empty script_link "href")))
    (js "javascript:") = true /\
  convertElementToMarkdown PlainMarkdown [] script_link
    = processChildNodes PlainMarkdown [] script_link.
Proof.
  split; [reflexivity|]. split; [reflexivity|]. split; [reflexivity|].
  split; [reflexivity|].
  destruct (anchor_rule PlainMarkdown [] script_link eq_refl eq_refl eq_refl)
    as [H _].
  apply H. right. left. reflexivity.
Defined.


(** The examples of the specification. *)
Lemma numbered_list_from_three :
  convertListToMarkdown PlainMarkdown [] numbered_list 0
    = js "3. one" ++ [NL] ++ js "  - sub" ++ [NL] ++ js "4. two" /\
  convertListToMarkdown PlainMarkdown [] bare_nested_list 0
    = js "  1. only".
Proof. vm_compute. split; reflexivity. Qed.

End ConverterTheorems.

Module LocatorFacts.
Import Locator Samples.

Lemma consolidate_fold_order (pre suf : list (list nat)) :
  NoDup (pre ++ suf) ->
  (forall i j a b, i < j -> (pre ++ suf) !! i = Some a ->
      (pre ++ suf) !! j = Some b -> contains b a = false) ->
  fold_left (consolidate_step (pre ++ suf)) suf (pre, list_to_set pre)
  = (pre ++ suf, list_to_set (pre ++ suf)).
Proof.
  revert pre. induction suf as [|msg suf IH]; intros pre Hnd Hord; simpl.
  { by rewrite app_nil_r. }
  assert (Hnotin : msg ∉ pre).
  { apply NoDup_app in Hnd as (_ & Hdis & _). intros Hin.
    apply (Hdis msg Hin). left. }
  rewrite bool_decide_eq_false_2 by (by rewrite elem_of_list_to_set).
  assert (Hnest :
    existsb (fun other =>
      negb (same_element other msg) && contains other msg &&
      negb (bool_decide (other ∈ (list_to_set pre : gset (list nat)))))
      (pre ++ msg :: suf) = false).
  { apply not_true_is_false. intros Hex.
    apply existsb_exists in Hex as (other & Hin & Hc).
    apply andb_prop in Hc as [Hc Hused]. apply andb_prop in Hc as [Hne Hcont].
    apply negb_true_iff, bool_decide_eq_false in Hused.
    rewrite elem_of_list_to_set in Hused.
    apply negb_true_iff, bool_decide_eq_false in Hne.
    apply list_elem_of_In, elem_of_app in Hin as [Hin|Hin]; [done|].
    apply elem_of_cons in Hin as [->|Hin]; [done|].
    apply list_elem_of_lookup in Hin as [k Hk].
    assert (Hfalse : contains other msg = false).
    { apply (Hord (length pre) (length pre + S k) msg other); [lia| |].
      - by rewrite lookup_app_r, Nat.sub_diag by lia.
      - rewrite lookup_app_r by lia.
        replace (length pre + S k - length pre) with (S k) by lia. done. }
    congruence. }
  rewrite Hnest.
  replace (pre ++ msg :: suf) with ((pre ++ [msg]) ++ suf) in *
    by (by rewrite <- app_assoc).
  replace ({[msg]} ∪ list_to_set pre : gset (list nat))
    with (list_to_set (pre ++ [msg]) : gset (list nat)).
  2:{ rewrite list_to_set_app_L. simpl.
      rewrite (right_id_L ∅ (∪)). apply (comm_L (∪)). }
  by apply IH.
Qed.

(** On a list in document order (no element listed twice, no element
    after one of its descendants) the nested-message removal keeps
    everything. *)
Lemma consolidate_document_order (l : list (list nat)) :
  NoDup l ->
  (forall i j a b, i < j -> l !! i = Some a -> l !! j = Some b ->
      contains b a = false) ->
  consolidate l = l.
Proof.
  intros Hnd Hord. unfold consolidate.
  pose proof (consolidate_fold_order [] l Hnd Hord) as H.
  simpl in H. by rewrite H.
Qed.

(** C1.  At an outer match and a match nested in it, handed over in
    document order, [findMessages] returns both: when the inner one is
    examined the outer one is already in [usedElements], and the test for
    nesting only counts ancestors that are not. *)
Theorem nested_match_is_returned :
  contains [0] [0; 1] = true /\
  valid_at valid_b64 nested_doc [0] = true /\
  valid_at valid_b64 nested_doc [0; 1] = true /\
  valid_at valid_md nested_doc [0] = true /\
  valid_at valid_md nested_doc [0; 1] = true /\
  findMessages_b64 nested_doc [[[0]; [0; 1]]] None = [[0]; [0; 1]] /\
  findMessages_md nested_doc [[[0]; [0; 1]]] None = [[0]; [0; 1]] /\
  findMessages_html nested_doc [[[0]; [0; 1]]] None = [[0]; [0; 1]].
Proof. vm_compute. repeat split; reflexivity. Qed.


(** C4 as stated fails for the plain Markdown exporter: this element meets
    every bound of the claim and is rejected all the same, because that
    exporter asks for 30 characters. *)
Lemma short_message_rejected_by_plain_markdown :
  (5 <= strlen (trim (textContent short_message)) <= 100000)%Z /\
  has_text_control short_message = false /\
  status_class short_message = false /\
  valid_md short_message = false.
Proof. vm_compute. repeat split; intros H; discriminate H. Qed.

(** C4, as amended.  The HTML exporter and the base64 Markdown exporter
    keep a candidate exactly when its trimmed text has between 5 and 100000
    code units, it contains no text input or textarea, and it carries
    neither the [typing] nor the [loading] class.  The plain Markdown
    exporter keeps it exactly when the trimmed text has between 30 and
    100000 code units, the same two exclusions hold, and the
    white-space-normalised text splits at spaces into at least 5 pieces. *)
Theorem validity_filter_characterised (msg : Node) :
  (valid_b64 msg = true <->
     (5 <= strlen (trim (textContent msg)) <= 100000)%Z /\
     has_text_control msg = false /\ status_class msg = false) /\
  (valid_html msg = true <->
     (5 <= strlen (trim (textContent msg)) <= 100000)%Z /\
     has_text_control msg = false /\ status_class msg = false) /\
  (valid_md msg = true <->
     (30 <= strlen (trim (textContent msg)) <= 100000)%Z /\
     has_text_control msg = false /\ status_class msg = false /\
     (5 <= split_space_count
             (trim (replace_all (m_run isWhiteSpace 1) [SP]
                      (trim (textContent msg)))))%Z).
Proof.
  unfold valid_html, valid_b64, valid_md.
  set (n := strlen (trim (textContent msg))).
  set (w := split_space_count _).
  destruct (Z.ltb_spec n 5), (Z.ltb_spec n 30), (Z.ltb_spec 100000 n),
    (has_text_control msg), (status_class msg), (Z.ltb_spec w 5);
    (repeat split; try done; try lia; intros; try lia;
     repeat match goal with H : _ /\ _ |- _ => destruct H end;
     try done; try lia).
Qed.

End LocatorFacts.

Module AssemblerFacts.
Import Assembler.

(** The three duplicate-removal loops have the same shape; the facts about
    them are proved once, for any loop body of that shape. *)
Section Loop.
Context {R : Type}.
Variable body : list R * gset (list N) -> nat * Located -> list R * gset (list N).
Variable skip : Located -> bool.
Variable fp : Located -> list N.
Variable mk : nat -> Located -> R.
Variable ix : R -> nat.
Hypothesis body_shape : forall out seen i m,
  body (out, seen) (i, m) =
    if skip m then (out, seen)
    else if bool_decide (fp m ∈ seen) then (out, seen)
    else (out ++ [mk i m], {[fp m]} ∪ seen).
Hypothesis ix_mk : forall i m, ix (mk i m) = i.

Local Abbreviation run := (DedupLoop.run body).
Local Abbreviation recorded := (DedupLoop.recorded fp ix).
Local Abbreviation dedup := (DedupLoop.dedup body).

Lemma run_cons k m l st : run k (m :: l) st = run (S k) l (body st (k, m)).
Proof.
  unfold DedupLoop.run. simpl. rewrite Nat.add_0_r. f_equal.
  apply imap_ext. intros i x _. simpl. f_equal. lia.
Qed.

Lemma run_app k l1 l2 st :
  run k (l1 ++ l2) st = run (k + length l1) l2 (run k l1 st).
Proof.
  revert k st. induction l1 as [|m l1 IH]; intros k st.
  - simpl. by rewrite Nat.add_0_r.
  - simpl. rewrite !run_cons, IH. f_equal. lia.
Qed.

(** The loop only appends, and what it appends carries indices from the
    current one on. *)
Lemma run_appends l : forall k st,
  exists extra, fst (run k l st) = fst st ++ extra /\
                Forall (fun r => k <= ix r) extra.
Proof.
  induction l as [|m l IH]; intros k [out seen].
  - exists []. simpl. by rewrite app_nil_r.
  - rewrite run_cons, body_shape.
    destruct (skip m); [|destruct (bool_decide (fp m ∈ seen))].
    + destruct (IH (S k) (out, seen)) as (extra & -> & Hall).
      exists extra. split; [done|]. eapply Forall_impl; [exact Hall|].
      simpl. lia.
    + destruct (IH (S k) (out, seen)) as (extra & -> & Hall).
      exists extra. split; [done|]. eapply Forall_impl; [exact Hall|].
      simpl. lia.
    + destruct (IH (S k) (out ++ [mk k m], {[fp m]} ∪ seen))
        as (extra & -> & Hall).
      exists (mk k m :: extra). simpl. split; [by rewrite <- app_assoc|].
      constructor; [by rewrite ix_mk|].
      eapply Forall_impl; [exact Hall|]. simpl. lia.
Qed.

Lemma recorded_body msgs k m st :
  msgs !! k = Some m -> recorded msgs k st ->
  recorded msgs (S k) (body st (k, m)).
Proof.
  destruct st as [out seen]. intros Hk Hrec. rewrite body_shape.
  unfold DedupLoop.recorded in *. simpl in *.
  destruct (skip m); [|destruct (bool_decide (fp m ∈ seen))]; simpl.
  - eapply Forall_impl; [exact Hrec|]. simpl. intros r [? ?]. split; [lia|done].
  - eapply Forall_impl; [exact Hrec|]. simpl. intros r [? ?]. split; [lia|done].
  - apply Forall_app. split.
    + eapply Forall_impl; [exact Hrec|]. simpl.
      intros r [? (m' & ? & ?)]. split; [lia|].
      exists m'. split; [done|]. apply elem_of_union. by right.
    + constructor; [|constructor]. rewrite ix_mk. split; [lia|].
      exists m. split; [done|]. apply elem_of_union. left.
      by apply elem_of_singleton.
Qed.

Lemma recorded_run msgs l : forall k st,
  (forall i m, l !! i = Some m -> msgs !! (k + i) = Some m) ->
  recorded msgs k st -> recorded msgs (k + length l) (run k l st).
Proof.
  induction l as [|m l IH]; intros k st Hl Hrec.
  - simpl. by rewrite Nat.add_0_r.
  - rewrite run_cons. simpl.
    replace (k + S (length l)) with (S k + length l) by lia.
    apply IH.
    + intros i m' Hi. replace (S k + i) with (k + S i) by lia.
      by apply Hl.
    + apply recorded_body; [|done].
      specialize (Hl 0 m eq_refl). by rewrite Nat.add_0_r in Hl.
Qed.

Lemma dedup_run msgs : dedup msgs = fst (run 0 msgs ([], ∅)).
Proof. done. Qed.

Lemma later_duplicate_dropped msgs i j mi mj :
  i < j -> msgs !! i = Some mi -> msgs !! j = Some mj ->
  i ∈ ix <$> dedup msgs -> fp mi = fp mj ->
  j ∉ ix <$> dedup msgs.
Proof.
  intros Hij Hi Hj Hsurv Hfp.
  rewrite dedup_run in *.
  pose proof (take_drop_middle msgs j mj Hj) as Hsplit.
  assert (Hlen : length (take j msgs) = j).
  { rewrite length_take. apply lookup_lt_Some in Hj. lia. }
  rewrite <- Hsplit in Hsurv |- *.
  rewrite run_app, run_cons in Hsurv |- *. simpl in *.
  rewrite Hlen in *.
  set (stj := run 0 (take j msgs) ([], ∅)) in *.
  assert (Hrec : recorded msgs j stj).
  { replace j with (0 + length (take j msgs)) at 1 by lia.
    apply recorded_run; [|by constructor].
    intros k m Hk. simpl. rewrite lookup_take_Some in Hk. tauto. }
  destruct stj as [outj seenj] eqn:Hstj.
  destruct (run_appends (drop (S j) msgs) (S j) (body (outj, seenj) (j, mj)))
    as (extra & Hfinal & Hextra).
  rewrite Hfinal in Hsurv |- *.
  rewrite body_shape in Hsurv |- *.
  assert (Hlow : forall x, x ∈ ix <$> outj -> x < j /\
                   exists m, msgs !! x = Some m /\ fp m ∈ seenj).
  { intros x Hx. apply list_elem_of_fmap in Hx as (r & -> & Hr).
    unfold DedupLoop.recorded in Hrec. rewrite Forall_forall in Hrec.
    by apply (Hrec r). }
  assert (Hhigh : forall x, x ∈ ix <$> extra -> S j <= x).
  { intros x Hx. apply list_elem_of_fmap in Hx as (r & -> & Hr).
    rewrite Forall_forall in Hextra. by apply Hextra. }
  assert (Hin_i : i ∈ ix <$> outj).
  { destruct (skip mj); [|destruct (bool_decide (fp mj ∈ seenj))];
      simpl in Hsurv; rewrite ?fmap_app, ?elem_of_app in Hsurv.
    - destruct Hsurv as [?|Hx]; [done|]. apply Hhigh in Hx. lia.
    - destruct Hsurv as [?|Hx]; [done|]. apply Hhigh in Hx. lia.
    - destruct Hsurv as [[?|Hx]|Hx]; [done| |].
      + simpl in Hx. rewrite ix_mk in Hx. apply list_elem_of_singleton in Hx. lia.
      + apply Hhigh in Hx. lia. }
  destruct (Hlow i Hin_i) as (_ & m & Hm & Hseen).
  replace m with mi in * by congruence.
  rewrite Hfp in Hseen.
  rewrite (bool_decide_eq_true_2 _ Hseen).
  replace (if skip mj then (outj, seenj) else (outj, seenj)) with (outj, seenj)
    by (by destruct (skip mj)).
  simpl. rewrite fmap_app, elem_of_app. intros [Hx|Hx].
  - apply Hlow in Hx. lia.
  - apply Hhigh in Hx. lia.
Qed.

End Loop.

Lemma step_b64_shape out seen i m :
  step_b64 (out, seen) (i, m) =
    if too_short 5 (l_content m) then (out, seen)
    else if bool_decide (contentHash (l_content m) ∈ seen) then (out, seen)
    else (out ++ [mkMessage (l_sender m) (l_reliable m) (l_replyLabel m)
                    (l_content m) i],
          {[contentHash (l_content m)]} ∪ seen).
Proof. reflexivity. Qed.

Lemma step_md_shape out seen i m :
  step_md (out, seen) (i, m) =
    if too_short 30 (l_content m) then (out, seen)
    else if bool_decide (contentHash (l_content m) ∈ seen) then (out, seen)
    else (out ++ [mkPlain (l_sender m) (l_content m) i],
          {[contentHash (l_content m)]} ∪ seen).
Proof. reflexivity. Qed.

Lemma step_html_shape out seen i m :
  step_html (out, seen) (i, m) =
    if negb (truthy (trim (l_textContent m))) ||
       (strlen (trim (l_textContent m)) <? 5)%Z then (out, seen)
    else if bool_decide (contentHash (trim (l_textContent m)) ∈ seen)
    then (out, seen)
    else (out ++ [mkPlain (l_sender m) (l_content m) i],
          {[contentHash (trim (l_textContent m))]} ∪ seen).
Proof. reflexivity. Qed.

End AssemblerFacts.

Module AssemblerTheorems.
Import Assembler AssemblerFacts Samples.

(** C5 as stated fails for the HTML exporter: the two turns have the same
    converted content, hence the same fingerprint in the sense of the
    claim, and both are kept, because that exporter fingerprints the raw
    text of the source element. *)
Lemma html_keeps_equal_converted_content :
  l_content <$> twin_turns !! 0 = l_content <$> twin_turns !! 1 /\
  p_originalIndex <$> dedup_html twin_turns = [0; 1].
Proof. vm_compute. split; reflexivity. Qed.

Lemma contentHash_prefix (c1 c2 : list N) :
  take 100 c1 = take 100 c2 -> contentHash c1 = contentHash c2.
Proof. unfold contentHash, substring0. by intros ->. Qed.

(** C5, as amended.  In the two Markdown exporters the fingerprint is the
    first 100 code units of the converted content with white space
    collapsed and trimmed; in the HTML exporter it is computed in the same
    way from the trimmed raw text of the source element.  In each exporter,
    a turn whose fingerprint equals that of an earlier turn that is kept is
    not in the output; the fingerprint only depends on the first 100 code
    units. *)
Theorem later_duplicate_is_dropped
    (msgs : list Located) (i j : nat) (mi mj : Located) :
  i < j -> msgs !! i = Some mi -> msgs !! j = Some mj ->
  (contentHash (l_content mi) = contentHash (l_content mj) ->
     (i ∈ originalIndex <$> dedup_b64 msgs ->
      j ∉ originalIndex <$> dedup_b64 msgs) /\
     (i ∈ p_originalIndex <$> dedup_md msgs ->
      j ∉ p_originalIndex <$> dedup_md msgs)) /\
  (contentHash (trim (l_textContent mi)) = contentHash (trim (l_textContent mj)) ->
     i ∈ p_originalIndex <$> dedup_html msgs ->
     j ∉ p_originalIndex <$> dedup_html msgs) /\
  (take 100 (l_content mi) = take 100 (l_content mj) ->
     contentHash (l_content mi) = contentHash (l_content mj)).
Proof.
  intros Hij Hi Hj. split; [|split].
  - intros Hfp. split; intros Hsurv.
    + exact (later_duplicate_dropped step_b64 _
               (fun m => contentHash (l_content m)) _ originalIndex
               step_b64_shape (fun _ _ => eq_refl)
               msgs i j mi mj Hij Hi Hj Hsurv Hfp).
    + exact (later_duplicate_dropped step_md _
               (fun m => contentHash (l_content m)) _ p_originalIndex
               step_md_shape (fun _ _ => eq_refl)
               msgs i j mi mj Hij Hi Hj Hsurv Hfp).
  - intros Hfp Hsurv.
    exact (later_duplicate_dropped step_html _
             (fun m => contentHash (trim (l_textContent m))) _ p_originalIndex
             step_html_shape (fun _ _ => eq_refl)
             msgs i j mi mj Hij Hi Hj Hsurv Hfp).
  - apply contentHash_prefix.
Qed.

Lemma later_duplicate_is_dropped_witness :
  0 < 1 /\
  twin_turns !! 0 = Some (located "Hello world" "Hello worldCopy") /\
  twin_turns !! 1 = Some (located "Hello world" "Hello worldEdit") /\
  contentHash (js "Hello world") = contentHash (js "Hello world") /\
  (0 ∈ originalIndex <$> dedup_b64 twin_turns) /\
  (1 ∉ originalIndex <$> dedup_b64 twin_turns).
Proof.
  assert (Hin : 0 ∈ originalIndex <$> dedup_b64 twin_turns)
    by (vm_compute; left).
  split; [lia|]. split; [reflexivity|]. split; [reflexivity|].
  split; [reflexivity|]. split; [exact Hin|].
  destruct (later_duplicate_is_dropped twin_turns 0 1
              (located "Hello world" "Hello worldCopy")
              (located "Hello world" "Hello worldEdit")
              ltac:(lia) eq_refl eq_refl) as [H _].
  destruct (H eq_refl) as [Hb _]. exact (Hb Hin).
Defined.

End AssemblerTheorems.

Module CorrectionFacts.
Import Correction.

Lemma set_sender_same (m : Message) : set_sender (sender m) m = m.
Proof. by destruct m. Qed.

Lemma length_step (l : list Message) (j : nat) : length (step l j) = length l.
Proof.
  unfold step.
  destruct (l !! j) as [cur|]; [|done].
  destruct (l !! (j - 1)) as [prev|]; [|done].
  repeat case_match; rewrite ?length_insert; done.
Qed.

Lemma length_fold_step (js : list nat) (l : list Message) :
  length (fold_left step js l) = length l.
Proof.
  revert l. induction js as [|j js IH]; intros l; simpl; [done|].
  by rewrite IH, length_step.
Qed.

(** A reliable record is never written: every iteration that could reach it
    sees the flag on one side of its pair. *)
Lemma step_keeps_reliable (l : list Message) (i j : nat) (m : Message) :
  l !! i = Some m -> reliable m = true -> step l j !! i = Some m.
Proof.
  intros Hi Hr. unfold step.
  destruct (l !! j) as [cur|] eqn:Hj; [|done].
  destruct (l !! (j - 1)) as [prev|] eqn:Hp; [|done].
  destruct (decide (j = i)) as [->|Hne].
  { replace cur with m by congruence. rewrite Hr. done. }
  destruct (decide (j - 1 = i)) as [Heq|Hne'].
  { rewrite Heq in Hp. replace prev with m by congruence.
    rewrite Hr, orb_true_r. done. }
  repeat case_match; rewrite ?list_lookup_insert_ne by done; done.
Qed.

Lemma fold_keeps_reliable (js : list nat) (l : list Message) (i : nat) (m : Message) :
  l !! i = Some m -> reliable m = true -> fold_left step js l !! i = Some m.
Proof.
  revert l. induction js as [|j js IH]; intros l Hi Hr; simpl; [done|].
  apply IH; [|done]. by apply step_keeps_reliable.
Qed.

Lemma step_guarded (l : list Message) (i : nat) (cur prev : Message) :
  l !! i = Some cur -> l !! (i - 1) = Some prev ->
  reliable cur || reliable prev = true -> step l i = l.
Proof. intros Hc Hp Hg. unfold step. by rewrite Hc, Hp, Hg. Qed.

Lemma step_reliable_here (l : list Message) (i : nat) (m : Message) :
  l !! i = Some m -> reliable m = true -> step l i = l.
Proof.
  intros Hi Hr. unfold step. rewrite Hi.
  destruct (l !! (i - 1)); [|done]. by rewrite Hr.
Qed.

Lemma step_reliable_next (l : list Message) (i : nat) (m : Message) :
  l !! i = Some m -> reliable m = true -> step l (S i) = l.
Proof.
  intros Hi Hr. unfold step.
  destruct (l !! S i); [|done].
  replace (S i - 1) with i by lia. rewrite Hi, Hr, orb_true_r. done.
Qed.

End CorrectionFacts.

Module CorrectionClaims.
Import Correction CorrectionFacts.

Lemma pass_split (msgs : list Message) (i : nat) :
  1 <= i -> i <= length msgs ->
  pass msgs = pass_from i (fold_left step (seq 1 (i - 1)) msgs).
Proof.
  intros H1 H2. unfold pass, pass_from.
  rewrite length_fold_step, <- fold_left_app.
  replace (length msgs - 1) with ((i - 1) + (length msgs - i)) by lia.
  rewrite seq_app. repeat f_equal. lia.
Qed.

(** Iterations after index [i] read and write only indices from [i] on, and
    the only thing they write at [i] is the label it already carries. *)
Lemma step_after (l : list Message) (i j : nat) (prev cur : Message) :
  1 <= i -> i < j ->
  l !! (i - 1) = Some prev -> l !! i = Some cur -> sender cur = ChatGPT ->
  step l j !! (i - 1) = Some prev /\ step l j !! i = Some cur.
Proof.
  intros H1 Hij Hp Hc Hs. unfold step.
  destruct (l !! j) as [c|] eqn:Hj; [|done].
  destruct (l !! (j - 1)) as [p|] eqn:Hjp; [|done].
  assert (j <> i - 1) by lia. assert (j - 1 <> i - 1) by lia.
  assert (j <> i) by lia.
  repeat case_match; try done;
    rewrite ?(list_lookup_insert_ne _ j (i - 1)) by done;
    rewrite ?(list_lookup_insert_ne _ (j - 1) (i - 1)) by done;
    rewrite ?(list_lookup_insert_ne _ j i) by done;
    try done.
  split; [done|].
  destruct (decide (j - 1 = i)) as [Heq|Hne].
  - rewrite Heq in *. rewrite list_lookup_insert_eq by (by eapply lookup_lt_Some).
    replace p with cur by congruence. rewrite <- Hs. by rewrite set_sender_same.
  - by rewrite list_lookup_insert_ne.
Qed.

Lemma fold_after (js : list nat) (l : list Message) (i : nat) (prev cur : Message) :
  1 <= i -> Forall (fun j => i < j) js ->
  l !! (i - 1) = Some prev -> l !! i = Some cur -> sender cur = ChatGPT ->
  fold_left step js l !! (i - 1) = Some prev /\ fold_left step js l !! i = Some cur.
Proof.
  intros H1. revert l. induction js as [|j js IH]; intros l Hall Hp Hc Hs; simpl.
  { done. }
  inversion Hall; subst.
  destruct (step_after l i j prev cur) as [Hp' Hc']; try done.
  by apply IH.
Qed.

Lemma step_longer_chatgpt (st : list Message) (i : nat) (prev cur : Message) :
  st !! (i - 1) = Some prev -> st !! i = Some cur ->
  reliable prev = false -> reliable cur = false ->
  sender prev = ChatGPT -> sender cur = ChatGPT ->
  (strlen (content prev) * 2 < strlen (content cur))%Z ->
  (500 < strlen (content cur))%Z ->
  step st i = st.
Proof.
  intros Hp Hc Hrp Hrc Hsp Hsc Hlen H500. unfold step.
  rewrite Hc, Hp, Hrc, Hrp, Hsc, Hsp. simpl.
  destruct (Z.ltb_spec (strlen (content prev) * 2) (strlen (content cur))); [|lia].
  destruct (Z.ltb_spec 500 (strlen (content cur))); [|lia].
  simpl. rewrite <- Hsc, set_sender_same. by apply list_insert_id.
Qed.

(** The pair found at index [i], and what becomes of it. *)
Lemma long_chatgpt_pair_stays_aux
    (msgs : list Message) (i : nat) (prev cur : Message) :
  1 <= i ->
  state_before i msgs !! (i - 1) = Some prev ->
  state_before i msgs !! i = Some cur ->
  reliable prev = false -> reliable cur = false ->
  sender prev = ChatGPT -> sender cur = ChatGPT ->
  (strlen (content prev) * 2 < strlen (content cur))%Z ->
  (500 < strlen (content cur))%Z ->
  step (state_before i msgs) i = state_before i msgs /\
  pass msgs !! (i - 1) = Some prev /\
  pass msgs !! i = Some cur.
Proof.
  intros H1 Hp Hc Hrp Hrc Hsp Hsc Hlen H500.
  unfold state_before in *.
  set (st := fold_left step (seq 1 (i - 1)) msgs) in *.
  assert (Hstep : step st i = st) by (by eapply step_longer_chatgpt).
  split; [done|].
  assert (Hi : i < length st) by (by eapply lookup_lt_Some).
  assert (Hlen_st : length st = length msgs) by apply length_fold_step.
  rewrite (pass_split msgs i) by lia. fold st. unfold pass_from.
  replace (length st - i) with (S (length st - S i)) by lia.
  simpl. rewrite Hstep.
  apply fold_after; try done.
  apply Forall_forall. intros j Hj. apply list_elem_of_In, in_seq in Hj. lia.
Qed.

End CorrectionClaims.

Module CorrectionTheorems.
Import Correction CorrectionFacts CorrectionClaims Samples.

(** C2, as amended.  In the exporter that records the [reliable] flag, a
    message marked reliable comes out of the correction pass exactly as it
    went in, whatever its neighbours are; and each of the two loop
    iterations that examine a pair containing it (the one at its own index
    and the one at the next index) leaves the whole list unchanged. *)
Theorem reliable_message_survives_pass
    (msgs : list Message) (i : nat) (m : Message) :
  msgs !! i = Some m -> reliable m = true ->
  pass msgs !! i = Some m /\ step msgs i = msgs /\ step msgs (S i) = msgs.
Proof.
  intros Hi Hr. split; [|split].
  - unfold pass, pass_from. by apply fold_keeps_reliable.
  - by eapply step_reliable_here.
  - by eapply step_reliable_next.
Qed.

Lemma reliable_message_survives_pass_witness :
  let msgs := [sample You true 10 0; sample You false 10 1] in
  msgs !! 0 = Some (sample You true 10 0) /\
  reliable (sample You true 10 0) = true /\
  pass msgs !! 0 = Some (sample You true 10 0) /\
  step msgs 0 = msgs /\ step msgs 1 = msgs.
Proof.
  intros msgs. split; [reflexivity|]. split; [reflexivity|].
  apply (reliable_message_survives_pass msgs 0 (sample You true 10 0));
    reflexivity.
Defined.

(** C2 as stated fails in its last clause: the pair at indices 1 and 2 has
    a reliable side, yet the pass relabels its unreliable member, through
    the iteration that pairs that member with index 0. *)
Lemma pair_with_reliable_side_is_touched :
  let msgs := [sample You false 10 0; sample You false 10 1;
               sample ChatGPT true 10 2] in
  reliable <$> msgs !! 2 = Some true /\
  sender <$> msgs !! 1 = Some You /\
  sender <$> pass msgs !! 1 = Some ChatGPT.
Proof. vm_compute. auto. Qed.

(** C10, as amended.  When the loop reaches index [i] and finds there two
    unreliable messages both labelled ChatGPT, the later one more than twice
    as long as the earlier one and longer than 500, that iteration rewrites
    nothing, and both messages leave the pass as they were: the output has
    two adjacent ChatGPT turns. *)
Theorem long_chatgpt_pair_stays
    (msgs : list Message) (i : nat) (prev cur : Message) :
  1 <= i ->
  state_before i msgs !! (i - 1) = Some prev ->
  state_before i msgs !! i = Some cur ->
  reliable prev = false -> reliable cur = false ->
  sender prev = ChatGPT -> sender cur = ChatGPT ->
  (strlen (content prev) * 2 < strlen (content cur))%Z ->
  (500 < strlen (content cur))%Z ->
  step (state_before i msgs) i = state_before i msgs /\
  pass msgs !! (i - 1) = Some prev /\
  pass msgs !! i = Some cur.
Proof. apply long_chatgpt_pair_stays_aux. Qed.

Lemma long_chatgpt_pair_stays_witness :
  let msgs := [sample ChatGPT false 10 0; sample ChatGPT false 600 1;
               sample ChatGPT false 3 2] in
  let prev := sample ChatGPT false 10 0 in
  let cur := sample ChatGPT false 600 1 in
  1 <= 1 /\
  state_before 1 msgs !! (1 - 1) = Some prev /\
  state_before 1 msgs !! 1 = Some cur /\
  reliable prev = false /\ reliable cur = false /\
  sender prev = ChatGPT /\ sender cur = ChatGPT /\
  (strlen (content prev) * 2 < strlen (content cur))%Z /\
  (500 < strlen (content cur))%Z /\
  step (state_before 1 msgs) 1 = state_before 1 msgs /\
  pass msgs !! (1 - 1) = Some prev /\
  pass msgs !! 1 = Some cur.
Proof.
  intros msgs prev cur.
  assert (Hlen : (strlen (content prev) * 2 < strlen (content cur))%Z)
    by (vm_compute; reflexivity).
  assert (H500 : (500 < strlen (content cur))%Z) by (vm_compute; reflexivity).
  do 9 (split; [first [reflexivity | lia | assumption]|]).
  exact (long_chatgpt_pair_stays msgs 1 prev cur (le_n 1) eq_refl eq_refl
           eq_refl eq_refl eq_refl eq_refl Hlen H500).
Defined.

(** C10 as stated fails when the labels are those of the input: the
    messages at indices 1 and 2 are unreliable, both labelled ChatGPT, and
    the later one is long enough, yet the earlier one leaves the pass
    labelled You, because the iteration before had already flipped it. *)
Lemma input_chatgpt_pair_is_relabelled :
  let msgs := [sample ChatGPT false 10 0; sample ChatGPT false 10 1;
               sample ChatGPT false 600 2] in
  (reliable <$> msgs !! 1 = Some false /\ reliable <$> msgs !! 2 = Some false) /\
  (sender <$> msgs !! 1 = Some ChatGPT /\ sender <$> msgs !! 2 = Some ChatGPT) /\
  (strlen (replicate 10 97%N) * 2 < strlen (replicate 600 97%N))%Z /\
  (500 < strlen (replicate 600 97%N))%Z /\
  sender <$> pass msgs !! 1 = Some You.
Proof. vm_compute. repeat split; reflexivity. Qed.

(** *** The loop without the flag

    The plain Markdown exporter and the HTML exporter run the loop of the
    base64 exporter on records that are all unreliable. *)

Lemma forget_lift (m : PlainMessage) : forget (lift m) = m.
Proof. by destruct m. Qed.

Lemma forget_set_sender (s : Sender) (m : Message) :
  forget (set_sender s m) = set_sender_plain s (forget m).
Proof. done. Qed.

Lemma step_keeps_flags (l : list Message) (i : nat) :
  Forall (fun m => reliable m = false) l ->
  Forall (fun m => reliable m = false) (step l i).
Proof.
  intros Hall. unfold step.
  destruct (l !! i) as [cur|] eqn:Hc; [|done].
  destruct (l !! (i - 1)) as [prev|] eqn:Hp; [|done].
  assert (Hrc : reliable cur = false).
  { rewrite Forall_forall in Hall. apply Hall. by eapply list_elem_of_lookup_2. }
  assert (Hrp : reliable prev = false).
  { rewrite Forall_forall in Hall. apply Hall. by eapply list_elem_of_lookup_2. }
  repeat case_match; try done; repeat apply Forall_insert; done.
Qed.

Lemma step_plain_forget (l : list Message) (i : nat) :
  Forall (fun m => reliable m = false) l ->
  step_plain (forget <$> l) i = forget <$> step l i.
Proof.
  intros Hall. unfold step, step_plain. rewrite !list_lookup_fmap.
  destruct (l !! i) as [cur|] eqn:Hc; [|done].
  destruct (l !! (i - 1)) as [prev|] eqn:Hp; [|done]. simpl.
  assert (Hrc : reliable cur = false).
  { rewrite Forall_forall in Hall. apply Hall. by eapply list_elem_of_lookup_2. }
  assert (Hrp : reliable prev = false).
  { rewrite Forall_forall in Hall. apply Hall. by eapply list_elem_of_lookup_2. }
  rewrite Hrc, Hrp. simpl.
  repeat case_match; rewrite ?list_fmap_insert; done.
Qed.

Lemma fold_plain_forget (js : list nat) (l : list Message) :
  Forall (fun m => reliable m = false) l ->
  fold_left step_plain js (forget <$> l) = forget <$> fold_left step js l.
Proof.
  revert l. induction js as [|j js IH]; intros l Hall; simpl; [done|].
  rewrite step_plain_forget by done. apply IH. by apply step_keeps_flags.
Qed.

Lemma lift_unreliable (pl : list PlainMessage) :
  Forall (fun m => reliable m = false) (lift <$> pl).
Proof. apply Forall_fmap, Forall_forall. done. Qed.

Lemma forget_lift_list (pl : list PlainMessage) : forget <$> (lift <$> pl) = pl.
Proof.
  rewrite <- list_fmap_compose. rewrite <- (list_fmap_id pl) at 2.
  apply list_fmap_ext. intros _ m _. apply forget_lift.
Qed.

Lemma pass_plain_simulated (pl : list PlainMessage) :
  pass_plain pl = forget <$> pass (lift <$> pl).
Proof.
  unfold pass_plain, pass, pass_from.
  rewrite <- fold_plain_forget by apply lift_unreliable.
  by rewrite forget_lift_list, length_fmap.
Qed.

Lemma state_before_plain_simulated (i : nat) (pl : list PlainMessage) :
  state_before_plain i pl = forget <$> state_before i (lift <$> pl).
Proof.
  unfold state_before_plain, state_before.
  rewrite <- fold_plain_forget by apply lift_unreliable.
  by rewrite forget_lift_list.
Qed.

(** The same holds in the exporters that keep no flag, for any two
    messages labelled ChatGPT when the loop reaches them. *)
Lemma long_chatgpt_pair_stays_plain
    (pl : list PlainMessage) (i : nat) (prev cur : PlainMessage) :
  1 <= i ->
  state_before_plain i pl !! (i - 1) = Some prev ->
  state_before_plain i pl !! i = Some cur ->
  p_sender prev = ChatGPT -> p_sender cur = ChatGPT ->
  (strlen (p_content prev) * 2 < strlen (p_content cur))%Z ->
  (500 < strlen (p_content cur))%Z ->
  pass_plain pl !! (i - 1) = Some prev /\ pass_plain pl !! i = Some cur.
Proof.
  intros H1 Hp Hc Hsp Hsc Hlen H500.
  rewrite state_before_plain_simulated, list_lookup_fmap in Hp, Hc.
  destruct (state_before i (lift <$> pl) !! (i - 1)) as [p|] eqn:Hp'; [|done].
  destruct (state_before i (lift <$> pl) !! i) as [c|] eqn:Hc'; [|done].
  injection Hp as <-. injection Hc as <-.
  assert (Hflags : Forall (fun m => reliable m = false)
                     (state_before i (lift <$> pl))).
  { unfold state_before. generalize (seq 1 (i - 1)).
    generalize (lift_unreliable pl). generalize (lift <$> pl).
    intros l Hl js. revert l Hl.
    induction js as [|j js IH]; intros l Hl; simpl; [done|].
    by apply IH, step_keeps_flags. }
  rewrite Forall_forall in Hflags.
  destruct (long_chatgpt_pair_stays_aux (lift <$> pl) i p c) as (_ & Hp2 & Hc2);
    try done.
  - apply Hflags. by eapply list_elem_of_lookup_2.
  - apply Hflags. by eapply list_elem_of_lookup_2.
  - rewrite pass_plain_simulated, !list_lookup_fmap, Hp2, Hc2. done.
Qed.

End CorrectionTheorems.

Module ImageEmbedderTheorems.
Import ImageEmbedder Samples.

(** The rasteriser catches everything it raises. *)
Lemma drawImageToBase64_returns (img : Picture) :
  exists v, drawImageToBase64 img = Normal v.
Proof.
  unfold drawImageToBase64, try_catch, bind, drawImage, toDataURL.
  repeat case_match; eauto.
Qed.

Lemma drawImageToBase64_null (img : Picture) :
  raster_fails img -> drawImageToBase64 img = Normal None.
Proof.
  unfold raster_fails, zero_area, drawImageToBase64, try_catch, bind,
    drawImage, toDataURL.
  intros [[H|H]|[H|H]]; rewrite H; simpl; rewrite ?orb_true_r;
    repeat case_match; done.
Qed.

Lemma settled_stays (schedule : list Event) (v : option (list N)) :
  fold_left run_event schedule (Fulfilled v) = Fulfilled v.
Proof.
  induction schedule as [|e schedule IH]; [done|]. simpl.
  destruct e; simpl; [|done|done]. by destruct (drawImageToBase64 loaded).
Qed.

Lemma run_event_not_rejected (p : Promise) (e : Event) :
  p <> Rejected -> run_event p e <> Rejected.
Proof.
  intros Hp. destruct e; simpl; [destruct (drawImageToBase64 loaded)|..];
    destruct p; done.
Qed.

Lemma schedule_not_rejected (schedule : list Event) : forall p,
  p <> Rejected -> fold_left run_event schedule p <> Rejected.
Proof.
  induction schedule as [|e schedule IH]; intros p Hp; [done|]. simpl.
  by apply IH, run_event_not_rejected.
Qed.

Lemma schedule_settles (schedule : list Event) : forall p,
  TimerFired ∈ schedule -> p <> Rejected ->
  exists v, fold_left run_event schedule p = Fulfilled v.
Proof.
  induction schedule as [|e schedule IH]; intros p Hin Hp.
  { by apply elem_of_nil in Hin. }
  simpl. apply elem_of_cons in Hin as [<-|Hin].
  - destruct p; simpl; [|by rewrite settled_stays; eauto|done].
    rewrite settled_stays. eauto.
  - apply IH; [done|]. by apply run_event_not_rejected.
Qed.

(** C8.  The promise returned by [imageToBase64] is never rejected and is
    fulfilled once the timer has fired.  It is fulfilled with [null],
    before any load is started, when the source contains [favicon] or
    [avatar]; with [null] when the picture drawn directly has a zero
    dimension or makes the canvas raise; and, on the loading path, with
    [null] when the first callback to run is the error handler, the 5000 ms
    timer, or the load handler of a picture that has a zero dimension or
    makes the canvas raise. *)
Theorem image_embedder_null_on_failure
    (imgElement : ImgElement) (schedule : list Event) :
  snd (imageToBase64 imgElement schedule) <> Rejected /\
  (TimerFired ∈ schedule ->
     exists v, snd (imageToBase64 imgElement schedule) = Fulfilled v) /\
  (is_ui_image (src_of imgElement) = true ->
     imageToBase64 imgElement schedule = ([], Fulfilled None)) /\
  (is_ui_image (src_of imgElement) = false ->
   startsWith (src_of imgElement) (js "blob:") || complete imgElement = true ->
   raster_fails (picture imgElement) ->
     imageToBase64 imgElement schedule = ([], Fulfilled None)) /\
  (is_ui_image (src_of imgElement) = false ->
   startsWith (src_of imgElement) (js "blob:") || complete imgElement = false ->
     fst (imageToBase64 imgElement schedule)
       = [StartLoad (src_of imgElement); SetTimeout 5000] /\
     forall first rest, schedule = first :: rest ->
       first = LoadError \/ first = TimerFired \/
       (exists img, first = LoadDone img /\ raster_fails img) ->
       snd (imageToBase64 imgElement schedule) = Fulfilled None).
Proof.
  unfold imageToBase64.
  destruct (is_ui_image (src_of imgElement)) eqn:Hui.
  { simpl. repeat split; try done. eauto. }
  destruct (startsWith (src_of imgElement) (js "blob:") || complete imgElement)
    eqn:Hlocal.
  - destruct (drawImageToBase64_returns (picture imgElement)) as [v Hv].
    rewrite Hv. simpl. repeat split; try done; [eauto|].
    intros _ _ Hfail. rewrite (drawImageToBase64_null _ Hfail) in Hv.
    by injection Hv as <-.
  - simpl. split; [by apply schedule_not_rejected|].
    split; [intros Hin; by apply schedule_settles|].
    repeat split; try done.
    intros first rest -> Hfirst. simpl.
    destruct Hfirst as [->|[->|(img & -> & Hfail)]]; simpl.
    + apply settled_stays.
    + apply settled_stays.
    + rewrite (drawImageToBase64_null _ Hfail). simpl. apply settled_stays.
Qed.

Lemma image_embedder_null_on_failure_witness :
  TimerFired ∈ [TimerFired; LoadDone broken_picture] /\
  snd (imageToBase64 remote_image [TimerFired; LoadDone broken_picture])
    = Fulfilled None.
Proof.
  split; [left|].
  destruct (image_embedder_null_on_failure remote_image
              [TimerFired; LoadDone broken_picture]) as (_ & _ & _ & _ & H).
  destruct (H eq_refl eq_refl) as [_ H'].
  apply (H' TimerFired [LoadDone broken_picture] eq_refl). right. by left.
Defined.

End ImageEmbedderTheorems.

Module ShapeFacts.
Import Cleanup Shape Output JSFacts StripFacts.

(** *** [replace(/p+/g, rep)] writes [rep] for every maximal run *)

Lemma replace_run_squeeze (p : N -> bool) (rep s : list N) : forall prev,
  replace_from (m_run p 1) rep 0 prev s = squeeze p rep false s /\
  replace_from (m_run p 1) rep (length (takeWhile p s)) prev s
    = squeeze p rep true s.
Proof.
  induction s as [|c r IH]; intros prev; [done|].
  assert (Hzero : replace_from (m_run p 1) rep 0 prev (c :: r)
                  = squeeze p rep false (c :: r)).
  { cbn [replace_from squeeze]. unfold m_run at 1. cbn [takeWhile].
    destruct (p c) eqn:Hc.
    - cbn [length Nat.leb]. by rewrite (proj2 (IH (Some c))).
    - cbn [length Nat.leb]. by rewrite (proj1 (IH (Some c))). }
  split; [exact Hzero|].
  cbn [takeWhile squeeze]. destruct (p c) eqn:Hc.
  - cbn [length replace_from]. apply IH.
  - cbn [length]. rewrite Hzero. cbn [squeeze]. by rewrite Hc.
Qed.

Lemma replace_all_squeeze (p : N -> bool) (rep s : list N) :
  replace_all (m_run p 1) rep s = squeeze p rep false s.
Proof. apply replace_run_squeeze. Qed.

Lemma elem_of_squeeze (p : N -> bool) (rep : list N) (x : N) (s : list N) :
  forall b, x ∈ squeeze p rep b s -> x ∈ rep \/ (x ∈ s /\ p x = false).
Proof.
  induction s as [|c r IH]; intros b H; [by apply elem_of_nil in H|].
  cbn [squeeze] in H. destruct (p c) eqn:Hc; [destruct b|].
  - destruct (IH _ H) as [?|[? ?]]; [by left|right]. split; [by right|done].
  - apply elem_of_app in H as [H|H]; [by left|].
    destruct (IH _ H) as [?|[? ?]]; [by left|right]. split; [by right|done].
  - apply elem_of_cons in H as [->|H]; [right; split; [left|done]|].
    destruct (IH _ H) as [?|[? ?]]; [by left|right]. split; [by right|done].
Qed.

Lemma length_squeeze (p : N -> bool) (c : N) (s : list N) : forall b,
  length (squeeze p [c] b s) <= length s.
Proof.
  induction s as [|x r IH]; intros b; [done|]. cbn [squeeze].
  pose proof (IH true). pose proof (IH false).
  destruct (p x); [destruct b|]; simpl; lia.
Qed.

(** *** Collapsed white space *)

Lemma single_spaced_squeeze (s : list N) : forall b,
  single_spaced b (squeeze isWhiteSpace [SP] b s).
Proof.
  induction s as [|c r IH]; intros b; [done|]. cbn [squeeze].
  destruct (isWhiteSpace c) eqn:Hc; [destruct b|].
  - apply IH.
  - cbn [app single_spaced]. change (isWhiteSpace SP) with true. cbn iota.
    split; [done|]. split; [done|]. apply IH.
  - cbn [single_spaced]. rewrite Hc. apply IH.
Qed.

Lemma single_spaced_dropWhile (s : list N) : forall b b',
  single_spaced b s -> single_spaced b' (dropWhile isWhiteSpace s).
Proof.
  induction s as [|c r IH]; intros b b' H; [done|].
  cbn [dropWhile]. cbn [single_spaced] in H.
  destruct (isWhiteSpace c) eqn:Hc.
  - destruct H as (_ & _ & H). by eapply IH.
  - cbn [single_spaced]. by rewrite Hc.
Qed.

Lemma single_spaced_prefix (a w : list N) : forall b,
  single_spaced b (a ++ w) -> single_spaced b a.
Proof.
  induction a as [|c a IH]; intros b H; [done|].
  cbn [app single_spaced] in *. destruct (isWhiteSpace c).
  - destruct H as (? & ? & H). repeat split; try done. by apply IH.
  - by apply IH.
Qed.

Lemma single_spaced_trim (s : list N) (b : bool) :
  single_spaced b s -> single_spaced false (trim s).
Proof.
  intros H. unfold trim.
  destruct (trimEnd_prefix (trimStart s)) as [w Hw].
  apply (single_spaced_prefix _ w). rewrite <- Hw.
  by eapply single_spaced_dropWhile.
Qed.

Lemma squeeze_fixed (s : list N) : forall b,
  single_spaced b s -> squeeze isWhiteSpace [SP] b s = s.
Proof.
  induction s as [|c r IH]; intros b H; [done|].
  cbn [squeeze single_spaced] in *. destruct (isWhiteSpace c).
  - destruct H as (-> & -> & H). cbn [app]. by rewrite IH.
  - by rewrite IH.
Qed.

(** *** Trimmed strings *)

Lemma last_rev (l : list N) : last (rev l) = head l.
Proof. destruct l as [|x l]; [done|]. simpl. by rewrite last_snoc. Qed.

Lemma head_dropWhile (p : N -> bool) (s : list N) :
  match head (dropWhile p s) with Some c => p c = false | None => True end.
Proof.
  induction s as [|c r IH]; [done|]. cbn [dropWhile].
  destruct (p c) eqn:Hc; [done|]. done.
Qed.

Lemma trimmed_trim (s : list N) : trimmed (trim s).
Proof.
  unfold trimmed, trim. split.
  - destruct (trimStart_head s) as [->|(c & r & -> & Hc)]; [done|].
    by rewrite trimEnd_cons.
  - unfold trimEnd. rewrite last_rev. apply head_dropWhile.
Qed.

Lemma trim_fixed (s : list N) : trimmed s -> trim s = s.
Proof.
  intros [Hh Hl]. unfold trim.
  assert (trimStart s = s) as ->.
  { destruct s as [|c r]; [done|]. unfold trimStart. cbn [dropWhile].
    by rewrite Hh. }
  pose proof (last_rev (rev s)) as E. rewrite rev_involutive in E.
  rewrite E in Hl. unfold trimEnd.
  assert (dropWhile isWhiteSpace (rev s) = rev s) as ->;
    [|apply rev_involutive].
  destruct (rev s) as [|c r]; [done|]. cbn [dropWhile]. simpl in Hl.
  by rewrite Hl.
Qed.

Lemma length_dropWhile (p : N -> bool) (s : list N) :
  length (dropWhile p s) <= length s.
Proof.
  destruct (dropWhile_suffix p s) as [w Hw]. rewrite Hw at 2.
  rewrite length_app. lia.
Qed.

Lemma length_trim (s : list N) : length (trim s) <= length s.
Proof.
  unfold trim, trimEnd, trimStart. rewrite length_rev.
  etrans; [apply length_dropWhile|]. rewrite length_rev.
  apply length_dropWhile.
Qed.

(** *** A class replaced by nothing is a filter *)

Lemma replace_class_filter (p : N -> bool) (s : list N) : forall prev,
  replace_from (m_class p) [] 0 prev s
  = List.filter (fun c => negb (p c)) s.
Proof.
  induction s as [|c r IH]; intros prev; [done|].
  cbn [replace_from List.filter]. unfold m_class at 1.
  destruct (p c); cbn [negb app]; by rewrite IH.
Qed.

Lemma replace_keeps (P : N -> Prop) (m : matcher) (rep s : list N) :
  Forall P rep -> Forall P s ->
  forall k prev, Forall P (replace_from m rep k prev s).
Proof.
  intros Hrep Hs. induction Hs as [|c r Hc Hr IH]; intros k prev; [done|].
  cbn [replace_from]. destruct k as [|k]; [|apply IH].
  destruct (m prev (c :: r)) as [[|j]|].
  - constructor; [done|apply IH].
  - apply Forall_app. split; [done|apply IH].
  - constructor; [done|apply IH].
Qed.

End ShapeFacts.

Module OutputTheorems.
Import Cleanup Shape Output Assembler JSFacts StripFacts ShapeFacts Fixtures.

Lemma safeTitle_units (documentTitle : list N) (x : N) :
  x ∈ safeTitle documentTitle ->
  x = SP \/ (x ∈ documentTitle /\ is_reserved x = false).
Proof.
  unfold safeTitle. intros H%elem_of_trim.
  rewrite replace_all_squeeze in H.
  apply elem_of_squeeze in H as [H|[H _]].
  - left. by apply list_elem_of_singleton in H.
  - right. unfold replace_all in H. rewrite replace_class_filter in H.
    apply TreeFacts.elem_of_filter_list in H as [H1 H2].
    split; [done|]. by apply negb_true_iff.
Qed.

Lemma safeTitle_unreserved (documentTitle : list N) :
  Forall (fun c => is_reserved c = false) (safeTitle documentTitle).
Proof. apply Forall_forall. intros x [->|[_ H]]%safeTitle_units; done. Qed.

(** X29.  The title part of the download name contains none of the
    characters removed by the first replacement, every white-space
    unit in it is a single space between two other units, and cleaning
    a cleaned title changes nothing. *)
Theorem safeTitle_is_clean (documentTitle : list N) :
  Forall (fun c => is_reserved c = false) (safeTitle documentTitle) /\
  single_spaced false (safeTitle documentTitle) /\
  trimmed (safeTitle documentTitle) /\
  safeTitle (safeTitle documentTitle) = safeTitle documentTitle.
Proof.
  pose proof (safeTitle_unreserved documentTitle) as Hres.
  assert (Hsp : single_spaced false (safeTitle documentTitle)).
  { unfold safeTitle. rewrite replace_all_squeeze.
    eapply single_spaced_trim. apply single_spaced_squeeze. }
  assert (Htr : trimmed (safeTitle documentTitle)) by apply trimmed_trim.
  repeat split; try done; try apply Htr.
  set (t := safeTitle documentTitle) in *. unfold safeTitle at 1.
  unfold replace_all at 2. rewrite replace_class_filter.
  assert (List.filter (fun c => negb (is_reserved c)) t = t) as ->.
  { clear -Hres. induction Hres as [|c r Hc Hr IH]; [done|].
    cbn [List.filter]. by rewrite Hc, IH. }
  rewrite replace_all_squeeze, squeeze_fixed by done.
  by apply trim_fixed.
Qed.

(** X30.  When the date contains none of the reserved characters, neither
    does the name under which the document is downloaded, in the Markdown
    exporters and in the HTML exporter. *)
Theorem download_name_has_no_reserved_character
    (documentTitle date : list N) :
  Forall (fun c => is_reserved c = false) date ->
  Forall (fun c => is_reserved c = false) (download_md documentTitle date) /\
  Forall (fun c => is_reserved c = false) (download_html documentTitle date).
Proof.
  intros Hd.
  pose proof (safeTitle_unreserved documentTitle) as Ht.
  unfold download_md, download_html, download.
  split; destruct (truthy (safeTitle documentTitle));
    repeat (apply Forall_app; split); try done;
    by (apply Forall_forall; intros x Hx; vm_compute in Hx;
        repeat (apply elem_of_cons in Hx as [->|Hx]; [reflexivity|]);
        apply elem_of_nil in Hx).
Qed.

Lemma download_name_has_no_reserved_character_witness :
  Forall (fun c => is_reserved c = false) dated /\
  Forall (fun c => is_reserved c = false) (download_md (js "a/b: c?") dated).
Proof.
  assert (H : Forall (fun c => is_reserved c = false) dated)
    by (vm_compute; repeat constructor).
  split; [exact H|].
  destruct (download_name_has_no_reserved_character (js "a/b: c?") dated H)
    as [Hm _].
  exact Hm.
Defined.

(** X20.  The fingerprint used to detect duplicates has at most 100 code
    units, every white-space unit in it is a single space between two
    other units, and it neither begins nor ends with white space. *)
Theorem contentHash_is_short_and_normalised (s : list N) :
  length (contentHash s) <= 100 /\
  single_spaced false (contentHash s) /\
  trimmed (contentHash s).
Proof.
  unfold contentHash. rewrite replace_all_squeeze. split; [|split].
  - etrans; [apply length_trim|]. etrans; [apply length_squeeze|].
    unfold substring0. rewrite length_take. lia.
  - eapply single_spaced_trim. apply single_spaced_squeeze.
  - apply trimmed_trim.
Qed.

(** *** The document is the header followed by one block per message *)

Lemma join_snoc (sep : list N) (l : list (list N)) (x : list N) :
  l <> [] -> join sep (l ++ [x]) = join sep l ++ sep ++ x.
Proof.
  induction l as [|y l IH]; [done|]. intros _.
  destruct l as [|z l]; [done|].
  change (join sep ((y :: z :: l) ++ [x]))
    with (y ++ sep ++ join sep ((z :: l) ++ [x])).
  rewrite IH by done. change (join sep (y :: z :: l))
    with (y ++ sep ++ join sep (z :: l)).
  by rewrite <- !app_assoc.
Qed.

Lemma join_fold_push {A} (push : list (list N) -> A -> list (list N))
    (blk : A -> list N) (ms : list A) :
  (forall lines m, lines <> [] ->
     push lines m <> [] /\
     join [NL] (push lines m) = join [NL] lines ++ blk m) ->
  forall lines, lines <> [] ->
  join [NL] (fold_left push ms lines) = join [NL] lines ++ flat_map blk ms.
Proof.
  intros Hpush. induction ms as [|m ms IH]; intros lines Hne; simpl.
  { by rewrite app_nil_r. }
  destruct (Hpush lines m Hne) as [Hne' Hj].
  rewrite IH by done. rewrite Hj. by rewrite <- app_assoc.
Qed.

Lemma push_md_block (lines : list (list N)) (m : PlainMessage) :
  lines <> [] ->
  push_md lines m <> [] /\
  join [NL] (push_md lines m)
  = join [NL] lines ++
    block (sender_name (p_sender m) ++ js "**") (p_content m).
Proof.
  intros Hne. unfold push_md. split.
  { destruct lines; [done|]. done. }
  cbv zeta. rewrite !join_snoc; try done.
  - unfold block. by rewrite <- !app_assoc.
  - destruct lines; done.
  - destruct lines; done.
Qed.

Lemma push_b64_block (lines : list (list N)) (m : Message) :
  lines <> [] ->
  push_b64 lines m <> [] /\
  join [NL] (push_b64 lines m)
  = join [NL] lines ++
    block (sender_name (sender m) ++ js "**" ++
           match replyLabel m with
           | Some (c :: l) => js " (" ++ (c :: l) ++ js ")"
           | _ => []
           end) (content m).
Proof.
  intros Hne. unfold push_b64. split.
  { destruct lines; [done|]. done. }
  cbv zeta. rewrite !join_snoc; try done.
  - unfold block. destruct (replyLabel m) as [[|c l]|];
      cbn [truthy]; by rewrite <- !app_assoc.
  - destruct lines; done.
  - destruct lines; done.
Qed.

(** X28.  The Markdown document is the four header lines followed by one
    block per exported message, in order: an empty line, the heading with
    the sender in bold (in the base64 exporter followed by the reply label
    in parentheses when there is a non-empty one), an empty line, the
    content, an empty line and a rule.  What a message contributes does not
    depend on its neighbours. *)
Theorem markdown_document_is_header_and_blocks
    (title date url : list N) :
  (forall processedMessages : list PlainMessage,
     markdownContent_md title date url processedMessages
     = join [NL] (header title date url) ++
       flat_map (fun m =>
         block (sender_name (p_sender m) ++ js "**") (p_content m))
         processedMessages) /\
  (forall processedMessages : list Message,
     markdownContent_b64 title date url processedMessages
     = join [NL] (header title date url) ++
       flat_map (fun m =>
         block (sender_name (sender m) ++ js "**" ++
                match replyLabel m with
                | Some (c :: l) => js " (" ++ (c :: l) ++ js ")"
                | _ => []
                end) (content m))
         processedMessages).
Proof.
  split; intros ms.
  - unfold markdownContent_md.
    apply (join_fold_push push_md); [apply push_md_block|done].
  - unfold markdownContent_b64.
    apply (join_fold_push push_b64); [apply push_b64_block|done].
Qed.

End OutputTheorems.

Module ConverterProperties.
Import Cleanup Shape JSFacts StripFacts CleanupTheorems TreeFacts ListFacts
  ConverterFacts ConverterTheorems ShapeFacts Samples Fixtures.

(** Evaluate the tag tests of an element whose tag is the literal [t]. *)
Ltac tag_tests_for t Htag :=
  repeat match goal with
  | |- context [tag_is ?e ?s] =>
      let b := eval vm_compute in (str_eqb (js t) (js s)) in
      replace (tag_is e s) with b
        by (unfold tag_is; rewrite Htag; vm_compute; reflexivity)
  | |- context [tag_in ?e ?l] =>
      let b := eval vm_compute in (existsb (fun s => str_eqb (js t) (js s)) l) in
      replace (tag_in e l) with b
        by (unfold tag_in, tag_is; rewrite Htag; vm_compute; reflexivity)
  end.

(** *** The clean-up *)

(** X16.  Whatever the input, the cleaned text neither begins nor ends
    with white space, and the pattern that strips leading blanks matches
    nowhere in it: no line of the output begins with a space or a tab,
    except for blanks that stand directly before a code fence. *)
Theorem cleanMarkdown_output_is_trimmed_and_unindented (text : list N) :
  trimmed (cleanMarkdown text) /\ never m_indent None (cleanMarkdown text).
Proof.
  unfold cleanMarkdown. split; [apply trimmed_trim|].
  eapply never_indent_trim. apply (never_indent_strip None).
Qed.

Lemma trim_white (s : list N) :
  Forall (fun c => isWhiteSpace c = true) s -> trim s = [].
Proof.
  intros H. unfold trim.
  assert (trimStart s = []) as ->; [|done].
  unfold trimStart. induction H as [|c r Hc Hr IH]; [done|].
  cbn [dropWhile]. by rewrite Hc.
Qed.

(** X17.  A text that consists of white space only is cleaned to the empty
    string. *)
Theorem cleanMarkdown_of_white_space_is_empty (text : list N) :
  Forall (fun c => isWhiteSpace c = true) text -> cleanMarkdown text = [].
Proof.
  intros H. rewrite Forall_forall in H.
  rewrite cleanMarkdown_without_entities.
  - apply trim_white, Forall_forall. intros x Hx.
    apply H. by apply elem_of_strip, elem_of_cap in Hx.
  - intros Hamp. by apply H in Hamp.
Qed.

Lemma cleanMarkdown_of_white_space_is_empty_witness :
  Forall (fun c => isWhiteSpace c = true) [SP; NL; 9%N; NL; NL; NL; SP] /\
  cleanMarkdown [SP; NL; 9%N; NL; NL; NL; SP] = [].
Proof.
  assert (H : Forall (fun c => isWhiteSpace c = true)
                [SP; NL; 9%N; NL; NL; NL; SP]) by (repeat constructor).
  split; [exact H|].
  exact (cleanMarkdown_of_white_space_is_empty _ H).
Defined.

(** *** Escaping *)

Lemma escape_units_injective (a : list N) : forall b,
  flat_map escape_unit a = flat_map escape_unit b -> a = b.
Proof.
  induction a as [|x a IH]; intros [|y b] H.
  - done.
  - exfalso. cbn [flat_map] in H. unfold escape_unit in H.
    destruct ((y =? 92) || (y =? 91) || (y =? 93))%N; discriminate H.
  - exfalso. cbn [flat_map] in H. unfold escape_unit in H.
    destruct ((x =? 92) || (x =? 91) || (x =? 93))%N; discriminate H.
  - cbn [flat_map] in H. unfold escape_unit in H.
    destruct ((x =? 92) || (x =? 91) || (x =? 93))%N eqn:Hx;
      destruct ((y =? 92) || (y =? 91) || (y =? 93))%N eqn:Hy;
      cbn [app] in H.
    + injection H as -> H. f_equal. by apply IH.
    + injection H as <- _. done.
    + injection H as -> _. done.
    + injection H as -> H. f_equal. by apply IH.
Qed.

(** X14.  Escaping link text loses nothing: two texts with the same
    escaped form are equal. *)
Theorem escapeMarkdownText_is_injective (a b : list N) :
  escapeMarkdownText a = escapeMarkdownText b -> a = b.
Proof. rewrite !escapeMarkdownText_units. apply escape_units_injective. Qed.

Lemma escapeMarkdownText_is_injective_witness :
  escapeMarkdownText (js "a[1]") = escapeMarkdownText (js "a[1]") /\
  js "a[1]" = js "a[1]".
Proof.
  split; [reflexivity|].
  exact (escapeMarkdownText_is_injective (js "a[1]") (js "a[1]") eq_refl).
Defined.

(** X15.  Escaping works unit by unit: the escaped form of a concatenation
    is the concatenation of the escaped forms, although the function makes
    three passes, each over the output of the one before. *)
Theorem escapeMarkdownText_distributes (a b : list N) :
  escapeMarkdownText (a ++ b) = escapeMarkdownText a ++ escapeMarkdownText b.
Proof. rewrite !escapeMarkdownText_units. apply flat_map_app. Qed.

(** *** Flattened text *)

Lemma newline_replaced (s : list N) :
  NL ∉ replace_all (m_lit [NL]) [SP] s.
Proof.
  unfold replace_all. rewrite replace_unit.
  intros (x & _ & Hx)%elem_of_flat_map.
  destruct (N.eqb_spec x NL) as [Heq|Hne].
  - apply list_elem_of_singleton in Hx. discriminate Hx.
  - apply list_elem_of_singleton in Hx. congruence.
Qed.

(** X12.  The flattened text of an element, used for headings and for
    link text, contains no newline and neither begins nor ends with white
    space. *)
Theorem getTextContent_is_one_trimmed_line
    (v : Variant) (anc : list (list N)) (element : Node) :
  (NL ∉ getTextContent v anc element) /\
  trimmed (getTextContent v anc element).
Proof.
  unfold getTextContent, getTextContent_body. split; [|apply trimmed_trim].
  intros H%elem_of_trim. rewrite replace_all_squeeze in H.
  apply elem_of_squeeze in H as [H|[_ H]].
  - apply list_elem_of_singleton in H. discriminate H.
  - discriminate H.
Qed.

(** *** Tables *)

Lemma fold_snoc_map {A B} (f : A -> B) (l : list A) : forall acc,
  fold_left (fun cells cell => cells ++ [f cell]) l acc = acc ++ map f l.
Proof.
  induction l as [|x l IH]; intros acc; simpl; [by rewrite app_nil_r|].
  by rewrite IH, <- app_assoc.
Qed.

Lemma cell_text_line rec (cell : list (list N) * Node) :
  NL ∉ cell_text rec cell.
Proof.
  unfold cell_text. intros H%elem_of_trim. by apply newline_replaced in H.
Qed.

Lemma join_line (sep : list N) (cells : list (list N)) :
  NL ∉ sep -> Forall (fun c => NL ∉ c) cells -> NL ∉ join sep cells.
Proof.
  intros Hsep Hall. induction Hall as [|c cells Hc Hcs IH].
  { apply not_elem_of_nil. }
  destruct cells as [|d cells]; [done|].
  change (join sep (c :: d :: cells)) with (c ++ sep ++ join sep (d :: cells)).
  rewrite !elem_of_app. tauto.
Qed.

Lemma table_row_line (cells : list (list N)) :
  Forall (fun c => NL ∉ c) cells -> NL ∉ table_row cells.
Proof.
  intros Hall. unfold table_row. rewrite !elem_of_app.
  intros [H|[H|H]].
  - vm_compute in H. repeat (apply elem_of_cons in H as [H|H]; [discriminate H|]).
    by apply elem_of_nil in H.
  - revert H. apply join_line; [|done]. intros H. vm_compute in H.
    repeat (apply elem_of_cons in H as [H|H]; [discriminate H|]).
    by apply elem_of_nil in H.
  - vm_compute in H. repeat (apply elem_of_cons in H as [H|H]; [discriminate H|]).
    by apply elem_of_nil in H.
Qed.

(** X11.  A table is converted either to the empty string or to a block,
    framed by blank lines, of one or more rows joined by newlines; every
    row is a pipe-delimited line of at least one cell and contains no
    newline, whatever the cells contain. *)
Theorem table_rows_are_single_lines
    (v : Variant) (anc : list (list N)) (table : Node) :
  convertTableToMarkdown v anc table = [] \/
  exists rows,
    rows <> [] /\
    Forall (fun r => (NL ∉ r) /\
              exists cells, cells <> [] /\ r = table_row cells) rows /\
    convertTableToMarkdown v anc table = nl2 ++ join [NL] rows ++ nl2.
Proof.
  unfold convertTableToMarkdown, convertTableToMarkdown_body.
  set (rec := convertElementToMarkdown v).
  set (Q := fun r : list N => (NL ∉ r) /\
              exists cells, cells <> [] /\ r = table_row cells).
  assert (Hrow : forall sel a row,
            let cells := fold_left (fun cells cell => cells ++ [cell_text rec cell])
                           (querySelectorAll sel a row) [] in
            (0 <? length cells)%nat = true -> Q (table_row cells)).
  { intros sel a row cells Hlen. subst cells. rewrite fold_snoc_map in *.
    cbn [app] in *. split.
    - apply table_row_line, Forall_forall. intros c Hc.
      apply list_elem_of_In, in_map_iff in Hc as (cell & <- & _).
      apply cell_text_line.
    - eexists. split; [|reflexivity].
      destruct (map _ _); [discriminate Hlen|done]. }
  match goal with
  | |- context [fold_left ?f ?l ?r0] =>
      set (body := f); set (bodyRows := l); set (rows0 := r0)
  end.
  assert (H0 : Forall Q rows0).
  { subst rows0.
    destruct (querySelector (sel_under "thead" "tr") anc table)
      as [[hanc hrow]|]; [|done].
    cbv zeta.
    destruct (0 <? length _)%nat eqn:Hlen; [|done].
    constructor; [by apply Hrow|]. constructor; [|done].
    rewrite fold_snoc_map in *. cbn [app] in *. split.
    - apply table_row_line, Forall_forall. intros c Hc.
      apply list_elem_of_In, in_map_iff in Hc as (h & <- & _).
      intros H. vm_compute in H.
      repeat (apply elem_of_cons in H as [H|H]; [discriminate H|]).
      by apply elem_of_nil in H.
    - eexists. split; [|reflexivity].
      destruct (map _ (querySelectorAll _ _ _)); [discriminate Hlen|done]. }
  assert (Hall : Forall Q (fold_left body bodyRows rows0)).
  { clearbody rows0. clear -H0 Hrow. revert rows0 H0.
    induction bodyRows as [|tr trs IH]; intros rows0 H0; [done|].
    cbn [fold_left]. apply IH. subst body. cbv beta zeta.
    destruct (0 <? length _)%nat eqn:Hlen; [|done].
    apply Forall_app. split; [done|]. constructor; [|done]. by apply Hrow. }
  destruct (fold_left body bodyRows rows0) as [|r rows] eqn:Hrows.
  - by left.
  - right. exists (r :: rows). split; [done|]. split; [done|]. done.
Qed.

(** *** The two Markdown converters *)

Lemma body_without_base64 rec recL anc element :
  attr_or_empty element "data-base64" = [] ->
  convertElementToMarkdown_body Base64Markdown rec recL anc element
  = convertElementToMarkdown_body PlainMarkdown rec recL anc element.
Proof.
  intros H. destruct element as [d| |t a w cs]; [done|done|].
  unfold convertElementToMarkdown_body, dispatch, convertImage.
  rewrite H. reflexivity.
Qed.

Lemma convert_fuel_without_base64 : forall f1 f2 anc n,
  height n < f1 -> height n < f2 ->
  (forall d, d ∈ n :: subnodes n -> attr_or_empty d "data-base64" = []) ->
  convert_fuel Base64Markdown f1 anc n = convert_fuel PlainMarkdown f2 anc n.
Proof.
  induction f1 as [|f1 IH]; intros f2 anc n H1 H2 Hno; [lia|].
  destruct f2 as [|f2]; [lia|]. cbn [convert_fuel].
  rewrite body_without_base64 by (apply Hno; left).
  assert (Hsub : forall a d, d ∈ subnodes n ->
            convert_fuel Base64Markdown f1 a d = convert_fuel PlainMarkdown f2 a d).
  { intros a d Hd. pose proof (height_subnode _ _ Hd).
    apply IH; [lia|lia|]. intros x Hx. apply Hno. right.
    apply elem_of_cons in Hx as [->|Hx]; [done|].
    by eapply subnodes_trans. }
  apply convertElementToMarkdown_body_ext; [done|].
  intros a k. apply convertList_fuel_ext; [lia|lia|done].
Qed.

(** X13.  On a tree in which no element carries a non-empty [data-base64]
    attribute, the converter of the base64 Markdown exporter and the
    converter of the plain Markdown exporter produce the same text. *)
Theorem converters_agree_without_embedded_images
    (anc : list (list N)) (element : Node) :
  (forall d, d ∈ element :: subnodes element ->
     attr_or_empty d "data-base64" = []) ->
  convertElementToMarkdown Base64Markdown anc element
  = convertElementToMarkdown PlainMarkdown anc element.
Proof.
  intros Hno. unfold convertElementToMarkdown.
  apply convert_fuel_without_base64; [lia|lia|done].
Qed.

Lemma converters_agree_without_embedded_images_witness :
  (forall d, d ∈ copy_button :: subnodes copy_button ->
     attr_or_empty d "data-base64" = []) /\
  convertElementToMarkdown Base64Markdown [] copy_button
  = convertElementToMarkdown PlainMarkdown [] copy_button.
Proof.
  assert (H : forall d, d ∈ copy_button :: subnodes copy_button ->
                attr_or_empty d "data-base64" = []).
  { intros d Hd. vm_compute in Hd.
    repeat (apply elem_of_cons in Hd as [->|Hd]; [reflexivity|]).
    by apply elem_of_nil in Hd. }
  split; [exact H|].
  exact (converters_agree_without_embedded_images [] copy_button H).
Defined.

(** *** Tags without a rule of their own *)

Lemma fold_app_flat_map {A} (f : A -> list N) (l : list A) : forall acc,
  fold_left (fun result child => result ++ f child) l acc = acc ++ flat_map f l.
Proof.
  induction l as [|x l IH]; intros acc; simpl; [by rewrite app_nil_r|].
  by rewrite IH, <- app_assoc.
Qed.

Lemma processChildNodes_flat_map (v : Variant) anc element :
  processChildNodes v anc element
  = flat_map (convertElementToMarkdown v (tagOf element :: anc))
      (childrenOf element).
Proof.
  unfold processChildNodes, processChildNodes_body.
  by rewrite fold_app_flat_map.
Qed.

(** X8.  An element whose tag has no rule of its own (any tag other
    than the skipped and the specially converted ones, for instance
    [span], [div] or [u]) and whose class is not suppressed is
    transparent: its conversion is the concatenation of the conversions
    of its child nodes, in order. *)
Theorem unhandled_tags_are_transparent
    (v : Variant) (anc : list (list N))
    (t : list N) (a : list (list N * list N)) (w : Z) (cs : list Node) :
  tag_in (Element t a w cs) handled_tags = false ->
  suppressed_class (className (Element t a w cs)) = false ->
  convertElementToMarkdown v anc (Element t a w cs)
  = flat_map (convertElementToMarkdown v (t :: anc)) cs.
Proof.
  intros Htag Hcls. rewrite convertElementToMarkdown_eq.
  change (flat_map (convertElementToMarkdown v (t :: anc)) cs)
    with (flat_map
            (convertElementToMarkdown v (tagOf (Element t a w cs) :: anc))
            (childrenOf (Element t a w cs))).
  rewrite <- (processChildNodes_flat_map v anc (Element t a w cs)).
  unfold convertElementToMarkdown_body, dispatch. rewrite Hcls.
  unfold tag_in, handled_tags in Htag. cbn [existsb] in Htag.
  repeat (apply orb_false_elim in Htag as [? Htag]).
  unfold tag_in. cbn [existsb].
  repeat match goal with
  | H : tag_is _ _ = false |- _ => rewrite ?H; clear H
  end.
  cbn [orb]. fold (processChildNodes v anc (Element t a w cs)).
  by repeat case_match.
Qed.

Lemma unhandled_tags_are_transparent_witness :
  tag_in underlined handled_tags = false /\
  suppressed_class (className underlined) = false /\
  convertElementToMarkdown PlainMarkdown [] underlined
  = flat_map (convertElementToMarkdown PlainMarkdown [js "u"])
      [txt "a"; el "b" [] [txt "c"]].
Proof.
  split; [reflexivity|]. split; [reflexivity|].
  exact (unhandled_tags_are_transparent PlainMarkdown [] (js "u") [] 0
           [txt "a"; el "b" [] [txt "c"]] eq_refl eq_refl).
Defined.

(** *** Code blocks *)

Lemma takeWhile_Forall (p : N -> bool) (s : list N) :
  Forall (fun c => p c = true) (takeWhile p s).
Proof.
  induction s as [|c r IH]; [constructor|]. cbn [takeWhile].
  destruct (p c) eqn:Hc; [by constructor|constructor].
Qed.

Lemma language_match_alnum (s l : list N) :
  language_match s = Some l -> Forall (fun c => is_alnum c = true) l.
Proof.
  induction s as [|c r IH]; [done|]. cbn [language_match].
  destruct (startsWith (c :: r) (js "language-")); [|exact IH].
  pose proof (takeWhile_Forall is_alnum (drop 9 (c :: r))) as Hall.
  destruct (takeWhile is_alnum (drop 9 (c :: r))) as [|x run]; [exact IH|].
  by intros [= <-].
Qed.

(** X10.  A [pre] element whose class is not suppressed is converted to a
    fenced block framed by blank lines whose body is the raw text of the
    element, trimmed: markup inside it is not converted.  The language tag
    after the opening fence consists of ASCII letters and digits only,
    whatever the class attribute of the inner [code] element contains. *)
Theorem code_block_keeps_raw_text
    (v : Variant) (anc : list (list N)) (element : Node) :
  isElement element = true ->
  tag_is element "pre" = true ->
  suppressed_class (className element) = false ->
  exists lang,
    Forall (fun c => is_alnum c = true) lang /\
    convertElementToMarkdown v anc element
    = nl2 ++ js "```" ++ lang ++ [NL] ++ trim (textContent element) ++
      [NL] ++ js "```" ++ nl2.
Proof.
  intros He Htag Hcls. rewrite convertElementToMarkdown_eq.
  destruct element as [d| |t a w cs]; try discriminate He.
  unfold convertElementToMarkdown_body. rewrite Hcls.
  apply str_eqb_eq in Htag. unfold dispatch.
  tag_tests_for "pre" Htag. cbn iota.
  destruct (querySelector (sel_tag "code") anc (Element t a w cs))
    as [[canc c]|]; [|by exists []].
  destruct (language_match (className c)) as [l|] eqn:Hl; [|by exists []].
  exists l. split; [|done]. by eapply language_match_alnum.
Qed.

Lemma code_block_keeps_raw_text_witness :
  let block :=
    el "pre" [] [el "code" [("class", "hljs language-c++ x")]
                   [txt " int "; el "b" [] [txt "x"]; txt "; "]] in
  isElement block = true /\ tag_is block "pre" = true /\
  suppressed_class (className block) = false /\
  exists lang,
    Forall (fun c => is_alnum c = true) lang /\
    convertElementToMarkdown PlainMarkdown [] block
    = nl2 ++ js "```" ++ lang ++ [NL] ++ js "int x;" ++ [NL] ++ js "```" ++ nl2.
Proof.
  intros block. split; [reflexivity|]. split; [reflexivity|].
  split; [reflexivity|].
  exact (code_block_keeps_raw_text PlainMarkdown [] block
           eq_refl eq_refl eq_refl).
Defined.

(** *** Images *)

(** X9.  An image whose class is not suppressed is converted to the
    empty string when its source contains [favicon] or [avatar], its class
    contains [icon], or its width is non-zero and below 48; otherwise to
    an image link framed by blank lines whose description is never empty
    and never starts with [http]. *)
Theorem image_markup_has_a_description
    (v : Variant) (anc : list (list N)) (element : Node) :
  isElement element = true ->
  tag_is element "img" = true ->
  suppressed_class (className element) = false ->
  let ui :=
    includes (attr_or_empty element "src") (js "favicon") ||
    includes (attr_or_empty element "src") (js "avatar") ||
    includes (className element) (js "icon") ||
    (negb (widthOf element =? 0)%Z && (widthOf element <? 48)%Z) in
  (ui = true -> convertElementToMarkdown v anc element = []) /\
  (ui = false ->
   exists imgAlt target,
     imgAlt <> [] /\ startsWith imgAlt (js "http") = false /\
     convertElementToMarkdown v anc element
     = nl2 ++ js "![" ++ imgAlt ++ js "](" ++ target ++ js ")" ++ nl2).
Proof.
  intros He Htag Hcls ui. rewrite convertElementToMarkdown_eq.
  destruct element as [d| |t a w cs]; try discriminate He.
  unfold convertElementToMarkdown_body. rewrite Hcls.
  apply str_eqb_eq in Htag. unfold dispatch.
  tag_tests_for "img" Htag. cbn iota.
  unfold convertImage. fold ui. split; [by intros ->|]. intros ->.
  set (alt := attr_or_empty (Element t a w cs) "alt").
  set (imgAlt := if truthy alt && negb (startsWith alt (js "http"))
                 then alt else js "Image").
  assert (HA : imgAlt <> [] /\ startsWith imgAlt (js "http") = false).
  { subst imgAlt. destruct alt as [|c r]; [done|]. cbn [truthy andb].
    destruct (startsWith (c :: r) (js "http")) eqn:Hh; cbn [negb];
      [done|]. split; [done|exact Hh]. }
  destruct HA as [HA1 HA2].
  set (base64Data := match v with
                     | PlainMarkdown => []
                     | Base64Markdown =>
                         attr_or_empty (Element t a w cs) "data-base64"
                     end).
  clearbody imgAlt base64Data.
  destruct (truthy base64Data);
    eexists imgAlt, _; (split; [done|]); (split; [done|]); reflexivity.
Qed.

Lemma image_markup_has_a_description_witness :
  let img := el "img" [("src", "blob:https://x/y"); ("alt", "http://x")] [] in
  isElement img = true /\ tag_is img "img" = true /\
  suppressed_class (className img) = false /\
  exists imgAlt target,
    imgAlt <> [] /\ startsWith imgAlt (js "http") = false /\
    convertElementToMarkdown PlainMarkdown [] img
    = nl2 ++ js "![" ++ imgAlt ++ js "](" ++ target ++ js ")" ++ nl2.
Proof.
  intros img. split; [reflexivity|]. split; [reflexivity|].
  split; [reflexivity|].
  destruct (image_markup_has_a_description PlainMarkdown [] img
              eq_refl eq_refl eq_refl) as [_ H].
  exact (H eq_refl).
Defined.

End ConverterProperties.

Module LocatorProperties.
Import Locator Shape TreeFacts LocatorFacts Samples.

(** *** What the nested-message removal keeps *)

Lemma consolidate_step_cases (l out : list (list nat))
    (used : gset (list nat)) (msg : list nat) :
  consolidate_step l (out, used) msg = (out, used) \/
  ((msg ∉ used) /\
   consolidate_step l (out, used) msg = (out ++ [msg], {[msg]} ∪ used)).
Proof.
  unfold consolidate_step.
  destruct (bool_decide_reflect (msg ∈ used)) as [Hin|Hnotin]; [by left|].
  destruct (existsb _ l); [by left|by right].
Qed.

(** The loop only appends elements of the list it runs over, each at most
    once, and [usedElements] holds exactly what has been pushed. *)
Lemma consolidate_fold_selects (l suf : list (list nat)) : forall out used,
  (forall x, x ∈ used <-> x ∈ out) -> NoDup out ->
  exists extra used',
    fold_left (consolidate_step l) suf (out, used) = (out ++ extra, used') /\
    (forall x, x ∈ used' <-> x ∈ out ++ extra) /\
    NoDup (out ++ extra) /\ extra `sublist_of` suf.
Proof.
  induction suf as [|msg suf IH]; intros out used Hused Hnd.
  { exists [], used. rewrite app_nil_r. repeat split; try done; apply Hused. }
  cbn [fold_left].
  destruct (consolidate_step_cases l out used msg) as [->|[Hnotin ->]].
  - destruct (IH out used Hused Hnd) as (extra & used' & -> & Hu & Hn & Hs).
    exists extra, used'. repeat split; try done; try apply Hu.
    by apply sublist_cons.
  - destruct (IH (out ++ [msg]) ({[msg]} ∪ used)) as (extra & used' & -> & Hu & Hn & Hs).
    + intros x. rewrite elem_of_union, elem_of_singleton, elem_of_app,
        list_elem_of_singleton, Hused. tauto.
    + apply NoDup_app. split; [done|]. split; [|apply NoDup_singleton].
      intros x Hx Hx'. apply list_elem_of_singleton in Hx' as ->.
      apply Hnotin. by apply Hused.
    + exists (msg :: extra), used'. rewrite <- !app_assoc in *. cbn [app] in *.
      repeat split; try done; try apply Hu. by apply sublist_skip.
Qed.

Lemma sublist_List_filter {A} (p : A -> bool) (l : list A) :
  List.filter p l `sublist_of` l.
Proof.
  induction l as [|x l IH]; [constructor|]. cbn [List.filter].
  destruct (p x); [by apply sublist_skip|by apply sublist_cons].
Qed.

Lemma consolidate_selects (l : list (list nat)) :
  NoDup (consolidate l) /\ consolidate l `sublist_of` l.
Proof.
  unfold consolidate.
  destruct (consolidate_fold_selects l l [] ∅) as (extra & used' & -> & _ & Hn & Hs).
  - intros x. rewrite elem_of_empty. split; [done|]. by intros H%elem_of_nil.
  - constructor.
  - done.
Qed.

(** X1.  In each exporter the elements returned by the locator are pairwise
    distinct, all of them passed the validity filter, and they are a
    selection of the candidates in the order in which the candidates were
    listed. *)
Theorem findMessages_selects_valid_candidates
    (valid : Node -> bool) (doc : Node)
    (results : list (list (list nat))) (fallback : option (list (list nat))) :
  NoDup (findMessages valid doc results fallback) /\
  findMessages valid doc results fallback
    `sublist_of` candidates results fallback /\
  Forall (fun p => valid_at valid doc p = true)
    (findMessages valid doc results fallback).
Proof.
  unfold findMessages.
  destruct (consolidate_selects
              (List.filter (valid_at valid doc) (candidates results fallback)))
    as [Hn Hs].
  split; [done|]. split.
  - etrans; [exact Hs|]. apply sublist_List_filter.
  - apply Forall_forall. intros p Hp.
    apply (sublist_subseteq _ _ Hs) in Hp.
    by apply elem_of_filter_list in Hp as [_ Hp].
Qed.

(** *** When nothing is found *)

Lemma contains_length (other msg : list nat) :
  contains other msg = true -> length other <= length msg.
Proof.
  revert msg. induction other as [|i other IH]; intros [|j msg] H; simpl in *;
    try done; try lia.
  apply andb_prop in H as [_ H]. apply IH in H. lia.
Qed.

Lemma contains_same_length (other msg : list nat) :
  contains other msg = true -> length other = length msg -> other = msg.
Proof.
  revert msg. induction other as [|i other IH]; intros [|j msg] H Hl;
    simpl in *; try done.
  apply andb_prop in H as [Hij H]. apply Nat.eqb_eq in Hij as ->.
  f_equal. apply IH; [done|lia].
Qed.

Lemma shortest_exists (l : list (list nat)) :
  l <> [] -> exists m, m ∈ l /\ forall x, x ∈ l -> length m <= length x.
Proof.
  induction l as [|a l IH]; [done|]. intros _.
  destruct l as [|b l].
  { exists a. split; [left|]. intros x Hx.
    apply list_elem_of_singleton in Hx as ->. lia. }
  destruct IH as (m & Hm & Hmin); [done|].
  destruct (decide (length a <= length m)) as [Hle|Hgt].
  - exists a. split; [left|]. intros x [->|Hx]%elem_of_cons; [lia|].
    specialize (Hmin x Hx). lia.
  - exists m. split; [by right|]. intros x [->|Hx]%elem_of_cons; [lia|].
    by apply Hmin.
Qed.

(** A shortest path of the list lies inside no other element of the list,
    so the test for nesting fails for it in every state. *)
Lemma shortest_not_nested (l : list (list nat)) (m : list nat)
    (used : gset (list nat)) :
  (forall x, x ∈ l -> length m <= length x) ->
  existsb (fun other =>
    negb (same_element other m) && contains other m &&
    negb (bool_decide (other ∈ used))) l = false.
Proof.
  intros Hmin. apply not_true_is_false. intros Hex.
  apply existsb_exists in Hex as (other & Hin & Hc).
  apply andb_prop in Hc as [Hc _]. apply andb_prop in Hc as [Hne Hcont].
  apply negb_true_iff, bool_decide_eq_false in Hne. apply Hne.
  apply contains_same_length; [done|].
  apply contains_length in Hcont.
  apply list_elem_of_In, Hmin in Hin. lia.
Qed.

Lemma consolidate_nonempty (l : list (list nat)) :
  l <> [] -> consolidate l <> [].
Proof.
  intros Hne. destruct (shortest_exists l Hne) as (m & Hm & Hmin).
  apply list_elem_of_split in Hm as (pre & suf & Hl).
  unfold consolidate. rewrite Hl at 2. rewrite fold_left_app. cbn [fold_left].
  destruct (consolidate_fold_selects l pre [] ∅)
    as (out & used & -> & Hused & Hnd & _).
  { intros x. rewrite elem_of_empty. split; [done|]. by intros H%elem_of_nil. }
  { constructor. }
  cbn [app] in *.
  assert (Hstep : exists out' used',
            consolidate_step l (out, used) m = (out', used') /\ out' <> [] /\
            (forall x, x ∈ used' <-> x ∈ out') /\ NoDup out').
  { unfold consolidate_step.
    destruct (bool_decide_reflect (m ∈ used)) as [Hin|Hnotin].
    - exists out, used. repeat split; try done; try apply Hused.
      apply Hused in Hin. intros ->. by apply elem_of_nil in Hin.
    - rewrite (shortest_not_nested l m used Hmin).
      exists (out ++ [m]), ({[m]} ∪ used). split; [done|].
      split; [by destruct out|]. split.
      + intros x. rewrite elem_of_union, elem_of_singleton, elem_of_app,
          list_elem_of_singleton, Hused. tauto.
      + apply NoDup_app. split; [done|]. split; [|apply NoDup_singleton].
        intros x Hx Hx'. apply list_elem_of_singleton in Hx' as ->.
        apply Hnotin. by apply Hused. }
  destruct Hstep as (out' & used' & -> & Hne' & Hused' & Hnd').
  destruct (consolidate_fold_selects l suf out' used' Hused' Hnd')
    as (extra & used'' & -> & _).
  cbn [fst]. by destruct out'.
Qed.

(** X2.  The locator returns no element exactly when no candidate passes
    the validity filter: this is the one case in which the Markdown
    exporters raise their alert and the HTML exporter writes its
    placeholder. *)
Theorem findMessages_empty_iff_no_valid_candidate
    (valid : Node -> bool) (doc : Node)
    (results : list (list (list nat))) (fallback : option (list (list nat))) :
  findMessages valid doc results fallback = [] <->
  Forall (fun p => valid_at valid doc p = false) (candidates results fallback).
Proof.
  unfold findMessages.
  set (l := candidates results fallback). split.
  - intros H. apply Forall_forall. intros p Hp.
    destruct (valid_at valid doc p) eqn:Hv; [|done]. exfalso.
    apply (consolidate_nonempty (List.filter (valid_at valid doc) l)); [|done].
    intros Hnil.
    assert (Hin : p ∈ List.filter (valid_at valid doc) l)
      by (by apply elem_of_filter_list).
    rewrite Hnil in Hin. by apply elem_of_nil in Hin.
  - intros H. assert (List.filter (valid_at valid doc) l = []) as ->; [|done].
    induction H as [|p l' Hp Hl IH]; [done|]. cbn [List.filter].
    by rewrite Hp.
Qed.

(** *** Candidates in document order *)

Lemma contains_refl (a : list nat) : contains a a = true.
Proof. induction a as [|i a IH]; [done|]. simpl. by rewrite Nat.eqb_refl. Qed.

Lemma ancestors_first_NoDup (l : list (list nat)) :
  ancestors_first l -> NoDup l.
Proof.
  induction l as [|a l IH]; [constructor|]. intros [Ha Hl].
  constructor; [|by apply IH]. intros Hin.
  rewrite Forall_forall in Ha. specialize (Ha a Hin).
  by rewrite contains_refl in Ha.
Qed.

Lemma ancestors_first_lookup (l : list (list nat)) :
  ancestors_first l ->
  forall i j a b, i < j -> l !! i = Some a -> l !! j = Some b ->
    contains b a = false.
Proof.
  induction l as [|x l IH]; intros H i j a b Hij Hi Hj; [done|].
  destruct H as [Hx Hl].
  destruct j as [|j]; [lia|]. destruct i as [|i].
  - injection Hi as ->. rewrite Forall_forall in Hx. apply Hx.
    by eapply list_elem_of_lookup_2.
  - apply (IH Hl i j); [lia|done|done].
Qed.

Lemma ancestors_first_filter (p : list nat -> bool) (l : list (list nat)) :
  ancestors_first l -> ancestors_first (List.filter p l).
Proof.
  induction l as [|a l IH]; [done|]. intros [Ha Hl]. cbn [List.filter].
  destruct (p a); [|by apply IH]. split; [|by apply IH].
  apply Forall_forall. intros b [Hb _]%elem_of_filter_list.
  rewrite Forall_forall in Ha. by apply Ha.
Qed.

Lemma findMessages_in_document_order
    (valid : Node -> bool) (doc : Node)
    (results : list (list (list nat))) (fallback : option (list (list nat))) :
  ancestors_first (candidates results fallback) ->
  findMessages valid doc results fallback
  = List.filter (valid_at valid doc) (candidates results fallback).
Proof.
  intros Hord. unfold findMessages.
  apply (ancestors_first_filter (valid_at valid doc)) in Hord.
  apply consolidate_document_order.
  - by apply ancestors_first_NoDup.
  - by apply ancestors_first_lookup.
Qed.

(** X3.  When the candidates are listed in document order, as
    [querySelectorAll] lists them (no element is, or lies above, one listed
    before it), the removal of nested messages removes nothing: the locator
    returns every candidate that passes the validity filter, nested ones
    included. *)
Theorem findMessages_keeps_every_valid_candidate
    (valid : Node -> bool) (doc : Node)
    (results : list (list (list nat))) (fallback : option (list (list nat))) :
  ancestors_first (candidates results fallback) ->
  findMessages valid doc results fallback
  = List.filter (valid_at valid doc) (candidates results fallback).
Proof. apply findMessages_in_document_order. Qed.

Lemma findMessages_keeps_every_valid_candidate_witness :
  ancestors_first (candidates [[]; [[0]; [0; 1]]] None) /\
  findMessages_b64 nested_doc [[]; [[0]; [0; 1]]] None = [[0]; [0; 1]].
Proof.
  assert (H : ancestors_first (candidates [[]; [[0]; [0; 1]]] None)).
  { vm_compute. repeat constructor. }
  split; [exact H|].
  unfold findMessages_b64.
  rewrite (findMessages_keeps_every_valid_candidate valid_b64 nested_doc
             [[]; [[0]; [0; 1]]] None H).
  reflexivity.
Defined.

(** *** The stricter filter of the plain Markdown exporter *)

Lemma valid_md_valid_b64 (msg : Node) :
  valid_md msg = true -> valid_b64 msg = true.
Proof.
  unfold valid_md, valid_b64.
  destruct (Z.ltb_spec (strlen (trim (textContent msg))) 30); [done|].
  destruct (Z.ltb_spec (strlen (trim (textContent msg))) 5); [lia|].
  destruct (100000 <? strlen (trim (textContent msg)))%Z; [done|].
  destruct (has_text_control msg); [done|].
  by destruct (status_class msg).
Qed.

Lemma filter_sublist_impl {A} (p q : A -> bool) (l : list A) :
  (forall x, p x = true -> q x = true) ->
  List.filter p l `sublist_of` List.filter q l.
Proof.
  intros Hpq. induction l as [|x l IH]; [constructor|]. cbn [List.filter].
  destruct (p x) eqn:Hp.
  - rewrite (Hpq x Hp). by apply sublist_skip.
  - destruct (q x); [by apply sublist_cons|done].
Qed.

(** X4.  An element that passes the validity filter of the plain
    Markdown exporter passes the one of the other two exporters; so, on
    candidates listed in document order, the messages located by the plain
    Markdown exporter are a selection, in order, of those located by the
    base64 Markdown exporter and by the HTML exporter. *)
Theorem plain_exporter_locates_a_selection
    (doc : Node) (results : list (list (list nat)))
    (fallback : option (list (list nat))) :
  (forall msg, valid_md msg = true ->
     valid_b64 msg = true /\ valid_html msg = true) /\
  (ancestors_first (candidates results fallback) ->
   findMessages_md doc results fallback
     `sublist_of` findMessages_b64 doc results fallback /\
   findMessages_md doc results fallback
     `sublist_of` findMessages_html doc results fallback).
Proof.
  split.
  { intros msg H. split; by apply valid_md_valid_b64. }
  intros Hord. unfold findMessages_md, findMessages_b64, findMessages_html.
  rewrite !findMessages_in_document_order by done.
  assert (Hsub : List.filter (valid_at valid_md doc) (candidates results fallback)
                 `sublist_of`
                 List.filter (valid_at valid_b64 doc) (candidates results fallback)).
  { apply filter_sublist_impl. intros p. unfold valid_at.
    destruct (node_at doc p); [apply valid_md_valid_b64|done]. }
  by split.
Qed.

Lemma plain_exporter_locates_a_selection_witness :
  ancestors_first (candidates [[[0]; [0; 1]]] None) /\
  findMessages_md nested_doc [[[0]; [0; 1]]] None
    `sublist_of` findMessages_b64 nested_doc [[[0]; [0; 1]]] None.
Proof.
  assert (H : ancestors_first (candidates [[[0]; [0; 1]]] None)).
  { vm_compute. repeat constructor. }
  split; [exact H|].
  destruct (plain_exporter_locates_a_selection nested_doc [[[0]; [0; 1]]] None)
    as [_ Hs].
  destruct (Hs H) as [Hb _]. exact Hb.
Defined.

End LocatorProperties.

Module AssemblerProperties.
Import Assembler AssemblerFacts Samples.

Lemma sublist_seq_bounds (n : nat) : forall (l : list nat) k x,
  l `sublist_of` seq k n -> x ∈ l -> k <= x.
Proof.
  intros l k x Hs Hx. apply (sublist_subseteq _ _ Hs) in Hx.
  apply list_elem_of_In, in_seq in Hx. lia.
Qed.

Lemma sublist_seq_increasing (n : nat) : forall (l : list nat) k a b x y,
  l `sublist_of` seq k n -> a < b ->
  l !! a = Some x -> l !! b = Some y -> x < y.
Proof.
  induction n as [|n IH]; intros l k a b x y Hs Hab Ha Hb.
  { apply sublist_nil_r in Hs as ->. done. }
  cbn [seq] in Hs. apply sublist_cons_r in Hs as [Hs|(l' & -> & Hs)].
  { by apply (IH l (S k) a b). }
  destruct b as [|b]; [lia|]. destruct a as [|a].
  - injection Ha as <-. cbn in Hb.
    pose proof (sublist_seq_bounds n l' (S k) y Hs
                  (list_elem_of_lookup_2 _ _ _ Hb)). lia.
  - apply (IH l' (S k) a b); [done|lia|done|done].
Qed.

Section Kept.
Context {R : Type}.
Variable body : list R * gset (list N) -> nat * Located -> list R * gset (list N).
Variable skip : Located -> bool.
Variable fp : Located -> list N.
Variable mk : nat -> Located -> R.
Variable ix : R -> nat.
Hypothesis body_shape : forall out seen i m,
  body (out, seen) (i, m) =
    if skip m then (out, seen)
    else if bool_decide (fp m ∈ seen) then (out, seen)
    else (out ++ [mk i m], {[fp m]} ∪ seen).
Hypothesis ix_mk : forall i m, ix (mk i m) = i.
Variable msgs : list Located.

Local Abbreviation run := (DedupLoop.run body).

(** Message [i] is the first one with its fingerprint among those that
    are not skipped. *)
Local Abbreviation first_occurrence := (fun (i : nat) (m : Located) =>
  skip m = false /\
  forall j mj, j < i -> msgs !! j = Some mj -> skip mj = false ->
    fp mj <> fp m).

(** The state of the loop after the first [k] messages. *)
Local Abbreviation after := (fun (k : nat) (st : list R * gset (list N)) =>
  (forall h, h ∈ snd st <->
     exists j m, j < k /\ msgs !! j = Some m /\ skip m = false /\ fp m = h) /\
  (forall r, r ∈ fst st <->
     exists i m, i < k /\ msgs !! i = Some m /\ r = mk i m /\
       first_occurrence i m) /\
  (ix <$> fst st) `sublist_of` seq 0 k).

Lemma run_take_S k m :
  msgs !! k = Some m ->
  run 0 (take (S k) msgs) ([], ∅) = body (run 0 (take k msgs) ([], ∅)) (k, m).
Proof.
  intros Hk. rewrite (take_S_r _ _ _ Hk), (run_app body).
  rewrite length_take_le by (apply lookup_lt_Some in Hk; lia).
  by rewrite (run_cons body).
Qed.

Lemma after_prefix k :
  k <= length msgs -> after k (run 0 (take k msgs) ([], ∅)).
Proof.
  induction k as [|k IH]; intros Hk.
  { rewrite take_0. cbn. split; [|split].
    - intros h. rewrite elem_of_empty. split; [done|].
      intros (j & _ & Hj & _). lia.
    - intros r. split; [by intros H%elem_of_nil|].
      intros (i & _ & Hi & _). lia.
    - constructor. }
  destruct (lookup_lt_is_Some_2 msgs k) as [m Hm]; [lia|].
  rewrite (run_take_S k m Hm).
  destruct (run 0 (take k msgs) ([], ∅)) as [out seen].
  destruct IH as (Hseen & Hout & Hsorted); [lia|]. cbn [fst snd] in *.
  rewrite body_shape.
  assert (Hseq : seq 0 (S k) = seq 0 k ++ [k]) by (by rewrite seq_S).
  destruct (skip m) eqn:Hskip;
    [|destruct (bool_decide_reflect (fp m ∈ seen)) as [Hin|Hnotin]];
    cbn [fst snd].
  - split; [|split].
    + intros h. rewrite Hseen. split.
      * intros (j & mj & ? & ? & ? & ?). exists j, mj. split; [lia|done].
      * intros (j & mj & Hj & Hmj & Hs & Hf).
        destruct (decide (j = k)) as [->|]; [congruence|].
        exists j, mj. split; [lia|done].
    + intros r. rewrite Hout. split.
      * intros (i & mi & ? & ?). exists i, mi. split; [lia|done].
      * intros (i & mi & Hi & Hmi & Hr & Hs & Hf).
        destruct (decide (i = k)) as [->|]; [congruence|].
        exists i, mi. split; [lia|done].
    + rewrite Hseq. by apply sublist_inserts_r.
  - split; [|split].
    + intros h. rewrite Hseen. split.
      * intros (j & mj & ? & ? & ? & ?). exists j, mj. split; [lia|done].
      * intros (j & mj & Hj & Hmj & Hs & Hf).
        destruct (decide (j = k)) as [->|].
        { replace mj with m in * by congruence. subst h.
          by apply Hseen in Hin. }
        exists j, mj. split; [lia|done].
    + intros r. rewrite Hout. split.
      * intros (i & mi & ? & ?). exists i, mi. split; [lia|done].
      * intros (i & mi & Hi & Hmi & Hr & Hs & Hf).
        destruct (decide (i = k)) as [->|].
        { exfalso. replace mi with m in * by congruence.
          apply Hseen in Hin as (j & mj & Hj & Hmj & Hsj & Hfj).
          by apply (Hf j mj). }
        exists i, mi. split; [lia|done].
    + rewrite Hseq. by apply sublist_inserts_r.
  - split; [|split].
    + intros h. rewrite elem_of_union, elem_of_singleton, Hseen. split.
      * intros [->|(j & mj & ? & ? & ? & ?)].
        { exists k, m. split; [lia|done]. }
        exists j, mj. split; [lia|done].
      * intros (j & mj & Hj & Hmj & Hs & Hf).
        destruct (decide (j = k)) as [->|].
        { left. congruence. }
        right. exists j, mj. split; [lia|done].
    + intros r. rewrite elem_of_app, list_elem_of_singleton, Hout. split.
      * intros [(i & mi & ? & ?)| ->].
        { exists i, mi. split; [lia|done]. }
        exists k, m. split; [lia|]. split; [done|]. split; [done|].
        split; [done|]. intros j mj Hj Hmj Hsj Heq. apply Hnotin.
        apply Hseen. by exists j, mj.
      * intros (i & mi & Hi & Hmi & Hr & Hs & Hf).
        destruct (decide (i = k)) as [->|].
        { right. congruence. }
        left. exists i, mi. split; [lia|done].
    + rewrite Hseq, fmap_app. apply sublist_app; [done|].
      cbn. by rewrite ix_mk.
Qed.

Lemma after_all : after (length msgs) (DedupLoop.run body 0 msgs ([], ∅)).
Proof.
  pose proof (after_prefix (length msgs) (le_n _)) as H.
  by rewrite firstn_all in H.
Qed.

Lemma kept_iff i :
  i ∈ ix <$> DedupLoop.dedup body msgs <->
  exists m, msgs !! i = Some m /\ first_occurrence i m.
Proof.
  rewrite (dedup_run body). destruct after_all as (_ & Hout & _).
  rewrite list_elem_of_fmap. split.
  - intros (r & -> & Hr). apply Hout in Hr as (j & m & _ & Hm & -> & Hf).
    rewrite ix_mk. by exists m.
  - intros (m & Hm & Hf). exists (mk i m). rewrite ix_mk. split; [done|].
    apply Hout. exists i, m. split; [by eapply lookup_lt_Some|done].
Qed.

Lemma kept_in_order :
  (ix <$> DedupLoop.dedup body msgs) `sublist_of` seq 0 (length msgs).
Proof. rewrite (dedup_run body). apply after_all. Qed.

Lemma kept_records :
  Forall (fun r => exists m, msgs !! ix r = Some m /\ r = mk (ix r) m)
    (DedupLoop.dedup body msgs).
Proof.
  rewrite (dedup_run body). destruct after_all as (_ & Hout & _).
  apply Forall_forall. intros r Hr.
  apply Hout in Hr as (j & m & _ & Hm & -> & _). rewrite ix_mk. by exists m.
Qed.

Lemma kept_distinct a b x y :
  a < b ->
  DedupLoop.dedup body msgs !! a = Some x ->
  DedupLoop.dedup body msgs !! b = Some y ->
  exists mi mj,
    msgs !! ix x = Some mi /\ msgs !! ix y = Some mj /\
    x = mk (ix x) mi /\ y = mk (ix y) mj /\ fp mi <> fp mj.
Proof.
  rewrite (dedup_run body). destruct after_all as (_ & Hout & Hsorted).
  intros Hab Ha Hb.
  assert (Hlt : ix x < ix y).
  { apply (sublist_seq_increasing _ _ _ a b _ _ Hsorted Hab);
      rewrite list_lookup_fmap; [by rewrite Ha|by rewrite Hb]. }
  apply list_elem_of_lookup_2, Hout in Ha as (i & mi & _ & Hmi & -> & Hsi & _).
  apply list_elem_of_lookup_2, Hout in Hb as (j & mj & _ & Hmj & -> & _ & Hfj).
  rewrite !ix_mk in *. exists mi, mj. repeat split; try done.
  by apply (Hfj i mi).
Qed.

End Kept.

(** X18.  In each exporter a located message is exported exactly when it
    passes the length test and no earlier message that passes the length
    test has the same fingerprint.  The length test asks for 30 code units
    of trimmed content in the plain Markdown exporter and for 5 in the
    base64 one, where the fingerprint is that of the converted content; the
    HTML exporter asks for 5 code units of trimmed raw text and takes the
    fingerprint of that trimmed raw text. *)
Theorem exported_iff_first_occurrence (msgs : list Located) (i : nat) :
  (i ∈ p_originalIndex <$> dedup_md msgs <->
     exists m, msgs !! i = Some m /\
       too_short 30 (l_content m) = false /\
       forall j mj, j < i -> msgs !! j = Some mj ->
         too_short 30 (l_content mj) = false ->
         contentHash (l_content mj) <> contentHash (l_content m)) /\
  (i ∈ originalIndex <$> dedup_b64 msgs <->
     exists m, msgs !! i = Some m /\
       too_short 5 (l_content m) = false /\
       forall j mj, j < i -> msgs !! j = Some mj ->
         too_short 5 (l_content mj) = false ->
         contentHash (l_content mj) <> contentHash (l_content m)) /\
  (i ∈ p_originalIndex <$> dedup_html msgs <->
     exists m, msgs !! i = Some m /\
       too_short 5 (trim (l_textContent m)) = false /\
       forall j mj, j < i -> msgs !! j = Some mj ->
         too_short 5 (trim (l_textContent mj)) = false ->
         contentHash (trim (l_textContent mj))
         <> contentHash (trim (l_textContent m))).
Proof.
  split; [|split].
  - exact (kept_iff step_md _ (fun m => contentHash (l_content m)) _
             p_originalIndex step_md_shape (fun _ _ => eq_refl) msgs i).
  - exact (kept_iff step_b64 _ (fun m => contentHash (l_content m)) _
             originalIndex step_b64_shape (fun _ _ => eq_refl) msgs i).
  - assert (Hskip : forall m,
      too_short 5 (trim (l_textContent m))
      = negb (truthy (trim (l_textContent m))) ||
        (strlen (trim (l_textContent m)) <? 5)%Z).
    { intros m. unfold too_short. by rewrite JSFacts.trim_idem. }
    pose proof (kept_iff step_html _
                  (fun m => contentHash (trim (l_textContent m))) _
                  p_originalIndex step_html_shape (fun _ _ => eq_refl) msgs i)
      as H.
    rewrite H. split; intros (m & Hm & Hs & Hf); exists m;
      (split; [done|]); rewrite ?Hskip in *; (split; [done|]);
      intros j mj Hj Hmj Hsj; apply (Hf j mj Hj Hmj);
      by rewrite ?Hskip in *.
Qed.

(** X19.  In each exporter the exported records come in the order of the
    located messages, no message is exported twice, and every record
    carries the sender and the content (in the base64 exporter also the
    reliability flag and the reply label) that were computed for the
    message at its [originalIndex]. *)
Theorem exported_records_follow_the_messages (msgs : list Located) :
  ((p_originalIndex <$> dedup_md msgs) `sublist_of` seq 0 (length msgs) /\
   Forall (fun r => exists m, msgs !! p_originalIndex r = Some m /\
             r = mkPlain (l_sender m) (l_content m) (p_originalIndex r))
     (dedup_md msgs)) /\
  ((originalIndex <$> dedup_b64 msgs) `sublist_of` seq 0 (length msgs) /\
   Forall (fun r => exists m, msgs !! originalIndex r = Some m /\
             r = mkMessage (l_sender m) (l_reliable m) (l_replyLabel m)
                   (l_content m) (originalIndex r))
     (dedup_b64 msgs)) /\
  ((p_originalIndex <$> dedup_html msgs) `sublist_of` seq 0 (length msgs) /\
   Forall (fun r => exists m, msgs !! p_originalIndex r = Some m /\
             r = mkPlain (l_sender m) (l_content m) (p_originalIndex r))
     (dedup_html msgs)).
Proof.
  split; [|split]; split.
  - exact (kept_in_order step_md _ (fun m => contentHash (l_content m)) _
             p_originalIndex step_md_shape (fun _ _ => eq_refl) msgs).
  - exact (kept_records step_md _ (fun m => contentHash (l_content m)) _
             p_originalIndex step_md_shape (fun _ _ => eq_refl) msgs).
  - exact (kept_in_order step_b64 _ (fun m => contentHash (l_content m)) _
             originalIndex step_b64_shape (fun _ _ => eq_refl) msgs).
  - exact (kept_records step_b64 _ (fun m => contentHash (l_content m)) _
             originalIndex step_b64_shape (fun _ _ => eq_refl) msgs).
  - exact (kept_in_order step_html _
             (fun m => contentHash (trim (l_textContent m))) _
             p_originalIndex step_html_shape (fun _ _ => eq_refl) msgs).
  - exact (kept_records step_html _
             (fun m => contentHash (trim (l_textContent m))) _
             p_originalIndex step_html_shape (fun _ _ => eq_refl) msgs).
Qed.

End AssemblerProperties.

Module CorrectionProperties.
Import Correction CorrectionFacts CorrectionTheorems Samples Fixtures.

(** *** The pass writes nothing but sender labels *)

Lemma set_sender_twice (s s' : Sender) (m : Message) :
  set_sender s (set_sender s' m) = set_sender s m.
Proof. done. Qed.

Lemma step_relabels (l : list Message) (j i : nat) (m' : Message) :
  step l j !! i = Some m' ->
  exists m, l !! i = Some m /\ m' = set_sender (sender m') m.
Proof.
  unfold step.
  destruct (l !! j) as [cur|] eqn:Hc;
    [|intros H; exists m'; by rewrite set_sender_same].
  destruct (l !! (j - 1)) as [prev|] eqn:Hp;
    [|intros H; exists m'; by rewrite set_sender_same].
  assert (Hkeep : l !! i = Some m' ->
            exists m, l !! i = Some m /\ m' = set_sender (sender m') m).
  { intros H. exists m'. by rewrite set_sender_same. }
  repeat case_match; try exact Hkeep;
    intros Hlk;
    repeat (apply list_lookup_insert_Some in Hlk as [(<- & <- & _)|[_ Hlk]];
            [eexists; split; [eassumption|reflexivity]|]);
    by apply Hkeep.
Qed.

Lemma fold_relabels (js : list nat) : forall (l : list Message) i m',
  fold_left step js l !! i = Some m' ->
  exists m, l !! i = Some m /\ m' = set_sender (sender m') m.
Proof.
  induction js as [|j js IH]; intros l i m' H; simpl in H.
  { exists m'. by rewrite set_sender_same. }
  apply IH in H as (m1 & H1 & E1).
  apply step_relabels in H1 as (m & Hm & E).
  exists m. split; [done|]. rewrite E1, E. by rewrite set_sender_twice.
Qed.

Lemma pass_relabels (msgs : list Message) (i : nat) (m' : Message) :
  pass msgs !! i = Some m' ->
  exists m, msgs !! i = Some m /\ m' = set_sender (sender m') m.
Proof. apply fold_relabels. Qed.

(** X21.  The correction pass of the base64 exporter changes nothing but
    sender labels: the list keeps its length, and the record at each index
    keeps its reliability flag, reply label, content and original index. *)
Theorem pass_changes_senders_only (msgs : list Message) :
  length (pass msgs) = length msgs /\
  forall i m', pass msgs !! i = Some m' ->
    exists m, msgs !! i = Some m /\
      reliable m' = reliable m /\ replyLabel m' = replyLabel m /\
      content m' = content m /\ originalIndex m' = originalIndex m.
Proof.
  split; [apply length_fold_step|].
  intros i m' H. apply pass_relabels in H as (m & Hm & ->).
  exists m. by repeat split.
Qed.

Lemma pass_changes_senders_only_witness :
  let msgs := [sample You false 10 0; sample You false 10 1] in
  pass msgs !! 1 = Some (sample ChatGPT false 10 1) /\
  exists m, msgs !! 1 = Some m /\
    reliable (sample ChatGPT false 10 1) = reliable m /\
    replyLabel (sample ChatGPT false 10 1) = replyLabel m /\
    content (sample ChatGPT false 10 1) = content m /\
    originalIndex (sample ChatGPT false 10 1) = originalIndex m.
Proof.
  intros msgs. split; [reflexivity|].
  destruct (pass_changes_senders_only msgs) as [_ H].
  exact (H 1 (sample ChatGPT false 10 1) eq_refl).
Defined.

(** *** Alternating senders *)

Lemma step_alternating (l : list Message) (j : nat) :
  1 <= j ->
  (forall i a b, l !! i = Some a -> l !! S i = Some b -> sender a <> sender b) ->
  step l j = l.
Proof.
  intros Hj Halt. unfold step.
  destruct (l !! j) as [cur|] eqn:Hc; [|done].
  destruct (l !! (j - 1)) as [prev|] eqn:Hp; [|done].
  destruct (reliable cur || reliable prev); [done|].
  assert (Hne : sender prev <> sender cur).
  { apply (Halt (j - 1)); [done|]. by replace (S (j - 1)) with j by lia. }
  by destruct (sender cur), (sender prev).
Qed.

Lemma fold_alternating (js : list nat) (l : list Message) :
  Forall (fun j => 1 <= j) js ->
  (forall i a b, l !! i = Some a -> l !! S i = Some b -> sender a <> sender b) ->
  fold_left step js l = l.
Proof.
  intros Hjs Halt. induction Hjs as [|j js Hj Hjs IH]; [done|].
  simpl. by rewrite step_alternating.
Qed.

Lemma pass_alternating (msgs : list Message) :
  (forall i a b, msgs !! i = Some a -> msgs !! S i = Some b ->
     sender a <> sender b) ->
  pass msgs = msgs.
Proof.
  intros Halt. unfold pass, pass_from. apply fold_alternating; [|done].
  apply Forall_forall. intros j Hj. apply list_elem_of_In, in_seq in Hj. lia.
Qed.

(** X22.  A list in which no two adjacent records carry the same sender
    comes out of the correction pass unchanged, in the base64 exporter
    whatever the reliability flags are, and in the exporters without the
    flag. *)
Theorem alternating_senders_are_left_alone :
  (forall msgs : list Message,
     (forall i a b, msgs !! i = Some a -> msgs !! S i = Some b ->
        sender a <> sender b) ->
     pass msgs = msgs) /\
  (forall pl : list PlainMessage,
     (forall i a b, pl !! i = Some a -> pl !! S i = Some b ->
        p_sender a <> p_sender b) ->
     pass_plain pl = pl).
Proof.
  split; [exact pass_alternating|].
  intros pl Halt. rewrite pass_plain_simulated, pass_alternating.
  - apply forget_lift_list.
  - intros i a b. rewrite !list_lookup_fmap.
    destruct (pl !! i) as [a'|] eqn:Ha; [|done].
    destruct (pl !! S i) as [b'|] eqn:Hb; [|done].
    intros [= <-] [= <-]. simpl. by apply (Halt i).
Qed.

Lemma alternating_senders_are_left_alone_witness :
  (forall i a b, alternating !! i = Some a -> alternating !! S i = Some b ->
     sender a <> sender b) /\
  pass alternating = alternating.
Proof.
  assert (H : forall i a b, alternating !! i = Some a ->
                alternating !! S i = Some b -> sender a <> sender b).
  { intros [|[|[|i]]] a b Ha Hb; try discriminate Hb;
      injection Ha as <-; injection Hb as <-; discriminate. }
  split; [exact H|].
  destruct alternating_senders_are_left_alone as [Hp _].
  exact (Hp alternating H).
Defined.

(** X23.  The correction loop of the plain Markdown exporter and of the
    HTML exporter computes what the guarded loop of the base64 exporter
    computes on the same records, all marked unreliable. *)
Theorem plain_pass_is_the_guarded_pass_without_flags
    (pl : list PlainMessage) :
  pass_plain pl = forget <$> pass (lift <$> pl).
Proof. apply pass_plain_simulated. Qed.

End CorrectionProperties.

Module AttributorTheorems.
Import Attributor Shape JSFacts ShapeFacts Samples.

Lemma identifySender_b64_role (lowerCase : list N -> list N)
    (srcProperty : Node -> list N) (messageElement : Node) (index : nat)
    (allMessages : list Node) :
  let authorRole := attr_or_empty messageElement "data-message-author-role" in
  a_reliable (identifySender_b64 lowerCase srcProperty messageElement index
                allMessages) = truthy authorRole /\
  (truthy authorRole = true ->
   a_sender (identifySender_b64 lowerCase srcProperty messageElement index
               allMessages)
   = if str_eqb authorRole (js "user") then You else ChatGPT).
Proof.
  intros authorRole. unfold identifySender_b64. fold authorRole.
  destruct (truthy authorRole); [done|]. split; [|done].
  repeat case_match; reflexivity.
Qed.

(** X5.  In the base64 exporter a sender is marked reliable exactly when
    the message element carries a non-empty [data-message-author-role]
    attribute; the sender is then [You] when the attribute is [user] and
    [ChatGPT] otherwise, whatever the images, the text, the structure and
    the position of the message are. *)
Theorem reliable_iff_author_role (lowerCase : list N -> list N)
    (srcProperty : Node -> list N) (messageElement : Node) (index : nat)
    (allMessages : list Node) :
  let authorRole := attr_or_empty messageElement "data-message-author-role" in
  a_reliable (identifySender_b64 lowerCase srcProperty messageElement index
                allMessages) = truthy authorRole /\
  (truthy authorRole = true ->
   a_sender (identifySender_b64 lowerCase srcProperty messageElement index
               allMessages)
   = if str_eqb authorRole (js "user") then You else ChatGPT).
Proof. apply identifySender_b64_role. Qed.

(** X6.  The three exporters attribute alike: the sender computed by
    the plain Markdown exporter and by the HTML exporter is the sender
    computed by the base64 exporter, for every element, index and list of
    messages. *)
Theorem exporters_identify_the_same_sender (lowerCase : list N -> list N)
    (srcProperty : Node -> list N) (messageElement : Node)
    (index : nat) (allMessages : list Node) :
  identifySender_md lowerCase srcProperty messageElement index allMessages
  = a_sender (identifySender_b64 lowerCase srcProperty messageElement index
                allMessages) /\
  identifySender_html lowerCase srcProperty messageElement index allMessages
  = a_sender (identifySender_b64 lowerCase srcProperty messageElement index
                allMessages).
Proof.
  unfold identifySender_html, identifySender_md, identifySender_b64.
  split; repeat case_match; simplify_eq; reflexivity.
Qed.

Lemma first_title_shape (lowerCase : list N -> list N)
    (found : list (option Node)) (fallback : list N) :
  fallback <> [] -> trimmed fallback ->
  first_title lowerCase found fallback <> [] /\
  trimmed (first_title lowerCase found fallback).
Proof.
  intros Hne Htr. induction found as [|[el|] found IH]; [done| |done].
  cbn [first_title].
  destruct (truthy (trim (textContent el))) eqn:Ht; [|done].
  destruct (negb _); [|done]. split.
  - by destruct (trim (textContent el)).
  - apply trimmed_trim.
Qed.

(** X7.  The conversation title is never empty and neither begins nor
    ends with white space, whatever the page contains, in each
    exporter. *)
Theorem conversation_title_is_never_empty (lowerCase : list N -> list N)
    (found : list (option Node)) :
  (extractConversationTitle_md lowerCase found <> [] /\
   trimmed (extractConversationTitle_md lowerCase found)) /\
  (extractConversationTitle_b64 lowerCase found <> [] /\
   trimmed (extractConversationTitle_b64 lowerCase found)) /\
  (extractConversationTitle_html lowerCase found <> [] /\
   trimmed (extractConversationTitle_html lowerCase found)).
Proof.
  unfold extractConversationTitle_md, extractConversationTitle_b64,
    extractConversationTitle_html.
  split; [|split]; apply first_title_shape; try done;
    vm_compute; split; reflexivity.
Qed.

Lemma reliable_iff_author_role_witness :
  let turn := el "div" [("data-message-author-role", "user")] [txt "hi"] in
  truthy (attr_or_empty turn "data-message-author-role") = true /\
  a_sender (identifySender_b64 toLowerCase (fun n => attr_or_empty n "src")
              turn 1 [turn; turn]) = You.
Proof.
  intros turn. split; [reflexivity|].
  destruct (reliable_iff_author_role toLowerCase
              (fun n => attr_or_empty n "src") turn 1 [turn; turn]) as [_ H].
  exact (H eq_refl).
Defined.

End AttributorTheorems.

Module ImageEmbedderProperties.
Import ImageEmbedder ImageEmbedderTheorems Samples Fixtures.

Lemma drawImageToBase64_cases (img : Picture) :
  drawImageToBase64 img =
    if (nz_or (naturalWidth img) (layoutWidth img) =? 0)%N ||
       (nz_or (naturalHeight img) (layoutHeight img) =? 0)%N
    then Normal None
    else if draw_throws img then Normal None
    else match encoded img with
         | Some url => Normal (Some url)
         | None => Normal None
         end.
Proof.
  unfold drawImageToBase64, try_catch, bind, drawImage, toDataURL.
  repeat case_match; congruence.
Qed.

(** X26.  Rasterising a picture never raises.  It yields [null] exactly
    when a canvas dimension is zero, drawing raises or encoding raises; it
    yields a data URL exactly when both dimensions are non-zero, drawing
    succeeds and the canvas encodes to that URL. *)
Theorem drawImageToBase64_characterised (img : Picture) :
  (exists v, drawImageToBase64 img = Normal v) /\
  (drawImageToBase64 img = Normal None <-> raster_fails img) /\
  (forall url,
     drawImageToBase64 img = Normal (Some url) <->
     ~ zero_area img /\ draw_throws img = false /\ encoded img = Some url).
Proof.
  split; [apply drawImageToBase64_returns|].
  rewrite drawImageToBase64_cases. unfold raster_fails, zero_area.
  destruct (N.eqb_spec (nz_or (naturalWidth img) (layoutWidth img)) 0) as [Hw|Hw];
    destruct (N.eqb_spec (nz_or (naturalHeight img) (layoutHeight img)) 0)
      as [Hh|Hh];
    destruct (draw_throws img); destruct (encoded img) as [u|];
    cbn [orb]; (split; [|intros url]); split;
    try tauto; try discriminate; try (intros; exfalso; tauto);
    try (intros [[?|?]|[?|?]]; congruence);
    try (intros [= ->]; repeat split; try done; tauto);
    try (intros (_ & _ & [= ->]); done);
    try (intros (_ & ? & _); discriminate).
Qed.

(** X27.  The first callback to run decides the promise returned by
    [imageToBase64]: callbacks that run later (a load after the timeout, an
    error after a load) do not change what it is settled with. *)
Theorem first_callback_decides
    (imgElement : ImgElement) (first : Event) (rest : list Event) :
  snd (imageToBase64 imgElement (first :: rest))
  = snd (imageToBase64 imgElement [first]) /\
  exists v, snd (imageToBase64 imgElement (first :: rest)) = Fulfilled v.
Proof.
  unfold imageToBase64.
  destruct (is_ui_image (src_of imgElement)); [by eauto|].
  destruct (startsWith (src_of imgElement) (js "blob:") || complete imgElement).
  { destruct (drawImageToBase64_returns (picture imgElement)) as [v ->].
    simpl. eauto. }
  cbn [snd fold_left].
  assert (Hfirst : exists v, run_event Pending first = Fulfilled v).
  { destruct first as [loaded| |]; simpl; eauto.
    destruct (drawImageToBase64_returns loaded) as [v ->]. simpl. eauto. }
  destruct Hfirst as [v ->]. rewrite settled_stays. eauto.
Qed.

End ImageEmbedderProperties.

Module MainLoopTheorems.
Import Attributor MainLoop Assembler Correction AssemblerFacts AssemblerProperties
  CorrectionFacts CorrectionProperties AttributorTheorems Samples.

(** X24.  In the base64 exporter every exported record stems from the
    message element at its [originalIndex] and carries the content and the
    reply label computed for that element; when that element has a
    non-empty [data-message-author-role] attribute, the record is exported
    as reliable with the sender read from the attribute ([You] for [user],
    [ChatGPT] otherwise): neither the duplicate removal nor the correction
    pass changes it. *)
Theorem author_role_decides_the_exported_sender
    (lowerCase : list N -> list N) (srcProperty : Node -> list N)
    (findReplyLabel : Node -> option (list N))
    (processMessageContent : nat -> Node -> list N)
    (messages : list Node) (r : Message) :
  r ∈ processedMessages_b64 lowerCase srcProperty findReplyLabel
        processMessageContent messages ->
  exists messageElement,
    messages !! originalIndex r = Some messageElement /\
    content r = processMessageContent (originalIndex r) messageElement /\
    replyLabel r = findReplyLabel messageElement /\
    let authorRole :=
      attr_or_empty messageElement "data-message-author-role" in
    (truthy authorRole = true ->
     reliable r = true /\
     sender r = if str_eqb authorRole (js "user") then You else ChatGPT).
Proof.
  unfold processedMessages_b64.
  set (L := located_b64 lowerCase srcProperty findReplyLabel
              processMessageContent messages).
  intros Hr. apply list_elem_of_lookup in Hr as [i Hi].
  destruct (pass_relabels _ _ _ Hi) as (r0 & Hr0 & Er).
  pose proof (kept_records step_b64 _ (fun m => contentHash (l_content m)) _
                originalIndex step_b64_shape (fun _ _ => eq_refl) L) as Hrec.
  rewrite Forall_forall in Hrec.
  destruct (Hrec r0 (list_elem_of_lookup_2 _ _ _ Hr0)) as (m & Hm & Er0).
  unfold L, located_b64 in Hm. rewrite list_lookup_imap in Hm.
  destruct (messages !! originalIndex r0) as [messageElement|] eqn:Hel;
    [|discriminate Hm].
  injection Hm as <-. cbn [l_sender l_reliable l_replyLabel l_content] in Er0.
  assert (Hix : originalIndex r = originalIndex r0) by (by rewrite Er).
  exists messageElement. rewrite Hix.
  split; [done|]. split; [by rewrite Er, Er0|]. split; [by rewrite Er, Er0|].
  cbv zeta. intros Hrole.
  destruct (identifySender_b64_role lowerCase srcProperty messageElement
              (originalIndex r0) messages) as [Hrel Hs].
  cbv zeta in Hrel, Hs. rewrite Hrole in Hrel. specialize (Hs Hrole).
  assert (Hrel0 : reliable r0 = true) by (by rewrite Er0).
  assert (Hkeep : pass (dedup_b64 L) !! i = Some r0).
  { unfold pass, pass_from. by apply fold_keeps_reliable. }
  assert (r = r0) as -> by congruence.
  split; [done|]. rewrite Er0. exact Hs.
Qed.

Lemma author_role_decides_the_exported_sender_witness :
  let turn :=
    el "div" [("data-message-author-role", "user")] [txt "hello there"] in
  let r := mkMessage You true None (js "hello there") 0 in
  r ∈ processedMessages_b64 toLowerCase (fun n => attr_or_empty n "src")
        (fun _ => None) (fun _ n => textContent n) [turn] /\
  exists messageElement,
    [turn] !! originalIndex r = Some messageElement /\
    content r = textContent messageElement /\
    replyLabel r = None /\
    (truthy (attr_or_empty messageElement "data-message-author-role") = true ->
     reliable r = true /\
     sender r = if str_eqb (attr_or_empty messageElement
                              "data-message-author-role") (js "user")
                then You else ChatGPT).
Proof.
  intros turn r.
  assert (H : r ∈ processedMessages_b64 toLowerCase
                    (fun n => attr_or_empty n "src")
                    (fun _ => None) (fun _ n => textContent n) [turn])
    by (vm_compute; left).
  split; [exact H|].
  exact (author_role_decides_the_exported_sender toLowerCase
           (fun n => attr_or_empty n "src") (fun _ => None)
           (fun _ n => textContent n) [turn] r H).
Defined.

(** *** No two exported messages share a fingerprint *)

Lemma pass_plain_content (pl : list PlainMessage) (i : nat) (r : PlainMessage) :
  pass_plain pl !! i = Some r ->
  exists p, pl !! i = Some p /\ p_content r = p_content p.
Proof.
  rewrite CorrectionTheorems.pass_plain_simulated, !list_lookup_fmap.
  destruct (pass (lift <$> pl) !! i) as [r'|] eqn:Hr'; [|done].
  intros [= <-]. apply pass_relabels in Hr' as (m & Hm & ->).
  rewrite list_lookup_fmap in Hm.
  destruct (pl !! i) as [p|]; [|done]. injection Hm as <-.
  by exists p.
Qed.

(** X25.  No two messages of the exported Markdown document have the
    same fingerprint: in both Markdown exporters, any two records that are
    left after the duplicate removal and the correction pass differ in the
    fingerprint of their content. *)
Theorem exported_fingerprints_are_distinct (msgs : list Located) :
  (forall a b r1 r2, a < b ->
     pass (dedup_b64 msgs) !! a = Some r1 ->
     pass (dedup_b64 msgs) !! b = Some r2 ->
     contentHash (content r1) <> contentHash (content r2)) /\
  (forall a b r1 r2, a < b ->
     pass_plain (dedup_md msgs) !! a = Some r1 ->
     pass_plain (dedup_md msgs) !! b = Some r2 ->
     contentHash (p_content r1) <> contentHash (p_content r2)).
Proof.
  split; intros a b r1 r2 Hab H1 H2.
  - apply pass_relabels in H1 as (x & Hx & ->).
    apply pass_relabels in H2 as (y & Hy & ->).
    destruct (kept_distinct step_b64 _ (fun m => contentHash (l_content m)) _
                originalIndex step_b64_shape (fun _ _ => eq_refl) msgs
                a b x y Hab Hx Hy) as (mi & mj & _ & _ & -> & -> & Hne).
    exact Hne.
  - apply pass_plain_content in H1 as (x & Hx & ->).
    apply pass_plain_content in H2 as (y & Hy & ->).
    destruct (kept_distinct step_md _ (fun m => contentHash (l_content m)) _
                p_originalIndex step_md_shape (fun _ _ => eq_refl) msgs
                a b x y Hab Hx Hy) as (mi & mj & _ & _ & -> & -> & Hne).
    exact Hne.
Qed.

Lemma exported_fingerprints_are_distinct_witness :
  let msgs := [located "Hello world" "a"; located "Hello world" "b";
               located "Good bye" "c"] in
  0 < 1 /\
  pass (dedup_b64 msgs) !! 0 = Some (mkMessage You false None (js "Hello world") 0) /\
  pass (dedup_b64 msgs) !! 1 = Some (mkMessage ChatGPT false None (js "Good bye") 2) /\
  contentHash (js "Hello world") <> contentHash (js "Good bye").
Proof.
  intros msgs. split; [lia|]. split; [reflexivity|]. split; [reflexivity|].
  destruct (exported_fingerprints_are_distinct msgs) as [H _].
  exact (H 0 1 _ _ ltac:(lia) eq_refl eq_refl).
Defined.

End MainLoopTheorems.
